(** * go-steam-language: the parser package (token.go, ast.go, analyzer)

    A shallow embedding of the lexer, the tree/symbol model and the
    recursive-descent analyzer, and the properties of them that the
    specification states.

    Conventions.
    - A Go [[]byte] and a Go [string] are both sequences of bytes; both are
      Rocq [string]s (a sequence of 8-bit [ascii]), so [string(b)] and
      [[]byte(s)] are the identity.
    - Go pointers are addresses into a heap of nodes and a heap of symbols;
      a nil pointer is [None].
    - A Go panic, and unbounded recursion, are outcomes of their own. *)

From Stdlib Require Import ZArith Ascii String List Lia.
From stdpp Require Import base option list gmap strings.

Local Open Scope string_scope.
Local Open Scope Z_scope.

(** ** Bytes and character classes *)

Definition byte_val (c : ascii) : Z := Z.of_N (N_of_ascii c).

Definition in_range (lo hi c : ascii) : bool :=
  ((lo <=? c)%char && (c <=? hi)%char)%bool.

(** [[a-zA-Z]] *)
Definition is_letter (c : ascii) : bool :=
  (in_range "a" "z" c || in_range "A" "Z" c)%bool.

(** [[0-9]] *)
Definition is_digit (c : ascii) : bool := in_range "0" "9" c.

(** [\s] of Go's regexp syntax: tab, line feed, form feed, carriage
    return and space. *)
Definition is_space (c : ascii) : bool :=
  ((c =? "009")%char || (c =? "010")%char || (c =? "012")%char
   || (c =? "013")%char || (c =? " ")%char)%bool.

Definition is_newline (c : ascii) : bool := (c =? "010")%char.

(** The double quote character. *)
Definition dquote : ascii := "034"%char.

(** [[a-zA-Z_0-9]], the class that follows the optional [-] of an
    identifier. *)
Definition is_ident_start (c : ascii) : bool :=
  (is_letter c || (c =? "_")%char || is_digit c)%bool.

(** [[a-zA-Z0-9_.]] *)
Definition is_ident_char (c : ascii) : bool :=
  (is_letter c || is_digit c || (c =? "_")%char || (c =? ".")%char)%bool.

(** [[{}<>\]=|]] *)
Definition is_operator (c : ascii) : bool :=
  ((c =? "{")%char || (c =? "}")%char || (c =? "<")%char || (c =? ">")%char
   || (c =? "]")%char || (c =? "=")%char || (c =? "|")%char)%bool.

(** The longest prefix of [s] whose characters satisfy [f], and what follows
    it: a greedy [[class]*]. *)
Fixpoint span (f : ascii -> bool) (s : string) : string * string :=
  match s with
  | EmptyString => (EmptyString, EmptyString)
  | String c s' =>
      if f c then let '(p, r) := span f s' in (String c p, r)
      else (EmptyString, s)
  end.

(** ** unicode/utf8 *)

Module utf8.

Definition RuneError : Z := 0xFFFD.
Definition RuneSelf : Z := 0x80.

(** Is [b] a byte in [lo..hi]? *)
Definition within (lo hi : Z) (c : ascii) : bool :=
  ((lo <=? byte_val c) && (byte_val c <=? hi))%bool.

Definition cont (c : ascii) : Z := Z.land (byte_val c) 0x3F.

(** The size a leading byte announces and the range its second byte must
    lie in (Go's [first] and [acceptRanges] tables); [None] for a byte that
    cannot start a multi-byte encoding. *)
Definition lead (p0 : ascii) : option (nat * Z * Z) :=
  let b := byte_val p0 in
  if (0xC2 <=? b) && (b <=? 0xDF) then Some (2%nat, 0x80, 0xBF)
  else if b =? 0xE0 then Some (3%nat, 0xA0, 0xBF)
  else if (0xE1 <=? b) && (b <=? 0xEC) then Some (3%nat, 0x80, 0xBF)
  else if b =? 0xED then Some (3%nat, 0x80, 0x9F)
  else if (0xEE <=? b) && (b <=? 0xEF) then Some (3%nat, 0x80, 0xBF)
  else if b =? 0xF0 then Some (4%nat, 0x90, 0xBF)
  else if (0xF1 <=? b) && (b <=? 0xF3) then Some (4%nat, 0x80, 0xBF)
  else if b =? 0xF4 then Some (4%nat, 0x80, 0x8F)
  else None.

(** [utf8.DecodeRune]: the first rune of [p] and its width in bytes;
    [(RuneError, 0)] on empty input and [(RuneError, 1)] on an invalid
    encoding. *)
Definition DecodeRune (p : string) : Z * nat :=
  match p with
  | EmptyString => (RuneError, 0%nat)
  | String p0 rest =>
      if byte_val p0 <? RuneSelf then (byte_val p0, 1%nat)
      else
        match lead p0 with
        | None => (RuneError, 1%nat)
        | Some (sz, lo, hi) =>
            match rest with
            | EmptyString => (RuneError, 1%nat)
            | String b1 rest1 =>
                if negb (within lo hi b1) then (RuneError, 1%nat)
                else if (sz <=? 2)%nat then
                  (Z.lor (Z.shiftl (Z.land (byte_val p0) 0x1F) 6) (cont b1),
                   2%nat)
                else
                  match rest1 with
                  | EmptyString => (RuneError, 1%nat)
                  | String b2 rest2 =>
                      if negb (within 0x80 0xBF b2) then (RuneError, 1%nat)
                      else if (sz <=? 3)%nat then
                        (Z.lor (Z.shiftl (Z.land (byte_val p0) 0x0F) 12)
                           (Z.lor (Z.shiftl (cont b1) 6) (cont b2)),
                         3%nat)
                      else
                        match rest2 with
                        | EmptyString => (RuneError, 1%nat)
                        | String b3 _ =>
                            if negb (within 0x80 0xBF b3)
                            then (RuneError, 1%nat)
                            else
                              (Z.lor
                                 (Z.shiftl (Z.land (byte_val p0) 0x07) 18)
                                 (Z.lor (Z.shiftl (cont b1) 12)
                                    (Z.lor (Z.shiftl (cont b2) 6) (cont b3))),
                               4%nat)
                        end
                  end
            end
        end
  end.

End utf8.

(** [s[n:]] *)
Fixpoint drop_bytes (n : nat) (s : string) : string :=
  match n, s with
  | O, _ => s
  | S n', String _ s' => drop_bytes n' s'
  | S _, EmptyString => EmptyString
  end.

(** ** token.go *)

Inductive OpCode :=
| OpWhitespace | OpTerminator | OpString | OpComment | OpIdentifier
| OpNamespace | OpPreprocess | OpOperator | OpInvalid.

#[global] Instance OpCode_eq_dec : EqDecision OpCode.
Proof. solve_decision. Defined.

Definition OpCode_String (op : OpCode) : string :=
  match op with
  | OpWhitespace => "whitespace"
  | OpTerminator => "terminator"
  | OpString => "string"
  | OpComment => "comment"
  | OpIdentifier => "identifier"
  | OpNamespace => "namespace"
  | OpPreprocess => "preprocess"
  | OpOperator => "operator"
  | OpInvalid => "invalid"
  end.

(** Go [error] values of the package. *)
Inductive error :=
| ErrInvalidUTF8                       (* "Invalid UTF-8 char" *)
| ErrUninitialized                     (* "Uninitialized Analyzer" *)
| ErrIO (path : string)                (* os.Open / ioutil.ReadAll failed *)
| ErrAt (file : string) (pos : option (Z * Z)) (msg : string) (raw : string).
                                       (* Analyzer.Errorf *)

Record Token := mkToken {
  Op : OpCode;
  Name : string;
  Value : string;
  Raw : string;
  Row : Z;
  Col : Z;
  Error : option error
}.

(** One match of the composed pattern: the group that took part, the bytes
    it captured and the whole matched text. *)
Record submatch := mkMatch {
  m_group : OpCode;
  m_captured : string;
  m_matched : string
}.

(** *** The alternatives of [pattern], in their order

    Each returns the match of that alternative anchored at the start of the
    input, and the input that follows it. *)

(** [(?P<whitespace>\s+)] *)
Definition alt_whitespace (s : string) : option (submatch * string) :=
  match span is_space s with
  | (EmptyString, _) => None
  | (w, rest) => Some (mkMatch OpWhitespace w w, rest)
  end.

(** [(?P<terminator>[;])] *)
Definition alt_terminator (s : string) : option (submatch * string) :=
  match s with
  | String c rest =>
      if (c =? ";")%char then Some (mkMatch OpTerminator ";" ";", rest)
      else None
  | EmptyString => None
  end.

(** The tail of the lazy [.+?] followed by the closing quote, once its first
    character is taken: extend the capture up to the first quote; [.] does
    not match a line feed. *)
Fixpoint lazy_to_quote (s : string) : option (string * string) :=
  match s with
  | EmptyString => None
  | String c s' =>
      if (c =? dquote)%char then Some (EmptyString, s')
      else if is_newline c then None
      else match lazy_to_quote s' with
           | Some (p, r) => Some (String c p, r)
           | None => None
           end
  end.

(** The third alternative: a quote, [(?P<string>.+?)], a quote. *)
Definition alt_string (s : string) : option (submatch * string) :=
  match s with
  | String q t =>
      if negb (q =? dquote)%char then None
      else
        match t with
        | String c s' =>
            if is_newline c then None
            else match lazy_to_quote s' with
                 | Some (p, rest) =>
                     let captured := String c p in
                     Some (mkMatch OpString captured
                             (String dquote captured
                              ++ String dquote EmptyString),
                           rest)
                 | None => None
                 end
        | EmptyString => None
        end
  | EmptyString => None
  end.

(** Two slashes, the group [comment] (a greedy run of [.]) and [$], under the
    multi-line flag: the run stops at a line feed or at the end of the text,
    where [$] holds. *)
Definition alt_comment (s : string) : option (submatch * string) :=
  match s with
  | String a t =>
      if negb (a =? "/")%char then None
      else
        match t with
        | String b s' =>
            if negb (b =? "/")%char then None
            else
              let '(c, rest) := span (fun c => negb (is_newline c)) s' in
              Some (mkMatch OpComment c ("//" ++ c), rest)
        | EmptyString => None
        end
  | EmptyString => None
  end.

(** One of [[a-zA-Z_0-9]] and a greedy run of [[a-zA-Z0-9_.]], after the
    sign [sign] already taken. *)
Definition ident_body (sign : string) (t : string)
  : option (submatch * string) :=
  match t with
  | String c t' =>
      if is_ident_start c then
        let '(p, rest) := span is_ident_char t' in
        let id := sign ++ String c p in
        Some (mkMatch OpIdentifier id id, rest)
      else None
  | EmptyString => None
  end.

(** The group [identifier]: an optional [-], one of [[a-zA-Z_0-9]], then a
    greedy run of [[a-zA-Z0-9_.]].  The optional [-] is taken when there is
    one; without what must follow it, the alternative is tried again
    without it. *)
Definition alt_identifier (s : string) : option (submatch * string) :=
  match s with
  | String c t =>
      if (c =? "-")%char then
        match ident_body "-" t with
        | Some r => Some r
        | None => ident_body EmptyString s
        end
      else ident_body EmptyString s
  | EmptyString => None
  end.

(** [(?P<namespace>::)] *)
Definition alt_namespace (s : string) : option (submatch * string) :=
  match s with
  | String a t =>
      if negb (a =? ":")%char then None
      else
        match t with
        | String b rest =>
            if negb (b =? ":")%char then None
            else Some (mkMatch OpNamespace "::" "::", rest)
        | EmptyString => None
        end
  | EmptyString => None
  end.

(** A [#] and the group [preprocess], a greedy run of [[a-zA-Z]]. *)
Definition alt_preprocess (s : string) : option (submatch * string) :=
  match s with
  | String c s' =>
      if negb (c =? "#")%char then None
      else
        let '(p, rest) := span is_letter s' in
        Some (mkMatch OpPreprocess p (String "#" p), rest)
  | EmptyString => None
  end.

(** [(?P<operator>[{}<>\]=|])] *)
Definition alt_operator (s : string) : option (submatch * string) :=
  match s with
  | String c rest =>
      if is_operator c
      then Some (mkMatch OpOperator (String c EmptyString) (String c EmptyString), rest)
      else None
  | EmptyString => None
  end.

(** [(?P<invalid>[^\s]+)] *)
Definition alt_invalid (s : string) : option (submatch * string) :=
  match span (fun c => negb (is_space c)) s with
  | (EmptyString, _) => None
  | (w, rest) => Some (mkMatch OpInvalid w w, rest)
  end.

(** Leftmost-first alternation: the first alternative that matches wins. *)
Fixpoint first_alt (alts : list (string -> option (submatch * string)))
    (s : string) : option (submatch * string) :=
  match alts with
  | [] => None
  | a :: alts' =>
      match a s with
      | Some r => Some r
      | None => first_alt alts' s
      end
  end.

Definition pattern : list (string -> option (submatch * string)) :=
  [alt_whitespace; alt_terminator; alt_string; alt_comment; alt_identifier;
   alt_namespace; alt_preprocess; alt_operator; alt_invalid].

Definition match_here (s : string) : option (submatch * string) :=
  first_alt pattern s.

(** [patternRegexp.FindAllSubmatchIndex(data, -1)]: the successive matches.
    Every byte is either white space or not, so the pattern matches at every
    position of a non-empty input and the matches tile it; each is non-empty,
    so [String.length data] steps are enough. *)
Fixpoint find_all (fuel : nat) (s : string) : list submatch :=
  match fuel with
  | O => []
  | S fuel' =>
      match match_here s with
      | Some (m, rest) => m :: find_all fuel' rest
      | None => []
      end
  end.

Definition FindAllSubmatch (data : string) : list submatch :=
  find_all (String.length data) data.

(** The loop of [countRunes]; [fuel] bounds the iterations, each of which
    advances [pos] by at least one byte. *)
Fixpoint countRunes_loop (fuel : nat) (data : string) (rows cols : Z)
  : Z * Z * option error :=
  match fuel with
  | O => (rows, cols, None)
  | S fuel' =>
      match data with
      | EmptyString => (rows, cols, None)
      | _ =>
          let '(r, s) := utf8.DecodeRune data in
          if r =? 10 then countRunes_loop fuel' (drop_bytes s data) (rows + 1) 0
          else if r =? utf8.RuneError then (-1, -1, Some ErrInvalidUTF8)
          else countRunes_loop fuel' (drop_bytes s data) rows (cols + 1)
      end
  end.

Definition countRunes (data : string) : Z * Z * option error :=
  countRunes_loop (String.length data) data 0 0.

(** The body of the loop of [Tokenizer.tokenize] over the matches: [q] is
    the queue built so far, front first. *)
Fixpoint tokenize_loop (ms : list submatch) (row col : Z) (q : list Token)
  : list Token * option error :=
  match ms with
  | [] => (q, None)
  | m :: ms' =>
      match countRunes (m_matched m) with
      | (_, _, Some err) => (q, Some err)
      | (rows, cols, None) =>
          let row := row + rows in
          let col := if 0 <? rows then cols else col + cols in
          match m_group m with
          | OpComment | OpWhitespace => tokenize_loop ms' row col q
          | op =>
              let token := mkToken op (OpCode_String op) (m_captured m)
                             (m_matched m) row col None in
              tokenize_loop ms' row col (q ++ [token])
          end
      end
  end.

(** [Tokenizer.Tokenize] *)
Definition Tokenize (data : string) : list Token * option error :=
  tokenize_loop (FindAllSubmatch data) 1 1 [].


(** ** Outcomes of a call, and the state monad of the model *)

Inductive panic :=
| PanicNilSymbol                    (* "Trying to add nil symbol to node" *)
| PanicEmptySymbol                  (* "Trying to add empty symbol to node" *)
| PanicExistingSymbol (v : string)  (* "Trying to add existing symbol" *)
| PanicNilDefault                   (* "Trying to add nil symbol to PropertyNode" *)
| PanicNilDereference.              (* a method called on a nil Node *)

(** A call returns a value and leaves a state, or panics, or never returns
    (unbounded recursion). *)
Inductive res (S A : Type) :=
| Ok (a : A) (s : S)
| Panic (p : panic)
| Diverge.
Arguments Ok {S A} a s.
Arguments Panic {S A} p.
Arguments Diverge {S A}.

Definition M (S A : Type) : Type := S -> res S A.

Definition ret {S A} (a : A) : M S A := fun s => Ok a s.

Definition bind {S A B} (c : M S A) (k : A -> M S B) : M S B :=
  fun s => match c s with
           | Ok a s' => k a s'
           | Panic p => Panic p
           | Diverge => Diverge
           end.

Definition raise {S A} (p : panic) : M S A := fun _ => Panic p.
Definition get {S} : M S S := fun s => Ok s s.
Definition modify {S} (f : S -> S) : M S unit := fun s => Ok tt (f s).

Declare Scope go_scope.
Delimit Scope go_scope with go.
Notation "'let*' x ':=' c 'in' k" := (bind c (fun x => k))
  (at level 10, x name, c at level 100, k at level 200, only parsing)
  : go_scope.
Local Open Scope go_scope.

(** ** ast.go *)

Definition addr := nat.      (* the address of a [node] *)
Definition sym_ptr := nat.   (* the address of a [Symbol] *)

(** A non-nil value of interface type [Node]: the generic [*node] at an
    address, or the concrete node ([*ClassNode], [*EnumNode],
    [*PropertyNode]) that embeds the [*node] at that address.  The embedded
    node is set once, when the concrete node is made, so a concrete node is
    named by the address of the node it embeds; every tree and symbol method
    called on it is promoted from that node. *)
Inductive NodeRef :=
| Generic (a : addr)
| Concrete (a : addr).

#[global] Instance NodeRef_eq_dec : EqDecision NodeRef.
Proof. solve_decision. Defined.

Definition addr_of (r : NodeRef) : addr :=
  match r with Generic a | Concrete a => a end.

Record Symbol := mkSymbol {
  sValue : string;
  sScope : option NodeRef;
  sNode : option NodeRef
}.

Record node := mkNode {
  parent : option NodeRef;
  owner : option NodeRef;
  children : list NodeRef;
  symbols : gmap string sym_ptr
}.

Record baseNode := mkBase {
  bValue : string;
  bOwner : option NodeRef
}.

Record ClassNode := mkClass {
  cBase : baseNode;
  cQualifier : option sym_ptr
}.

Record EnumNode := mkEnum {
  eBase : baseNode;
  eFlags : bool;
  eQualifier : option sym_ptr
}.

Record PropertyNode := mkProperty {
  pBase : baseNode;
  pFlags : string;
  pFlagsOpt : option sym_ptr;
  pType : option sym_ptr;
  pDefault : list sym_ptr;
  pObsolete : bool;
  pObsoleteReason : string
}.

Inductive concrete :=
| IsClass (c : ClassNode)
| IsEnum (e : EnumNode)
| IsProperty (p : PropertyNode).

#[global] Instance Symbol_inhabited : Inhabited Symbol :=
  populate (mkSymbol EmptyString None None).
#[global] Instance node_inhabited : Inhabited node :=
  populate (mkNode None None [] ∅).

(** The Go heap: the nodes, the symbols and the concrete nodes allocated so
    far, and the next free address of each kind. *)
Record heap := mkHeap {
  nodes : gmap addr node;
  syms : gmap sym_ptr Symbol;
  concretes : gmap addr concrete;
  next_node : addr;
  next_sym : sym_ptr
}.

Definition empty_heap : heap := mkHeap ∅ ∅ ∅ O O.

Definition node_at (h : heap) (a : addr) : node := nodes h !!! a.
Definition sym_at (h : heap) (p : sym_ptr) : Symbol := syms h !!! p.

Definition set_node (a : addr) (n : node) (h : heap) : heap :=
  mkHeap (<[a := n]> (nodes h)) (syms h) (concretes h) (next_node h)
    (next_sym h).

Definition set_sym (p : sym_ptr) (s : Symbol) (h : heap) : heap :=
  mkHeap (nodes h) (<[p := s]> (syms h)) (concretes h) (next_node h)
    (next_sym h).

Definition set_concrete (a : addr) (c : concrete) (h : heap) : heap :=
  mkHeap (nodes h) (syms h) (<[a := c]> (concretes h)) (next_node h)
    (next_sym h).

(** [&Symbol{...}] *)
Definition alloc_sym (s : Symbol) : M heap sym_ptr := fun h =>
  let p := next_sym h in
  Ok p (mkHeap (nodes h) (<[p := s]> (syms h)) (concretes h) (next_node h)
          (S p)).

(** [&node{...}] *)
Definition alloc_node (n : node) : M heap addr := fun h =>
  let a := next_node h in
  Ok a (mkHeap (<[a := n]> (nodes h)) (syms h) (concretes h) (S a)
          (next_sym h)).

Definition Parent (n : addr) (h : heap) : option NodeRef :=
  parent (node_at h n).

Definition SetParent (n : addr) (p : option NodeRef) : M heap unit :=
  modify (fun h =>
    let x := node_at h n in
    set_node n (mkNode p (owner x) (children x) (symbols x)) h).

Definition Children (n : addr) (h : heap) : list NodeRef :=
  children (node_at h n).

Definition AddChild (n : addr) (child : NodeRef) : M heap unit :=
  let* _ := SetParent (addr_of child) (Some (Generic n)) in
  modify (fun h =>
    let x := node_at h n in
    set_node n (mkNode (parent x) (owner x) (children x ++ [child])
                  (symbols x)) h).

Definition ClearChildren (n : addr) : M heap unit :=
  modify (fun h =>
    let x := node_at h n in
    set_node n (mkNode (parent x) (owner x) [] (symbols x)) h).

Fixpoint AddChild_each (n : addr) (cs : list NodeRef) : M heap unit :=
  match cs with
  | [] => ret tt
  | child :: cs' => let* _ := AddChild n child in AddChild_each n cs'
  end.

Definition AdoptChildren (n : addr) (other : NodeRef) : M heap unit :=
  let* cs := (fun h => Ok (Children (addr_of other) h) h) in
  let* _ := AddChild_each n cs in
  ClearChildren (addr_of other).

Definition newNode (parent owner : option NodeRef) : M heap addr :=
  let* n := alloc_node (mkNode parent owner [] ∅) in
  match parent with
  | Some p => let* _ := AddChild (addr_of p) (Generic n) in ret n
  | None => ret n
  end.

(** [NewNode] *)
Definition NewNode (parent : option NodeRef) : M heap NodeRef :=
  let* n := newNode parent None in ret (Generic n).

(** [node.AddSymbol].  Each panic is raised before anything is written.  The
    text of the panic (which prints [n.NamePath()]) is not modelled. *)
Definition AddSymbol (n : addr) (s : option sym_ptr) : M heap unit :=
  fun h =>
    match s with
    | None => Panic PanicNilSymbol
    | Some p =>
        let v := sValue (sym_at h p) in
        if decide (v = EmptyString) then Panic PanicEmptySymbol
        else
          match symbols (node_at h n) !! v with
          | Some _ => Panic (PanicExistingSymbol v)
          | None =>
              let y := sym_at h p in
              let h1 := set_sym p (mkSymbol (sValue y) (Some (Generic n))
                                     (sNode y)) h in
              let x := node_at h1 n in
              Ok tt (set_node n (mkNode (parent x) (owner x) (children x)
                                   (<[v := p]> (symbols x))) h1)
          end
    end.

(** [node.CreateSymbol] *)
Definition CreateSymbol (n : addr) (value : string) (nd : option NodeRef)
  : M heap sym_ptr :=
  let* sym := alloc_sym (mkSymbol value None nd) in
  let* _ := AddSymbol n (Some sym) in
  ret sym.

(** [node.FindSymbol], with a bound [fuel] on the depth of the recursion
    along the parent chain. *)
Fixpoint FindSymbol_rec (fuel : nat) (n : addr) (value : string)
    (create : bool) : M heap (option sym_ptr) :=
  match fuel with
  | O => fun _ => Diverge
  | S fuel' =>
      let* h := get in
      match symbols (node_at h n) !! value with
      | Some sym => ret (Some sym)
      | None =>
          let* up := match parent (node_at h n) with
                | Some p => FindSymbol_rec fuel' (addr_of p) value create
                | None => ret None
                end in
          match up with
          | Some sym => ret (Some sym)
          | None =>
              if create then
                let* h' := get in
                let* sym := CreateSymbol n value (owner (node_at h' n)) in
                ret (Some sym)
              else ret None
          end
      end
  end.

(** [node.FindSymbol].  A parent chain without a cycle is shorter than the
    number of nodes allocated; on a cyclic chain the Go code recurses
    without end. *)
Definition FindSymbol (n : addr) (value : string) (create : bool)
  : M heap (option sym_ptr) :=
  fun h => FindSymbol_rec (S (next_node h)) n value create h.

(** The loop of [node.FindNestedSymbol]: [nd] is the loop variable [node]
    (nil when the symbol last found has neither a node nor a scope), [sym]
    the symbol last found; the index [i] is the last one exactly when no
    component follows. *)
Fixpoint FindNestedSymbol_loop (path : list string) (nd : option NodeRef)
    (sym : option sym_ptr) : M heap (option sym_ptr) :=
  match path with
  | [] => ret sym
  | value :: rest =>
      match nd with
      | None => raise PanicNilDereference
      | Some r =>
          let* found := FindSymbol (addr_of r) value (bool_decide (rest = [])) in
          match found with
          | None => ret None
          | Some p =>
              let* h := get in
              let next :=
                match sNode (sym_at h p) with
                | Some x => Some x
                | None => sScope (sym_at h p)
                end in
              FindNestedSymbol_loop rest next (Some p)
          end
      end
  end.

(** [node.FindNestedSymbol] *)
Definition FindNestedSymbol (n : NodeRef) (path : list string)
  : M heap (option sym_ptr) :=
  FindNestedSymbol_loop path (Some n) None.

(** [node.Symbols]: the symbols of the table, in the order the model's map
    lists them (Go ranges over a map in an unspecified order). *)
Definition Symbols (n : addr) (h : heap) : list sym_ptr :=
  (map_to_list (symbols (node_at h n))).*2.

(** The loop of [node.ImportSymbols] over the symbols [order]: each
    [AddSymbol] runs under a deferred [recover], so a panic ends that
    iteration only, with the heap as [AddSymbol] left it, which is as it
    found it. *)
Fixpoint ImportSymbols_loop (n : addr) (order : list sym_ptr) : M heap unit :=
  match order with
  | [] => ret tt
  | sym :: order' =>
      let* _ := (fun h => match AddSymbol n (Some sym) h with
                | Ok _ h' => Ok tt h'
                | Panic _ => Ok tt h
                | Diverge => Diverge
                end) in
      ImportSymbols_loop n order'
  end.

(** [node.ImportSymbols] *)
Definition ImportSymbols (n : addr) (other : NodeRef) : M heap unit :=
  fun h => ImportSymbols_loop n (Symbols (addr_of other) h) h.

(** [newBaseNode] for a concrete node [mk base]: the concrete node is its own
    owner and lives at the address of the node it embeds. *)
Definition newBaseNode (parent : option NodeRef) (mk : baseNode -> concrete)
  : M heap addr :=
  let* h := get in
  let self := Concrete (next_node h) in
  let* n := newNode parent (Some self) in
  let* _ := modify (set_concrete n (mk (mkBase EmptyString (Some self)))) in
  ret n.

Definition NewClassNode (parent : option NodeRef) : M heap addr :=
  newBaseNode parent (fun b => IsClass (mkClass b None)).

Definition NewEnumNode (parent : option NodeRef) : M heap addr :=
  newBaseNode parent (fun b => IsEnum (mkEnum b false None)).

Definition NewPropertyNode (parent : option NodeRef) : M heap addr :=
  newBaseNode parent (fun b =>
    IsProperty (mkProperty b EmptyString None None [] false EmptyString)).

Definition base_of (c : concrete) : baseNode :=
  match c with
  | IsClass c => cBase c
  | IsEnum e => eBase e
  | IsProperty p => pBase p
  end.

Definition with_base (b : baseNode) (c : concrete) : concrete :=
  match c with
  | IsClass c => IsClass (mkClass b (cQualifier c))
  | IsEnum e => IsEnum (mkEnum b (eFlags e) (eQualifier e))
  | IsProperty p =>
      IsProperty (mkProperty b (pFlags p) (pFlagsOpt p) (pType p) (pDefault p)
                    (pObsolete p) (pObsoleteReason p))
  end.

Definition concrete_at (h : heap) (a : addr) : option concrete :=
  concretes h !! a.

(** [baseNode.Name] *)
Definition baseNode_Name (h : heap) (a : addr) : string :=
  match concrete_at h a with
  | Some c => bValue (base_of c)
  | None => EmptyString
  end.

(** [node.Value = v] on a concrete node *)
Definition set_Value (a : addr) (v : string) : M heap unit :=
  modify (fun h =>
    match concrete_at h a with
    | Some c => set_concrete a (with_base (mkBase v (bOwner (base_of c))) c) h
    | None => h
    end).

(** [baseNode.Symbol] *)
Definition base_Symbol (a : addr) : M heap sym_ptr :=
  let* h := get in
  match concrete_at h a with
  | Some c =>
      alloc_sym (mkSymbol (bValue (base_of c)) None (bOwner (base_of c)))
  | None => raise PanicNilDereference
  end.

Definition property_at (h : heap) (a : addr) : option PropertyNode :=
  match concrete_at h a with
  | Some (IsProperty p) => Some p
  | _ => None
  end.

Definition set_property (a : addr) (f : PropertyNode -> PropertyNode)
  : M heap unit :=
  modify (fun h =>
    match property_at h a with
    | Some p => set_concrete a (IsProperty (f p)) h
    | None => h
    end).

(** [PropertyNode.AddDefault] *)
Definition AddDefault (a : addr) (s : option sym_ptr) : M heap unit :=
  match s with
  | None => raise PanicNilDefault
  | Some p =>
      set_property a (fun x =>
        mkProperty (pBase x) (pFlags x) (pFlagsOpt x) (pType x)
          (pDefault x ++ [p]) (pObsolete x) (pObsoleteReason x))
  end.

(** ** The analyzer *)

(** [Analyzer.Errorf]: the position is printed when a row or a column is
    positive, and only then are the arguments of the format passed on: with
    no position the message is printed without them, so the raw text is
    lost and the error carries the empty text.  The file name is carried as
    it is (and printed when not empty). *)
Definition Errorf (filename : string) (row col : Z) (msg raw : string)
  : error :=
  if ((0 <? row) || (0 <? col))%bool
  then ErrAt filename (Some (row, col)) msg raw
  else ErrAt filename None msg EmptyString.

(** A pair [(value, error)] of which Go fills exactly one. *)
Inductive or_error (A : Type) :=
| Got (a : A)
| Failed (e : error).
Arguments Got {A} a.
Arguments Failed {A} e.

(** The state an analyzer works on: its token queue and the heap. *)
Record astate := mkA {
  queue : list Token;
  hp : heap
}.

Definition lift {A} (c : M heap A) : M astate A := fun st =>
  match c (hp st) with
  | Ok a h' => Ok a (mkA (queue st) h')
  | Panic p => Panic p
  | Diverge => Diverge
  end.

(** [TokenQueue.Peek] *)
Definition Peek : M astate (option Token) := fun st =>
  Ok (head (queue st)) st.

(** [TokenQueue.Dequeue] *)
Definition Dequeue : M astate (option Token) := fun st =>
  match queue st with
  | [] => Ok None st
  | t :: q => Ok (Some t) (mkA q (hp st))
  end.

(** [tokenStringValues] *)
Definition tokenStringValues (ts : list Token) : list string := map Value ts.

Record Analyzer := mkAnalyzer {
  a_t : option string;      (* the tokenizer's data; nil when there is none *)
  a_filename : string
}.

Definition openQualifierToken : Token :=
  mkToken OpOperator EmptyString "<" EmptyString 0 0 None.
Definition closeQualifierToken : Token :=
  mkToken OpOperator EmptyString ">" EmptyString 0 0 None.
Definition openScopeToken : Token :=
  mkToken OpOperator EmptyString "{" EmptyString 0 0 None.
Definition closeScopeToken : Token :=
  mkToken OpOperator EmptyString "}" EmptyString 0 0 None.
Definition assignmentToken : Token :=
  mkToken OpOperator EmptyString "=" EmptyString 0 0 None.
Definition binaryOrToken : Token :=
  mkToken OpOperator EmptyString "|" EmptyString 0 0 None.
Definition obsoleteToken : Token :=
  mkToken OpIdentifier EmptyString "obsolete" EmptyString 0 0 None.
Definition flagsToken : Token :=
  mkToken OpIdentifier EmptyString "flags" EmptyString 0 0 None.

(** The comparison of two ASCII bytes in [bytes.EqualFold]: equal, or an
    upper-case letter and its lower-case form. *)
Definition ascii_fold_eq (sr tr : ascii) : bool :=
  if (sr =? tr)%char then true
  else
    let lo := if (tr <? sr)%char then tr else sr in
    let hi := if (tr <? sr)%char then sr else tr in
    (in_range "A" "Z" lo && (byte_val hi =? byte_val lo + 32))%bool.

Section Analyzer.

(** What [bytes.EqualFold] returns once it meets a byte that is not ASCII:
    the comparison of the two remaining slices under Unicode simple case
    folding, whose tables are the Go library's. *)
Variable hasUnicode : string -> string -> bool.

(** The file system: [import_path file name] is
    [filepath.Join(filepath.Dir(file), name)] ([dir] being empty when [file]
    is), and [read_file path] is the content [os.Open] and [ioutil.ReadAll]
    deliver, or nothing when either fails. *)
Variable import_path : string -> string -> string.
Variable read_file : string -> option string.

(** [bytes.EqualFold] *)
Fixpoint EqualFold (s t : string) : bool :=
  match s, t with
  | String sr s', String tr t' =>
      if utf8.RuneSelf <=? Z.lor (byte_val sr) (byte_val tr)
      then hasUnicode s t
      else if ascii_fold_eq sr tr then EqualFold s' t'
      else false
  | EmptyString, EmptyString => true
  | _, _ => false
  end.

(** [Token.ValueEqual] *)
Definition ValueEqual (t : Token) (val : string) : bool :=
  EqualFold (Value t) val.

(** [Token.Equal] *)
Definition Equal (t other : Token) : bool :=
  (bool_decide (Op t = Op other) && ValueEqual t (Value other))%bool.

Variable filename : string.

(** [Analyzer.expectOp] *)
Definition expectOp (op : OpCode) : M astate (or_error Token) :=
  let* t := Peek in
  match t with
  | None => ret (Failed (Errorf filename (-1) (-1) "EOF" EmptyString))
  | Some t =>
      if negb (bool_decide (Op t = op))
      then ret (Failed (Errorf filename (Row t) (Col t) "Unexpected token"
                          (Raw t)))
      else let* _ := Dequeue in ret (Got t)
  end.

(** [Analyzer.expectToken] *)
Definition expectToken (t1 : Token) : M astate (or_error Token) :=
  let* t2 := Peek in
  match t2 with
  | None => ret (Failed (Errorf filename (-1) (-1) "EOF" EmptyString))
  | Some t2 =>
      if negb (Equal t1 t2)
      then ret (Failed (Errorf filename (Row t2) (Col t2) "Unexpected token"
                          (Raw t2)))
      else let* _ := Dequeue in ret (Got t2)
  end.

(** [Analyzer.optionalOp] *)
Definition optionalOp (op : OpCode) : M astate (option Token) :=
  let* t := Peek in
  match t with
  | None => ret None
  | Some t =>
      if negb (bool_decide (Op t = op)) then ret None
      else Dequeue
  end.

(** [Analyzer.optionalToken] *)
Definition optionalToken (t1 : Token) : M astate (option Token) :=
  let* t2 := Peek in
  match t2 with
  | None => ret None
  | Some t2 =>
      if negb (Equal t1 t2) then ret None
      else Dequeue
  end.

(** [Analyzer.getNamespacedIdentifier] *)
Definition getNamespacedIdentifier : M astate (or_error (list Token)) :=
  let* r := expectOp OpIdentifier in
  match r with
  | Failed err => ret (Failed err)
  | Got id =>
      let* ns := optionalOp OpNamespace in
      match ns with
      | Some _ =>
          let* r2 := expectOp OpIdentifier in
          match r2 with
          | Failed err => ret (Failed err)
          | Got id2 => ret (Got [id; id2])
          end
      | None => ret (Got [id])
      end
  end.

(** [Analyzer.getQualifierIdentifier] *)
Definition getQualifierIdentifier : M astate (or_error (list Token)) :=
  let* openQualifier := optionalToken openQualifierToken in
  match openQualifier with
  | None => ret (Got [])
  | Some _ =>
      let* r := getNamespacedIdentifier in
      match r with
      | Failed err => ret (Failed err)
      | Got qualifiers =>
          let* c := expectToken closeQualifierToken in
          match c with
          | Failed err => ret (Failed err)
          | Got _ => ret (Got qualifiers)
          end
      end
  end.

(** [analyzeProperty], from its start to [node.Flags = flags]: the new
    property node, or the error returned. *)
Definition property_head (root : NodeRef) : M astate (or_error addr) :=
  let* node := lift (NewPropertyNode (Some root)) in
  let* r1 := expectOp OpIdentifier in
  match r1 with
  | Failed err => ret (Failed err)
  | Got t1 =>
      let* rq := getQualifierIdentifier in
      match rq with
      | Failed err => ret (Failed err)
      | Got qualifiers =>
          let* t2 := optionalOp OpIdentifier in
          let* t3 := optionalOp OpIdentifier in
          let* names :=
            match t3, t2 with
            | Some t3, Some t2 => ret (Value t3, Value t2, Value t1)
            | Some t3, None => raise PanicNilDereference
            | None, Some t2 => ret (Value t2, Value t1, EmptyString)
            | None, None => ret (Value t1, EmptyString, EmptyString)
            end in
          let '(nodeValue, typeSymbol, flags) := names in
          let* _ := lift (set_Value node nodeValue) in
          let* fo :=
            lift (FindNestedSymbol root (tokenStringValues qualifiers)) in
          let* _ := lift (set_property node (fun x =>
            mkProperty (pBase x) (pFlags x) fo (pType x) (pDefault x)
              (pObsolete x) (pObsoleteReason x))) in
          let* s := lift (base_Symbol node) in
          let* _ := lift (AddSymbol (addr_of root) (Some s)) in
          let* _ :=
            if decide (typeSymbol = EmptyString) then ret tt
            else
              let* ty := lift (FindSymbol (addr_of root) typeSymbol true) in
              lift (set_property node (fun x =>
                mkProperty (pBase x) (pFlags x) (pFlagsOpt x) ty
                  (pDefault x) (pObsolete x) (pObsoleteReason x))) in
          let* _ := lift (set_property node (fun x =>
            mkProperty (pBase x) flags (pFlagsOpt x) (pType x) (pDefault x)
              (pObsolete x) (pObsoleteReason x))) in
          ret (Got node)
      end
  end.

(** The [for] loop of the assignment of [analyzeProperty]; every pass
    takes at least one token, so [fuel] passes are enough when [fuel]
    exceeds the length of the queue. *)
Fixpoint defaults_loop (fuel : nat) (node : addr)
  : M astate (option error) :=
  match fuel with
  | O => fun _ => Diverge
  | S fuel' =>
      let* r := getNamespacedIdentifier in
      match r with
      | Failed err => ret (Some err)
      | Got tokens =>
          let* sym :=
            lift (FindNestedSymbol (Concrete node)
                    (tokenStringValues tokens)) in
          let* _ := lift (AddDefault node sym) in
          let* t := optionalToken binaryOrToken in
          match t with
          | Some _ => defaults_loop fuel' node
          | None => ret None
          end
      end
  end.

(** [analyzeProperty], the optional assignment. *)
Definition property_defaults (node : addr) : M astate (option error) :=
  let* assignment := optionalToken assignmentToken in
  match assignment with
  | Some _ =>
      let* st := get in
      defaults_loop (S (length (queue st))) node
  | None => ret None
  end.

(** [analyzeProperty], from the terminator to the end. *)
Definition property_tail (node : addr) : M astate (option error) :=
  let* r := expectOp OpTerminator in
  match r with
  | Failed err => ret (Some err)
  | Got _ =>
      let* obsolete := optionalToken obsoleteToken in
      match obsolete with
      | Some _ =>
          let* _ := lift (set_property node (fun x =>
            mkProperty (pBase x) (pFlags x) (pFlagsOpt x) (pType x)
              (pDefault x) true (pObsoleteReason x))) in
          let* obsoleteReason := optionalOp OpString in
          match obsoleteReason with
          | Some t =>
              let* _ := lift (set_property node (fun x =>
                mkProperty (pBase x) (pFlags x) (pFlagsOpt x) (pType x)
                  (pDefault x) (pObsolete x) (Value t))) in
              ret None
          | None =>
              let* _ := optionalOp OpTerminator in
              ret None
          end
      | None => ret None
      end
  end.

(** [Analyzer.analyzeProperty] *)
Definition analyzeProperty (root : NodeRef) : M astate (option error) :=
  let* r := property_head root in
  match r with
  | Failed err => ret (Some err)
  | Got node =>
      let* e := property_defaults node in
      match e with
      | Some err => ret (Some err)
      | None => property_tail node
      end
  end.

(** The [for closeScope == nil] loop of [analyzeScope]. *)
Fixpoint scope_loop (fuel : nat) (root : NodeRef)
  : M astate (option error) :=
  match fuel with
  | O => fun _ => Diverge
  | S fuel' =>
      let* e := analyzeProperty root in
      match e with
      | Some err => ret (Some err)
      | None =>
          let* closeScope := optionalToken closeScopeToken in
          match closeScope with
          | Some _ => ret None
          | None => scope_loop fuel' root
          end
      end
  end.

(** [Analyzer.analyzeScope] *)
Definition analyzeScope (root : NodeRef) : M astate (option error) :=
  let* r := expectToken openScopeToken in
  match r with
  | Failed err => ret (Some err)
  | Got _ =>
      let* closeScope := optionalToken closeScopeToken in
      match closeScope with
      | Some _ => ret None
      | None =>
          let* st := get in
          scope_loop (S (length (queue st))) root
      end
  end.

Definition set_class (a : addr) (f : ClassNode -> ClassNode)
  : M heap unit :=
  modify (fun h =>
    match concrete_at h a with
    | Some (IsClass c) => set_concrete a (IsClass (f c)) h
    | _ => h
    end).

Definition set_enum (a : addr) (f : EnumNode -> EnumNode) : M heap unit :=
  modify (fun h =>
    match concrete_at h a with
    | Some (IsEnum e) => set_concrete a (IsEnum (f e)) h
    | _ => h
    end).

(** [Analyzer.analyzeClass] *)
Definition analyzeClass (root : NodeRef) : M astate (option error) :=
  let* node := lift (NewClassNode (Some root)) in
  let* r := expectOp OpIdentifier in
  match r with
  | Failed err => ret (Some err)
  | Got name =>
      let* _ := lift (set_Value node (Value name)) in
      let* s := lift (base_Symbol node) in
      let* _ := lift (AddSymbol (addr_of root) (Some s)) in
      let* rq := getQualifierIdentifier in
      match rq with
      | Failed err => ret (Some err)
      | Got qualifiers =>
          let* q :=
            lift (FindNestedSymbol root (tokenStringValues qualifiers)) in
          let* _ := lift (set_class node (fun c => mkClass (cBase c) q)) in
          let* e := analyzeScope (Concrete node) in
          match e with
          | Some err => ret (Some err)
          | None =>
              let* r := expectOp OpTerminator in
              match r with
              | Failed err => ret (Some err)
              | Got _ => ret None
              end
          end
      end
  end.

(** [Analyzer.analyzeEnum] *)
Definition analyzeEnum (root : NodeRef) : M astate (option error) :=
  let* node := lift (NewEnumNode (Some root)) in
  let* r := expectOp OpIdentifier in
  match r with
  | Failed err => ret (Some err)
  | Got name =>
      let* _ := lift (set_Value node (Value name)) in
      let* s := lift (base_Symbol node) in
      let* _ := lift (AddSymbol (addr_of root) (Some s)) in
      let* rq := getQualifierIdentifier in
      match rq with
      | Failed err => ret (Some err)
      | Got qualifiers =>
          let* q :=
            lift (FindNestedSymbol root (tokenStringValues qualifiers)) in
          let* _ := lift (set_enum node (fun e =>
                            mkEnum (eBase e) (eFlags e) q)) in
          let* flag := optionalToken flagsToken in
          let* _ :=
            match flag with
            | Some _ => lift (set_enum node (fun e =>
                                mkEnum (eBase e) true (eQualifier e)))
            | None => ret tt
            end in
          let* e := analyzeScope (Concrete node) in
          match e with
          | Some err => ret (Some err)
          | None =>
              let* r := expectOp OpTerminator in
              match r with
              | Failed err => ret (Some err)
              | Got _ => ret None
              end
          end
      end
  end.

(** [Analyzer.handleIdentifierToken] *)
Definition handleIdentifierToken (t : Token) (root : NodeRef)
  : M astate (option error) :=
  if decide (Value t = "class") then analyzeClass root
  else if decide (Value t = "enum") then analyzeEnum root
  else ret (Some (Errorf filename (Row t) (Col t) "Invalid token" (Raw t))).

(** The analysis of an imported file: [Analyze] of a new analyzer, as
    [importFile] calls it. *)
Variable Analyze_import : Analyzer -> M heap (option NodeRef * option error).

(** [Analyzer.importFile] *)
Definition importFile (name : string) (root : NodeRef)
  : M astate (option error) :=
  let input := import_path filename name in
  match read_file input with
  | None => ret (Some (ErrIO input))
  | Some data =>
      let* r := lift (Analyze_import (mkAnalyzer (Some data) input)) in
      match r with
      | (_, Some err) => ret (Some err)
      | (None, None) => raise PanicNilDereference
      | (Some importRoot, None) =>
          let* _ := lift (AdoptChildren (addr_of root) importRoot) in
          let* _ := lift (ImportSymbols (addr_of root) importRoot) in
          ret None
      end
  end.

(** [Analyzer.handlePreprocessToken] *)
Definition handlePreprocessToken (t : Token) (root : NodeRef)
  : M astate (option error) :=
  let* r := expectOp OpString in
  match r with
  | Failed err => ret (Some err)
  | Got nextToken =>
      if decide (Value t = "import") then importFile (Value nextToken) root
      else ret None
  end.

(** [Analyzer.handleToken] *)
Definition handleToken (t : Token) (root : NodeRef)
  : M astate (option error) :=
  match Op t with
  | OpPreprocess => handlePreprocessToken t root
  | OpIdentifier => handleIdentifierToken t root
  | _ => ret (Some (Errorf filename (Row t) (Col t) "Invalid token" (Raw t)))
  end.

(** The [for t != nil] loop of [Analyze]. *)
Fixpoint Analyze_loop (fuel : nat) (root : NodeRef)
  : M astate (option error) :=
  match fuel with
  | O => fun _ => Diverge
  | S fuel' =>
      let* t := Dequeue in
      match t with
      | None => ret None
      | Some t =>
          match Error t with
          | Some err => ret (Some err)
          | None =>
              let* e := handleToken t root in
              match e with
              | Some err => ret (Some err)
              | None => Analyze_loop fuel' root
              end
          end
      end
  end.

End Analyzer.

Section Analyze.

Variable hasUnicode : string -> string -> bool.
Variable import_path : string -> string -> string.
Variable read_file : string -> option string.

(** The body of [Analyzer.Analyze], given the analysis of imported files.
    The deferred [fmt.Println] of the file name is not modelled. *)
Definition Analyze_body
    (Analyze_import : Analyzer -> M heap (option NodeRef * option error))
    (a : Analyzer) : M heap (option NodeRef * option error) :=
  match a_t a with
  | None => ret (None, Some ErrUninitialized)
  | Some data =>
      let* root := NewNode None in
      match Tokenize data with
      | (_, Some err) => ret (Some root, Some err)
      | (tokens, None) =>
          fun h =>
            match Analyze_loop hasUnicode import_path read_file
                    (a_filename a) Analyze_import (S (length tokens)) root
                    (mkA tokens h) with
            | Ok e st => Ok (Some root, e) (hp st)
            | Panic p => Panic p
            | Diverge => Diverge
            end
      end
  end.

(** [Analyzer.Analyze]; [depth] bounds the nesting of imports, which the
    Go code leaves unbounded. *)
Fixpoint Analyze (depth : nat) (a : Analyzer)
  : M heap (option NodeRef * option error) :=
  match depth with
  | O => fun _ => Diverge
  | S depth' => Analyze_body (Analyze depth') a
  end.

End Analyze.

(** * Properties *)

(** ** The heap *)

Lemma node_at_set_node_eq a x h : node_at (set_node a x h) a = x.
Proof. unfold node_at, set_node; simpl. apply lookup_total_insert_eq. Qed.

Lemma node_at_set_node_ne a b x h :
  a ≠ b -> node_at (set_node a x h) b = node_at h b.
Proof.
  intros Hne. unfold node_at, set_node; simpl.
  by apply lookup_total_insert_ne.
Qed.

Lemma node_at_set_sym p y h a : node_at (set_sym p y h) a = node_at h a.
Proof. reflexivity. Qed.

Lemma sym_at_set_node a x h p : sym_at (set_node a x h) p = sym_at h p.
Proof. reflexivity. Qed.

Lemma sym_at_set_sym_eq p y h : sym_at (set_sym p y h) p = y.
Proof. unfold sym_at, set_sym; simpl. apply lookup_total_insert_eq. Qed.

Lemma sym_at_set_sym_ne p q y h :
  p ≠ q -> sym_at (set_sym p y h) q = sym_at h q.
Proof.
  intros Hne. unfold sym_at, set_sym; simpl.
  by apply lookup_total_insert_ne.
Qed.

(** ** [AddSymbol] *)

(** The three conditions under which [AddSymbol] panics; only the table of
    the node itself is looked at. *)
Definition AddSymbol_rejects (n : addr) (s : option sym_ptr) (h : heap)
  : Prop :=
  match s with
  | None => True
  | Some q =>
      sValue (sym_at h q) = EmptyString
      ∨ is_Some (symbols (node_at h n) !! sValue (sym_at h q))
  end.

(** [anc] is a proper ancestor of [n]: it is reached from [n] by following
    parent links. *)
Inductive ancestor (h : heap) : addr -> addr -> Prop :=
| ancestor_parent n p :
    parent (node_at h n) = Some p -> ancestor h n (addr_of p)
| ancestor_step n p a :
    parent (node_at h n) = Some p -> ancestor h (addr_of p) a ->
    ancestor h n a.

(** What a successful [AddSymbol n (Some q)] leaves. *)
Definition added (n : addr) (q : sym_ptr) (h : heap) : heap :=
  let y := sym_at h q in
  let h1 := set_sym q (mkSymbol (sValue y) (Some (Generic n)) (sNode y)) h in
  let x := node_at h1 n in
  set_node n (mkNode (parent x) (owner x) (children x)
                (<[sValue y := q]> (symbols x))) h1.

Lemma AddSymbol_ok n q h :
  sValue (sym_at h q) ≠ EmptyString ->
  symbols (node_at h n) !! sValue (sym_at h q) = None ->
  AddSymbol n (Some q) h = Ok tt (added n q h).
Proof.
  intros Hv Hfree. unfold AddSymbol.
  destruct (decide (sValue (sym_at h q) = EmptyString)) as [E|_]; [done|].
  by rewrite Hfree.
Qed.

Lemma AddSymbol_panics n s h :
  AddSymbol_rejects n s h -> ∃ p, AddSymbol n s h = Panic p.
Proof.
  destruct s as [q|]; simpl; [|by eexists].
  intros [E|[x Hx]]; unfold AddSymbol.
  - destruct (decide _); [by eexists|done].
  - destruct (decide _); [by eexists|]. rewrite Hx. by eexists.
Qed.

Lemma AddSymbol_inv n s h :
  match AddSymbol n s h with
  | Ok _ h' =>
      ∃ q, s = Some q ∧ sValue (sym_at h q) ≠ EmptyString
           ∧ symbols (node_at h n) !! sValue (sym_at h q) = None
           ∧ h' = added n q h
  | Panic _ => AddSymbol_rejects n s h
  | Diverge => False
  end.
Proof.
  unfold AddSymbol. destruct s as [q|]; simpl; [|done].
  destruct (decide _) as [E|E]; [by left|].
  destruct (symbols (node_at h n) !! sValue (sym_at h q)) eqn:Hl.
  - right. by eexists.
  - exists q. by rewrite Hl.
Qed.

Lemma added_table n q h :
  symbols (node_at (added n q h) n)
  = <[sValue (sym_at h q) := q]> (symbols (node_at h n)).
Proof. unfold added. by rewrite node_at_set_node_eq, node_at_set_sym. Qed.

Lemma added_node_other n q h a :
  a ≠ n -> node_at (added n q h) a = node_at h a.
Proof.
  intros Hne. unfold added.
  by rewrite node_at_set_node_ne, node_at_set_sym.
Qed.

Lemma added_sym n q h :
  sym_at (added n q h) q
  = mkSymbol (sValue (sym_at h q)) (Some (Generic n)) (sNode (sym_at h q)).
Proof. unfold added. by rewrite sym_at_set_node, sym_at_set_sym_eq. Qed.

Lemma added_sym_other n q h p :
  p ≠ q -> sym_at (added n q h) p = sym_at h p.
Proof.
  intros Hne. unfold added.
  by rewrite sym_at_set_node, sym_at_set_sym_ne.
Qed.

Lemma added_sValue n q h p :
  sValue (sym_at (added n q h) p) = sValue (sym_at h p).
Proof.
  destruct (decide (p = q)) as [->|Hne].
  - by rewrite added_sym.
  - by rewrite added_sym_other.
Qed.

(** C6.  [AddSymbol] on a node [n] panics exactly when the symbol is nil, or
    its name is empty, or a symbol of that name is already in the table of
    [n] itself.  Otherwise it returns: the symbol is then in the table of [n]
    under its name, its scope is [n], its name and node are as they were, and
    the other entries of the table are untouched.  A symbol of the same name
    in the table of an ancestor of [n] does not make it panic. *)
Theorem AddSymbol_fails_exactly (n : addr) (s : option sym_ptr) (h : heap) :
  ((∃ p, AddSymbol n s h = Panic p) ↔ AddSymbol_rejects n s h)
  ∧ (¬ AddSymbol_rejects n s h ->
     ∃ q h', s = Some q ∧ AddSymbol n s h = Ok tt h'
       ∧ symbols (node_at h' n) !! sValue (sym_at h q) = Some q
       ∧ sym_at h' q = mkSymbol (sValue (sym_at h q)) (Some (Generic n))
                         (sNode (sym_at h q))
       ∧ ∀ k, k ≠ sValue (sym_at h q) ->
              symbols (node_at h' n) !! k = symbols (node_at h n) !! k)
  ∧ (∀ q anc q',
       s = Some q -> sValue (sym_at h q) ≠ EmptyString ->
       symbols (node_at h n) !! sValue (sym_at h q) = None ->
       ancestor h n anc ->
       symbols (node_at h anc) !! sValue (sym_at h q) = Some q' ->
       ∃ h', AddSymbol n s h = Ok tt h'
             ∧ symbols (node_at h' n) !! sValue (sym_at h q) = Some q).
Proof.
  split; [|split].
  - split; [|apply AddSymbol_panics].
    intros [p Hp]. pose proof (AddSymbol_inv n s h) as Hinv.
    by rewrite Hp in Hinv.
  - intros Hrej. pose proof (AddSymbol_inv n s h) as Hinv.
    destruct (AddSymbol n s h) as [[] h'| |]; [|done..].
    destruct Hinv as (q & -> & Hv & Hfree & ->).
    exists q, (added n q h). split; [done|]. split; [done|].
    rewrite added_table, added_sym. split; [apply lookup_insert_eq|].
    split; [done|]. intros k Hk. by rewrite lookup_insert_ne.
  - intros q anc q' -> Hv Hfree _ _. exists (added n q h).
    split; [by apply AddSymbol_ok|].
    rewrite added_table. apply lookup_insert_eq.
Qed.

(** ** [FindSymbol] with [create = true] *)

(** The search for [v] from [n] finds nothing: [v] is in no table from [n]
    up to [top], the ancestor without a parent, [d] parent links above. *)
Inductive exhausts (h : heap) (v : string) : addr -> addr -> nat -> Prop :=
| exhausts_top n :
    symbols (node_at h n) !! v = None ->
    parent (node_at h n) = None ->
    exhausts h v n n O
| exhausts_up n p top d :
    symbols (node_at h n) !! v = None ->
    parent (node_at h n) = Some p ->
    exhausts h v (addr_of p) top d ->
    exhausts h v n top (S d).

Lemma exhausts_top_table h v n top d :
  exhausts h v n top d ->
  symbols (node_at h top) !! v = None ∧ parent (node_at h top) = None.
Proof. induction 1; auto. Qed.

(** A failed search that may create hands the creation up the chain: it is
    the topmost node that creates the symbol. *)
Lemma FindSymbol_rec_creates_at_top h v n top d :
  exhausts h v n top d ->
  ∀ fuel, (d < fuel)%nat ->
  FindSymbol_rec fuel n v true h
  = (let* sym := CreateSymbol top v (owner (node_at h top)) in
     ret (Some sym)) h.
Proof.
  induction 1 as [n Ht Hp|n p top d Ht Hp Hup IH]; intros fuel Hfuel;
    (destruct fuel as [|fuel]; [lia|]); simpl; unfold bind, get, ret;
    rewrite Ht, Hp.
  - reflexivity.
  - rewrite IH by lia. unfold bind, ret.
    destruct (CreateSymbol top v (owner (node_at h top)) h) as [sym h'| |];
      reflexivity.
Qed.

Lemma CreateSymbol_fresh n v o h :
  v ≠ EmptyString ->
  symbols (node_at h n) !! v = None ->
  ∃ h', CreateSymbol n v o h = Ok (next_sym h) h'
        ∧ symbols (node_at h' n) !! v = Some (next_sym h)
        ∧ sym_at h' (next_sym h) = mkSymbol v (Some (Generic n)) o
        ∧ (∀ a, a ≠ n -> node_at h' a = node_at h a)
        ∧ (∀ k, k ≠ v ->
                symbols (node_at h' n) !! k = symbols (node_at h n) !! k).
Proof.
  intros Hv Hfree. unfold CreateSymbol, bind, alloc_sym, ret.
  set (h0 := mkHeap _ _ _ _ _).
  assert (Hs : sym_at h0 (next_sym h) = mkSymbol v None o)
    by (unfold sym_at, h0; simpl; apply lookup_total_insert_eq).
  assert (Hn : ∀ a, node_at h0 a = node_at h a) by reflexivity.
  assert (Hadd : AddSymbol n (Some (next_sym h)) h0
                 = Ok tt (added n (next_sym h) h0)).
  { apply AddSymbol_ok; rewrite Hs; simpl; [done|by rewrite Hn]. }
  rewrite Hadd. eexists; split; [reflexivity|].
  rewrite added_table, added_sym, Hs, Hn; simpl.
  split; [apply lookup_insert_eq|]. split; [done|]. split.
  - intros a Ha. by rewrite added_node_other.
  - intros k Hk. by rewrite lookup_insert_ne.
Qed.

(** The same for [FindSymbol], whose recursion is deep enough for a chain
    no longer than the number of nodes allocated. *)
Lemma FindSymbol_create_exhausted h v n top d :
  exhausts h v n top d ->
  (d <= next_node h)%nat ->
  v ≠ EmptyString ->
  ∃ h', FindSymbol n v true h = Ok (Some (next_sym h)) h'
        ∧ symbols (node_at h' top) !! v = Some (next_sym h)
        ∧ sym_at h' (next_sym h)
          = mkSymbol v (Some (Generic top)) (owner (node_at h top))
        ∧ (∀ a, a ≠ top -> node_at h' a = node_at h a).
Proof.
  intros Hex Hd Hv. unfold FindSymbol.
  rewrite (FindSymbol_rec_creates_at_top h v n top d Hex) by lia.
  destruct (exhausts_top_table _ _ _ _ _ Hex) as [Ht _].
  destruct (CreateSymbol_fresh top v (owner (node_at h top)) h Hv Ht)
    as (h' & Hc & Htab & Hsym & Hframe & _).
  exists h'. unfold bind. rewrite Hc. by unfold ret.
Qed.

(** C1, as the code has it.  When [FindSymbol n v true] finds [v] (not empty)
    in no table from [n] up to the topmost ancestor [top], the new symbol is
    put in the table of [top], not in the table of [n] unless [n] is [top]:
    every other node, [n] included when it has a parent, is left as it was.
    The scope of the new symbol is [top] and its node is the owner of [top],
    which is nil for a root made by [NewNode].  The chain from [n] to [top]
    is taken to be no longer than the number of nodes allocated, as it is in
    a heap whose parent links have no cycle. *)
Theorem FindSymbol_creates_in_topmost_ancestor
    (h : heap) (v : string) (n top : addr) (d : nat) :
  exhausts h v n top d ->
  (d <= next_node h)%nat ->
  v ≠ EmptyString ->
  ∃ h', FindSymbol n v true h = Ok (Some (next_sym h)) h'
        ∧ symbols (node_at h' top) !! v = Some (next_sym h)
        ∧ sym_at h' (next_sym h)
          = mkSymbol v (Some (Generic top)) (owner (node_at h top))
        ∧ (∀ a, a ≠ top -> node_at h' a = node_at h a).
Proof. apply FindSymbol_create_exhausted. Qed.

(** A root made by [NewNode(nil)] with one class node under it. *)
Definition root_with_class : heap :=
  match (let* r := NewNode None in NewClassNode (Some r)) empty_heap with
  | Ok _ h => h
  | _ => empty_heap
  end.

Lemma FindSymbol_creates_in_topmost_ancestor_witness :
  ∃ h', FindSymbol 1%nat "T" true root_with_class = Ok (Some O) h'
        ∧ symbols (node_at h' O) !! "T" = Some O
        ∧ sym_at h' O = mkSymbol "T" (Some (Generic O)) None
        ∧ (∀ a, a ≠ O -> node_at h' a = node_at root_with_class a).
Proof.
  apply (FindSymbol_creates_in_topmost_ancestor root_with_class "T"
           1%nat O 1%nat).
  - apply (exhausts_up _ _ 1%nat (Generic O) O O);
      [reflexivity|reflexivity|].
    apply exhausts_top; reflexivity.
  - vm_compute. lia.
  - discriminate.
Defined.

(** C1 as stated fails: a search that starts at the class node and finds
    nothing leaves the table of the class node without the name and puts the
    new symbol in the table of the root. *)
Lemma FindSymbol_create_not_in_start_node :
  ∃ h', FindSymbol 1%nat "T" true root_with_class = Ok (Some O) h'
        ∧ parent (node_at root_with_class 1%nat) = Some (Generic O)
        ∧ symbols (node_at h' 1%nat) !! "T" = None
        ∧ symbols (node_at h' O) !! "T" = Some O
        ∧ sScope (sym_at h' O) = Some (Generic O).
Proof. eexists. split; [vm_compute; reflexivity|]. by vm_compute. Qed.

(** ** [ImportSymbols] *)


(** The first symbol of [order] whose name is [k]. *)
Fixpoint first_named (h : heap) (k : string) (order : list sym_ptr)
  : option sym_ptr :=
  match order with
  | [] => None
  | p :: order' =>
      if decide (sValue (sym_at h p) = k) then Some p
      else first_named h k order'
  end.

Lemma first_named_ext h h' k order :
  (∀ p, sValue (sym_at h' p) = sValue (sym_at h p)) ->
  first_named h' k order = first_named h k order.
Proof.
  intros Hv. induction order as [|p order IH]; simpl; [done|].
  by rewrite Hv, IH.
Qed.



(** One pass of the loop: [AddSymbol] under [recover]. *)
Definition import_one (n : addr) (sym : sym_ptr) (h : heap) : heap :=
  match AddSymbol n (Some sym) h with
  | Ok _ h' => h'
  | _ => h
  end.

Lemma import_one_cases n p h :
  (sValue (sym_at h p) ≠ EmptyString
   ∧ symbols (node_at h n) !! sValue (sym_at h p) = None
   ∧ import_one n p h = added n p h)
  ∨ ((sValue (sym_at h p) = EmptyString
      ∨ is_Some (symbols (node_at h n) !! sValue (sym_at h p)))
     ∧ import_one n p h = h).
Proof.
  unfold import_one. pose proof (AddSymbol_inv n (Some p) h) as Hinv.
  destruct (AddSymbol n (Some p) h) as [[] h'| |]; [|by right|done].
  destruct Hinv as (q & [= <-] & Hv & Hfree & ->). by left.
Qed.

Lemma ImportSymbols_loop_step n p order h :
  ImportSymbols_loop n (p :: order) h
  = ImportSymbols_loop n order (import_one n p h).
Proof.
  cbn [ImportSymbols_loop]. unfold bind, import_one.
  pose proof (AddSymbol_inv n (Some p) h) as Hinv.
  destruct (AddSymbol n (Some p) h) as [[] h'| |]; done.
Qed.

(** The loop always returns.  Names are not changed; an entry of the table
    of [n] stays; a name that was free is taken by the first symbol of
    [order] that carries it; a symbol whose scope is [n] keeps that scope,
    and a symbol that has been added has scope [n]. *)
Lemma ImportSymbols_loop_spec n order :
  ∀ h, ∃ h',
    ImportSymbols_loop n order h = Ok tt h'
    ∧ (∀ p, sValue (sym_at h' p) = sValue (sym_at h p))
    ∧ (∀ k q, symbols (node_at h n) !! k = Some q ->
              symbols (node_at h' n) !! k = Some q)
    ∧ (∀ k, symbols (node_at h n) !! k = None ->
            symbols (node_at h' n) !! k
            = if decide (k = EmptyString) then None
              else first_named h k order)
    ∧ (∀ p, sScope (sym_at h p) = Some (Generic n) ->
            sScope (sym_at h' p) = Some (Generic n))
    ∧ (∀ k p, symbols (node_at h n) !! k = None ->
              symbols (node_at h' n) !! k = Some p ->
              sScope (sym_at h' p) = Some (Generic n)).
Proof.
  induction order as [|p order IH]; intros h.
  - exists h. simpl. repeat split; try done.
    + intros k ->. by destruct (decide _).
    + intros k p Hk Hk'. congruence.
  - rewrite ImportSymbols_loop_step.
    destruct (IH (import_one n p h))
      as (h' & Hrun & Hval & Hkeep & Hnew & Hscope & Hadded).
    exists h'. split; [done|].
    destruct (import_one_cases n p h) as [(Hv & Hfree & E)|([Hv|Hv] & E)];
      rewrite E in *; clear E.
    + (* the symbol is added *)
      split; [intros q; by rewrite Hval, added_sValue|].
      split.
      { intros k q Hk. apply Hkeep. rewrite added_table.
        rewrite lookup_insert_ne; [done|congruence]. }
      split.
      { intros k Hk. simpl.
        destruct (decide (sValue (sym_at h p) = k)) as [<-|Hne].
        - destruct (decide _) as [|_]; [done|].
          apply Hkeep. rewrite added_table. apply lookup_insert_eq.
        - rewrite Hnew by (rewrite added_table, lookup_insert_ne; done).
          destruct (decide _); [done|].
          apply first_named_ext. intros q. apply added_sValue. }
      split.
      { intros q Hq. apply Hscope.
        destruct (decide (q = p)) as [->|Hne].
        - by rewrite added_sym.
        - by rewrite added_sym_other. }
      intros k q Hk Hk'.
      destruct (decide (sValue (sym_at h p) = k)) as [<-|Hne].
      * assert (symbols (node_at h' n) !! sValue (sym_at h p) = Some p)
          as Hp by (apply Hkeep; rewrite added_table; apply lookup_insert_eq).
        assert (q = p) as -> by congruence.
        apply Hscope. by rewrite added_sym.
      * apply (Hadded k); [|done].
        by rewrite added_table, lookup_insert_ne.
    + (* the name is empty: the panic is swallowed *)
      split; [done|]. split; [done|]. split; [|by split].
      intros k Hk. rewrite Hnew by done. simpl.
      destruct (decide (k = EmptyString)) as [->|Hne]; [done|].
      destruct (decide _) as [Ek|_]; [congruence|done].
    + (* the name is taken: the panic is swallowed *)
      split; [done|]. split; [done|]. split; [|by split].
      intros k Hk. rewrite Hnew by done. simpl.
      destruct (decide (k = EmptyString)) as [->|Hne]; [done|].
      destruct (decide _) as [Ek|_]; [|done].
      destruct Hv as [x Hx]. congruence.
Qed.

Lemma AddChild_each_returns n cs : ∀ h, ∃ h', AddChild_each n cs h = Ok tt h'.
Proof.
  induction cs as [|c cs IH]; intros h; [by eexists|].
  cbn [AddChild_each]. unfold bind at 1.
  unfold AddChild, SetParent, bind, modify. apply IH.
Qed.

Lemma AdoptChildren_returns n other h :
  ∃ h', AdoptChildren n other h = Ok tt h'.
Proof.
  unfold AdoptChildren, bind at 1.
  destruct (AddChild_each_returns n (Children (addr_of other) h) h)
    as (h1 & H1).
  unfold bind at 1. rewrite H1. unfold ClearChildren, modify. by eexists.
Qed.



(** ** Strings *)

Lemma app_String c (p r : string) :
  (String c p ++ r)%string = String c (p ++ r)%string.
Proof. reflexivity. Qed.

Lemma app_Empty (r : string) : (EmptyString ++ r)%string = r.
Proof. reflexivity. Qed.

Ltac app_simpl := rewrite ?app_String, ?app_Empty in *.

(** ** The lexer: identifiers *)

Fixpoint all_chars (f : ascii -> bool) (s : string) : bool :=
  match s with
  | EmptyString => true
  | String c s' => (f c && all_chars f s')%bool
  end.

(** The shape of an identifier as the pattern has it: an optional [-], a
    letter, a digit or an underscore, then letters, digits, underscores and
    dots. *)
Definition ident_shape (s : string) : bool :=
  let body (t : string) :=
    match t with
    | String c p => (is_ident_start c && all_chars is_ident_char p)%bool
    | EmptyString => false
    end in
  match s with
  | String c t => if (c =? "-")%char then body t else body s
  | EmptyString => false
  end.

(** The shape of an identifier as the specification words it: it starts
    with a letter or an underscore, or with a leading [-], and goes on with
    letters, digits, underscores and dots. *)
Definition spec_ident_shape (s : string) : bool :=
  match s with
  | String c p =>
      ((is_letter c || (c =? "_")%char || (c =? "-")%char)
       && all_chars is_ident_char p)%bool
  | EmptyString => false
  end.

Lemma span_all f s : all_chars f (fst (span f s)) = true.
Proof.
  induction s as [|c s IH]; simpl; [done|].
  destruct (f c) eqn:E; [|done].
  destruct (span f s) as [p r]. simpl in *. by rewrite E, IH.
Qed.

(** A greedy run is maximal: what follows it does not start with a character
    of the class. *)
Lemma span_maximal f s :
  match snd (span f s) with
  | String c _ => f c = false
  | EmptyString => True
  end.
Proof.
  induction s as [|c s IH]; simpl; [done|].
  destruct (f c) eqn:E; [|done].
  by destruct (span f s) as [p r].
Qed.

Lemma ident_start_not_sign c : is_ident_start c = true -> (c =? "-")%char = false.
Proof.
  destruct c as [[] [] [] [] [] [] [] []]; vm_compute; congruence.
Qed.

(** No alternative before [identifier] can match where an identifier can
    start. *)
Lemma ident_start_no_earlier_alt c s :
  is_ident_start c = true ∨ (c =? "-")%char = true ->
  alt_whitespace (String c s) = None ∧ alt_terminator (String c s) = None
  ∧ alt_string (String c s) = None ∧ alt_comment (String c s) = None.
Proof.
  intros H.
  assert (is_space c = false ∧ (c =? ";")%char = false
          ∧ (c =? dquote)%char = false ∧ (c =? "/")%char = false)
    as (Hs & Ht & Hq & Hc).
  { destruct c as [[] [] [] [] [] [] [] []]; vm_compute in H |- *;
      destruct H; try discriminate; by repeat split. }
  unfold alt_whitespace, alt_terminator, alt_string, alt_comment; simpl.
  by rewrite Hs, Ht, Hq, Hc.
Qed.

Lemma ident_body_inv sign t m r :
  ident_body sign t = Some (m, r) ->
  ∃ c t', t = String c t' ∧ is_ident_start c = true
          ∧ m = mkMatch OpIdentifier
                  (sign ++ String c (fst (span is_ident_char t')))
                  (sign ++ String c (fst (span is_ident_char t')))
          ∧ r = snd (span is_ident_char t').
Proof.
  unfold ident_body. destruct t as [|c t']; [done|].
  destruct (is_ident_start c) eqn:E; [|done].
  destruct (span is_ident_char t') as [p rest] eqn:Es.
  intros [= <- <-]. exists c, t'. by rewrite Es.
Qed.

Lemma alt_identifier_shape s m r :
  alt_identifier s = Some (m, r) ->
  m_group m = OpIdentifier ∧ ident_shape (m_captured m) = true
  ∧ m_matched m = m_captured m.
Proof.
  unfold alt_identifier. destruct s as [|c t]; [done|].
  assert (Hplain : ident_body EmptyString (String c t) = Some (m, r) ->
            m_group m = OpIdentifier ∧ ident_shape (m_captured m) = true
            ∧ m_matched m = m_captured m).
  { intros (c' & t' & [= <- <-] & Hc & -> & _)%ident_body_inv. simpl.
    by rewrite (ident_start_not_sign c Hc), Hc, span_all. }
  destruct (c =? "-")%char eqn:Ec; [|done].
  destruct (ident_body "-" t) as [[m' r']|] eqn:Eb; [|done].
  intros [= -> ->].
  apply ident_body_inv in Eb as (c' & t' & -> & Hc & -> & _). simpl.
  by rewrite Hc, span_all.
Qed.

Lemma match_here_identifier s m r :
  match_here s = Some (m, r) -> m_group m = OpIdentifier ->
  ident_shape (m_captured m) = true ∧ m_matched m = m_captured m.
Proof.
  unfold match_here, pattern, first_alt.
  destruct (alt_whitespace s) as [[m0 r0]|] eqn:E1.
  { intros [= <- <-]. unfold alt_whitespace in E1.
    destruct (span is_space s) as [[|? ?] ?]; [done|].
    by injection E1 as <- <-. }
  destruct (alt_terminator s) as [[m0 r0]|] eqn:E2.
  { intros [= <- <-]. unfold alt_terminator in E2.
    destruct s as [|c ?]; [done|]. destruct (c =? ";")%char; [|done].
    by injection E2 as <- <-. }
  destruct (alt_string s) as [[m0 r0]|] eqn:E3.
  { intros [= <- <-]. unfold alt_string in E3.
    destruct s as [|q [|c s']]; try done;
      destruct (negb (q =? dquote)%char); try done.
    destruct (is_newline c); [done|].
    destruct (lazy_to_quote s') as [[? ?]|]; [|done].
    by injection E3 as <- <-. }
  destruct (alt_comment s) as [[m0 r0]|] eqn:E4.
  { intros [= <- <-]. unfold alt_comment in E4.
    destruct s as [|a [|b s']]; try done;
      destruct (negb (a =? "/")%char); try done.
    destruct (negb (b =? "/")%char); [done|].
    destruct (span _ s') as [? ?]. by injection E4 as <- <-. }
  destruct (alt_identifier s) as [[m0 r0]|] eqn:E5.
  { intros [= <- <-] _. by apply alt_identifier_shape in E5 as (_ & ? & ?). }
  destruct (alt_namespace s) as [[m0 r0]|] eqn:E6.
  { intros [= <- <-]. unfold alt_namespace in E6.
    destruct s as [|a [|b s']]; try done;
      destruct (negb (a =? ":")%char); try done.
    destruct (negb (b =? ":")%char); [done|]. by injection E6 as <- <-. }
  destruct (alt_preprocess s) as [[m0 r0]|] eqn:E7.
  { intros [= <- <-]. unfold alt_preprocess in E7.
    destruct s as [|c s']; [done|]. destruct (negb (c =? "#")%char); [done|].
    destruct (span is_letter s') as [? ?]. by injection E7 as <- <-. }
  destruct (alt_operator s) as [[m0 r0]|] eqn:E8.
  { intros [= <- <-]. unfold alt_operator in E8.
    destruct s as [|c s']; [done|]. destruct (is_operator c); [|done].
    by injection E8 as <- <-. }
  destruct (alt_invalid s) as [[m0 r0]|] eqn:E9; [|done].
  intros [= <- <-]. unfold alt_invalid in E9.
  destruct (span _ s) as [[|? ?] ?]; [done|]. by injection E9 as <- <-.
Qed.

Lemma find_all_from_match fuel s m :
  m ∈ find_all fuel s -> ∃ s' r, match_here s' = Some (m, r).
Proof.
  revert s. induction fuel as [|fuel IH]; intros s; simpl.
  - by intros ?%elem_of_nil.
  - destruct (match_here s) as [[m0 r0]|] eqn:E; [|by intros ?%elem_of_nil].
    intros [->|Hin]%elem_of_cons; [by eauto|by eapply IH].
Qed.

(** A token of the queue was in it before the loop, or is made from one of
    the matches: its classification is the group, its value the capture and
    its raw text the match. *)
Lemma tokenize_loop_tokens ms :
  ∀ row col q t,
    t ∈ fst (tokenize_loop ms row col q) ->
    t ∈ q ∨ ∃ m, m ∈ ms ∧ Op t = m_group m ∧ Value t = m_captured m
                 ∧ Raw t = m_matched m.
Proof.
  induction ms as [|m ms IH]; intros row col q t; simpl; [by left|].
  destruct (countRunes (m_matched m)) as [[rows cols] [err|]]; simpl;
    [by left|].
  assert (Hrest : ∀ q', t ∈ fst (tokenize_loop ms (row + rows)
                               (if 0 <? rows then cols else col + cols) q') ->
            (t ∈ q' -> t ∈ q ∨ ∃ m0, m0 ∈ m :: ms ∧ Op t = m_group m0
                          ∧ Value t = m_captured m0 ∧ Raw t = m_matched m0) ->
            t ∈ q ∨ ∃ m0, m0 ∈ m :: ms ∧ Op t = m_group m0
                          ∧ Value t = m_captured m0 ∧ Raw t = m_matched m0).
  { intros q' Hin Hq'. apply IH in Hin as [Hin|(m0 & Hm0 & ?)]; [auto|].
    right. exists m0. split; [by right|done]. }
  assert (Hpush : ∀ t' : Z,
            t ∈ (q ++ [mkToken (m_group m)
                         (OpCode_String (m_group m)) (m_captured m)
                         (m_matched m) (row + rows) t' None])%list ->
            t ∈ q ∨ ∃ m0, m0 ∈ m :: ms ∧ Op t = m_group m0
                          ∧ Value t = m_captured m0 ∧ Raw t = m_matched m0).
  { intros t' [Hin|Hin%list_elem_of_singleton]%elem_of_app; [by left|].
    right. exists m. subst t. split; [by left|done]. }
  destruct (m_group m) eqn:Eg; intros Hin;
    first [ by apply (Hrest q Hin); auto
          | by eapply Hrest; [exact Hin|apply Hpush] ].
Qed.

(** Where the input starts with an optional [-] and a letter, a digit or
    an underscore, the match is the identifier that takes the whole run of
    letters, digits, underscores and dots that follows. *)
Lemma match_here_at_identifier sign c s :
  sign = EmptyString ∨ sign = "-" ->
  is_ident_start c = true ->
  match_here (sign ++ String c s)
  = Some (mkMatch OpIdentifier
            (sign ++ String c (fst (span is_ident_char s)))
            (sign ++ String c (fst (span is_ident_char s))),
          snd (span is_ident_char s)).
Proof.
  intros Hsign Hc. unfold match_here, pattern, first_alt.
  destruct Hsign as [-> | ->].
  + change (EmptyString ++ String c s)%string with (String c s).
    destruct (ident_start_no_earlier_alt c s (or_introl Hc))
      as (-> & -> & -> & ->).
    unfold alt_identifier. rewrite (ident_start_not_sign c Hc).
    unfold ident_body. rewrite Hc.
    by destruct (span is_ident_char s).
  + change ("-" ++ String c s)%string with (String "-" (String c s)).
    destruct (ident_start_no_earlier_alt "-" (String c s)
                (or_intror eq_refl)) as (-> & -> & -> & ->).
    unfold alt_identifier, ident_body.
    change ("-" =? "-")%char with true. cbv iota. rewrite Hc.
    by destruct (span is_ident_char s).
Qed.

(** C8, as the code has it.  A token classified as an identifier is the whole
    match, and it is an optional [-], then a letter, a digit or an
    underscore, then only letters, digits, underscores and dots.  Conversely,
    where a match starts with an optional [-] followed by a letter, a digit
    or an underscore, the match is an identifier, and it is the longest: the
    run of letters, digits, underscores and dots that follows is taken
    whole. *)
Theorem identifier_tokens_shape (data : string) (t : Token) :
  t ∈ fst (Tokenize data) ->
  Op t = OpIdentifier ->
  (ident_shape (Value t) = true ∧ Raw t = Value t)
  ∧ (∀ sign c s,
       sign = EmptyString ∨ sign = "-" ->
       is_ident_start c = true ->
       match_here (sign ++ String c s)
       = Some (mkMatch OpIdentifier
                 (sign ++ String c (fst (span is_ident_char s)))
                 (sign ++ String c (fst (span is_ident_char s))),
               snd (span is_ident_char s))
         ∧ match snd (span is_ident_char s) with
           | String c' _ => is_ident_char c' = false
           | EmptyString => True
           end).
Proof.
  intros Hin Hop. split.
  - unfold Tokenize in Hin.
    apply tokenize_loop_tokens in Hin as [Hin|(m & Hm & Hg & Hv & Hr)];
      [by apply elem_of_nil in Hin|].
    apply find_all_from_match in Hm as (s' & r & Hm).
    rewrite Hv, Hr. apply (match_here_identifier s' m r Hm). congruence.
  - intros sign c s Hsign Hc. split; [|apply span_maximal].
    by apply match_here_at_identifier.
Qed.

Lemma identifier_tokens_shape_witness :
  (ident_shape "-a1.b" = true ∧ "-a1.b" = "-a1.b")
  ∧ (∀ sign c s,
       sign = EmptyString ∨ sign = "-" ->
       is_ident_start c = true ->
       match_here (sign ++ String c s)
       = Some (mkMatch OpIdentifier
                 (sign ++ String c (fst (span is_ident_char s)))
                 (sign ++ String c (fst (span is_ident_char s))),
               snd (span is_ident_char s))
         ∧ match snd (span is_ident_char s) with
           | String c' _ => is_ident_char c' = false
           | EmptyString => True
           end).
Proof.
  apply (identifier_tokens_shape "x -a1.b;"
           (mkToken OpIdentifier "identifier" "-a1.b" "-a1.b" 1 8 None)).
  - vm_compute. right. left.
  - reflexivity.
Defined.

(** C8 as stated fails both ways: [1] is classified as an identifier and
    starts with a digit, and [-], which has the shape the claim words, is
    classified as invalid although no alternative of higher priority
    matches it. *)
Lemma identifier_may_start_with_digit :
  map (fun t => (Op t, Value t)) (fst (Tokenize "1")) = [(OpIdentifier, "1")]
  ∧ spec_ident_shape "1" = false
  ∧ spec_ident_shape "-" = true
  ∧ map (fun t => (Op t, Value t)) (fst (Tokenize "-")) = [(OpInvalid, "-")].
Proof. repeat split; vm_compute; reflexivity. Qed.

(** ** The lexer: positions *)

Definition line_feed : string := String "010" EmptyString.

(** A character of an identifier is one ASCII byte, and not a line feed. *)
Lemma DecodeRune_ident_char c s :
  is_ident_char c = true ∨ (c =? "-")%char = true ->
  utf8.DecodeRune (String c s) = (byte_val c, 1%nat)
  ∧ (byte_val c =? 10) = false ∧ (byte_val c =? utf8.RuneError) = false.
Proof.
  intros H.
  destruct c as [[] [] [] [] [] [] [] []]; vm_compute in H;
    destruct H; try discriminate; by vm_compute.
Qed.

Lemma countRunes_loop_ident p :
  ∀ fuel rows cols,
    all_chars (fun c => is_ident_char c || (c =? "-")%char)%bool p = true ->
    (String.length p <= fuel)%nat ->
    countRunes_loop fuel p rows cols
    = (rows, cols + Z.of_nat (String.length p), None).
Proof.
  induction p as [|c p IH]; intros fuel rows cols Hall Hfuel.
  - destruct fuel; simpl; do 2 f_equal; lia.
  - destruct fuel as [|fuel]; [simpl in Hfuel; lia|].
    cbn [all_chars] in Hall. apply andb_true_iff in Hall as [Hc Hall].
    apply orb_true_iff in Hc.
    destruct (DecodeRune_ident_char c p Hc) as (Hd & Hn & He).
    cbn [countRunes_loop]. rewrite Hd, Hn, He. cbn [drop_bytes].
    rewrite IH; [|done|simpl in Hfuel; lia].
    cbn [String.length]. do 2 f_equal. lia.
Qed.

Lemma all_chars_impl (f g : ascii -> bool) s :
  (∀ c, f c = true -> g c = true) ->
  all_chars f s = true -> all_chars g s = true.
Proof.
  intros Hfg. induction s as [|c s IH]; simpl; [done|].
  intros [Hc Hs]%andb_true_iff. by rewrite (Hfg c Hc), IH.
Qed.

Lemma ident_start_is_ident_char c :
  is_ident_start c = true -> is_ident_char c = true.
Proof.
  unfold is_ident_start, is_ident_char.
  destruct (is_letter c), (c =? "_")%char, (is_digit c); simpl; try done.
  all: by rewrite ?orb_true_r.
Qed.

(** The tokens already in the queue stay at its front. *)
Lemma tokenize_loop_queue ms :
  ∀ row col q,
    fst (tokenize_loop ms row col q)
    = (q ++ fst (tokenize_loop ms row col []))%list.
Proof.
  induction ms as [|m ms IH]; intros row col q; simpl;
    [by rewrite app_nil_r|].
  destruct (countRunes (m_matched m)) as [[rows cols] [err|]]; simpl;
    [by rewrite app_nil_r|].
  destruct (m_group m);
    first [ apply IH
          | rewrite IH; symmetry; rewrite IH; by rewrite app_assoc ].
Qed.

(** C5 fails on the code.  [tokenize] adds the rows and columns of a match
    to its counters before it stamps the token, and after a line feed it
    restarts the column at the count of characters, so [Col] is not the
    column of the first character of the token: [ab] at the very start of
    the input is given column 3, and [cde] after a line feed and three
    spaces is given row 2 and column 6, where its first character stands in
    column 4.  Whatever the input, an identifier that starts it, in row 1
    and column 1, is given the column 1 plus its length. *)
Theorem tokenize_stamps_position_after_token :
  (map (fun t => (Value t, Row t, Col t))
       (fst (Tokenize ("ab" ++ line_feed ++ "   cde")))
   = [("ab", 1, 3); ("cde", 2, 6)]
   ∧ snd (Tokenize ("ab" ++ line_feed ++ "   cde")) = None)
  ∧ ∀ c s,
      is_ident_start c = true ->
      ∃ t q,
        fst (Tokenize (String c s)) = t :: q
        ∧ Op t = OpIdentifier
        ∧ Value t = String c (fst (span is_ident_char s))
        ∧ Row t = 1
        ∧ Col t = 1 + Z.of_nat (String.length (Value t)).
Proof.
  split; [split; vm_compute; reflexivity|].
  intros c s Hc. unfold Tokenize, FindAllSubmatch.
  cbn [String.length find_all].
  pose proof (match_here_at_identifier EmptyString c s (or_introl eq_refl)
                Hc) as Hm.
  rewrite !app_Empty in Hm. rewrite Hm.
  cbn [tokenize_loop m_matched m_group m_captured].
  unfold countRunes. rewrite countRunes_loop_ident; [|cbn [all_chars]|done].
  - replace (0 <? 0) with false by done.
    rewrite tokenize_loop_queue. eexists _, _.
    split; [reflexivity|]. cbn [Op Value Row Col]. repeat split; lia.
  - rewrite (ident_start_is_ident_char c Hc). cbn [orb andb].
    eapply all_chars_impl; [|apply span_all].
    intros x ->. reflexivity.
Qed.

(** ** The analyzer: token primitives *)

(** An environment to run the analyzer in on inputs that are ASCII and
    import nothing: [bytes.EqualFold] is then never asked about a byte that
    is not ASCII, and no file is opened. *)
Definition ascii_fold : string -> string -> bool := fun _ _ => false.
Definition flat_path : string -> string -> string := fun _ name => name.
Definition no_files : string -> option string := fun _ => None.

Section TokenPrimitives.

Variable hasUnicode : string -> string -> bool.
Variable filename : string.

Lemma expectOp_hit op t q h :
  Op t = op -> expectOp filename op (mkA (t :: q) h) = Ok (Got t) (mkA q h).
Proof.
  intros Hop. unfold expectOp, bind, Peek, Dequeue, ret. simpl.
  by rewrite bool_decide_eq_true_2.
Qed.

Lemma expectOp_miss op t q h :
  Op t ≠ op ->
  expectOp filename op (mkA (t :: q) h)
  = Ok (Failed (Errorf filename (Row t) (Col t) "Unexpected token" (Raw t)))
      (mkA (t :: q) h).
Proof.
  intros Hop. unfold expectOp, bind, Peek, ret. simpl.
  by rewrite bool_decide_eq_false_2.
Qed.

Lemma expectOp_eof op h :
  expectOp filename op (mkA [] h)
  = Ok (Failed (Errorf filename (-1) (-1) "EOF" EmptyString)) (mkA [] h).
Proof. reflexivity. Qed.

Lemma optionalOp_hit op t q h :
  Op t = op -> optionalOp op (mkA (t :: q) h) = Ok (Some t) (mkA q h).
Proof.
  intros Hop. unfold optionalOp, bind, Peek, Dequeue, ret. simpl.
  by rewrite bool_decide_eq_true_2.
Qed.

Lemma optionalOp_miss op q h :
  match q with [] => True | t :: _ => Op t ≠ op end ->
  optionalOp op (mkA q h) = Ok None (mkA q h).
Proof.
  intros Hop. unfold optionalOp, bind, Peek, ret. destruct q as [|t q]; simpl;
    [done|]. by rewrite bool_decide_eq_false_2.
Qed.

Lemma optionalToken_hit t1 t2 q h :
  Equal hasUnicode t1 t2 = true ->
  optionalToken hasUnicode t1 (mkA (t2 :: q) h) = Ok (Some t2) (mkA q h).
Proof.
  intros He. unfold optionalToken, bind, Peek, Dequeue, ret. simpl.
  by rewrite He.
Qed.

Lemma optionalToken_miss t1 q h :
  match q with [] => True | t2 :: _ => Equal hasUnicode t1 t2 = false end ->
  optionalToken hasUnicode t1 (mkA q h) = Ok None (mkA q h).
Proof.
  intros He. unfold optionalToken, bind, Peek, ret.
  destruct q as [|t2 q]; simpl; [done|]. by rewrite He.
Qed.

Lemma expectToken_hit t1 t2 q h :
  Equal hasUnicode t1 t2 = true ->
  expectToken hasUnicode filename t1 (mkA (t2 :: q) h)
  = Ok (Got t2) (mkA q h).
Proof.
  intros He. unfold expectToken, bind, Peek, Dequeue, ret. simpl.
  by rewrite He.
Qed.

Lemma Equal_Op t1 t2 : Equal hasUnicode t1 t2 = true -> Op t2 = Op t1.
Proof.
  unfold Equal. intros [H _]%andb_true_iff.
  by apply bool_decide_eq_true in H.
Qed.

End TokenPrimitives.

(** ** Preprocessor directives *)

Section Preprocess.

Variable hasUnicode : string -> string -> bool.
Variable import_path : string -> string -> string.
Variable read_file : string -> option string.
Variable filename : string.
Variable Analyze_import : Analyzer -> M heap (option NodeRef * option error).

(** C7, as the code has it.  Whatever its value, [import] included, a
    preprocessor token must be followed by a string token: at the end of the
    queue the analyzer returns the EOF error, and before any other token the
    unexpected-token error, the queue and the heap left as they were.  When
    a string token follows it is taken; if the value is not exactly
    [import], no file is imported, the heap is left as it was and no error
    is returned; if the value is [import], the string names the file that
    [importFile] imports. *)
Theorem handlePreprocessToken_expects_string
    (t : Token) (root : NodeRef) (st : astate) :
  Op t = OpPreprocess ->
  handleToken hasUnicode import_path read_file filename Analyze_import
    t root st
  = match queue st with
    | [] => Ok (Some (Errorf filename (-1) (-1) "EOF" EmptyString)) st
    | next :: q =>
        if decide (Op next = OpString) then
          if decide (Value t = "import")
          then importFile import_path read_file filename Analyze_import
                 (Value next) root (mkA q (hp st))
          else Ok None (mkA q (hp st))
        else Ok (Some (Errorf filename (Row next) (Col next)
                         "Unexpected token" (Raw next))) st
    end.
Proof.
  intros Hop. unfold handleToken, handlePreprocessToken. rewrite Hop.
  destruct st as [[|next q] h]; unfold bind at 1.
  - rewrite expectOp_eof. reflexivity.
  - cbn [queue hp]. destruct (decide (Op next = OpString)) as [E|E].
    + rewrite expectOp_hit by done.
      by destruct (decide (Value t = "import")).
    + by rewrite expectOp_miss.
Qed.

End Preprocess.

Definition import_token : Token :=
  mkToken OpPreprocess "preprocess" "import" "#import" 1 8 None.

(** An [import] directive before a token that is not a string. *)
Lemma handlePreprocessToken_expects_string_witness :
  handleToken ascii_fold flat_path no_files EmptyString
    (fun _ => ret (None, None)) import_token (Generic O)
    (mkA [mkToken OpIdentifier "identifier" "x" "x" 1 10 None] empty_heap)
  = Ok (Some (ErrAt EmptyString (Some (1, 10)) "Unexpected token" "x"))
      (mkA [mkToken OpIdentifier "identifier" "x" "x" 1 10 None] empty_heap).
Proof.
  apply (handlePreprocessToken_expects_string ascii_fold flat_path no_files
           EmptyString (fun _ => ret (None, None)) import_token (Generic O)
           (mkA [mkToken OpIdentifier "identifier" "x" "x" 1 10 None] empty_heap)).
  reflexivity.
Defined.

(** C7 as stated fails: a directive other than [import] that is not followed
    by a string is not accepted, the analysis ends with the unexpected-token
    error. *)
Lemma directive_without_string_is_an_error :
  ∃ h, Analyze ascii_fold flat_path no_files 1
         (mkAnalyzer (Some "#define x") EmptyString) empty_heap
       = Ok (Some (Generic O),
             Some (ErrAt EmptyString (Some (1, 10)) "Unexpected token" "x")) h.
Proof. eexists. vm_compute. reflexivity. Qed.

(** ** Token equality and keywords *)

Definition is_ascii (s : string) : bool :=
  all_chars (fun c => byte_val c <? utf8.RuneSelf) s.

(** The lower-case form of an ASCII letter. *)
Definition lower (c : ascii) : ascii :=
  if in_range "A" "Z" c then ascii_of_N (N_of_ascii c + 32) else c.

Fixpoint lower_string (s : string) : string :=
  match s with
  | EmptyString => EmptyString
  | String c s' => String (lower c) (lower_string s')
  end.

Definition ascii_chars : list ascii := map ascii_of_nat (seq 0 128).

Lemma ascii_chars_complete c :
  (byte_val c <? utf8.RuneSelf) = true -> c ∈ ascii_chars.
Proof.
  intros H. apply Z.ltb_lt in H. unfold byte_val, utf8.RuneSelf in H.
  rewrite <- (ascii_nat_embedding c). unfold ascii_chars.
  apply list_elem_of_fmap. exists (nat_of_ascii c). split; [done|].
  apply elem_of_seq. unfold nat_of_ascii. lia.
Qed.

Lemma ascii_fold_eq_lower a b :
  (byte_val a <? utf8.RuneSelf) = true ->
  (byte_val b <? utf8.RuneSelf) = true ->
  (utf8.RuneSelf <=? Z.lor (byte_val a) (byte_val b)) = false
  ∧ ascii_fold_eq a b = bool_decide (lower a = lower b).
Proof.
  intros Ha%ascii_chars_complete Hb%ascii_chars_complete.
  assert (Hall : forallb (fun a => forallb (fun b =>
            (negb (utf8.RuneSelf <=? Z.lor (byte_val a) (byte_val b))
             && bool_decide (ascii_fold_eq a b
                             = bool_decide (lower a = lower b)))%bool)
            ascii_chars) ascii_chars = true) by (vm_compute; reflexivity).
  rewrite forallb_forall in Hall.
  apply list_elem_of_In in Ha, Hb.
  specialize (Hall a Ha). rewrite forallb_forall in Hall.
  specialize (Hall b Hb). apply andb_true_iff in Hall as [H1 H2].
  apply negb_true_iff in H1. by apply bool_decide_eq_true in H2.
Qed.

Section Keywords.

Variable hasUnicode : string -> string -> bool.
Variable import_path : string -> string -> string.
Variable read_file : string -> option string.
Variable filename : string.
Variable Analyze_import : Analyzer -> M heap (option NodeRef * option error).

(** On ASCII bytes [bytes.EqualFold] is equality up to the case of
    letters. *)
Lemma EqualFold_ascii s : ∀ t,
  is_ascii s = true -> is_ascii t = true ->
  EqualFold hasUnicode s t = bool_decide (lower_string s = lower_string t).
Proof.
  induction s as [|a s IH]; intros [|b t] Hs Ht; simpl in *; try done.
  apply andb_true_iff in Hs as [Ha Hs], Ht as [Hb Ht].
  destruct (ascii_fold_eq_lower a b Ha Hb) as [-> ->].
  rewrite (IH t Hs Ht).
  destruct (decide (lower a = lower b)) as [E|E].
  - rewrite (bool_decide_eq_true_2 _ E).
    apply bool_decide_ext. rewrite E. split; [by intros ->|].
    by intros [= ->].
  - rewrite (bool_decide_eq_false_2 _ E). symmetry.
    apply bool_decide_eq_false_2. by intros [= ? ?].
Qed.

End Keywords.

(** C9 as stated fails for [class] (and likewise [enum] and [import]): the
    token [CLASS] is equal to the keyword token [class], yet the analyzer,
    which accepts [class K { };], rejects [CLASS K { };] as an invalid
    token; [FLAGS], matched by token equality, is accepted. *)
Lemma class_keyword_is_case_sensitive :
  Equal ascii_fold
    (mkToken OpIdentifier EmptyString "class" EmptyString 0 0 None)
    (mkToken OpIdentifier "identifier" "CLASS" "CLASS" 1 6 None) = true
  ∧ (∃ h, Analyze ascii_fold flat_path no_files 1
            (mkAnalyzer (Some "class K { };") EmptyString) empty_heap
          = Ok (Some (Generic O), None) h)
  ∧ (∃ h, Analyze ascii_fold flat_path no_files 1
            (mkAnalyzer (Some "CLASS K { };") EmptyString) empty_heap
          = Ok (Some (Generic O),
                Some (ErrAt EmptyString (Some (1, 6)) "Invalid token" "CLASS"))
              h)
  ∧ (∃ h, Analyze ascii_fold flat_path no_files 1
            (mkAnalyzer (Some "enum K FLAGS { };") EmptyString) empty_heap
          = Ok (Some (Generic O), None) h).
Proof.
  split; [reflexivity|].
  repeat split; eexists; vm_compute; reflexivity.
Qed.

(** ** Symbol resolution and the concrete nodes *)

(** The heap [h] with the concrete nodes [cs] in place of its own. *)
Definition with_concretes (cs : gmap addr concrete) (h : heap) : heap :=
  mkHeap (nodes h) (syms h) cs (next_node h) (next_sym h).

Definition on_heap {A} (f : heap -> heap) (r : res heap A) : res heap A :=
  match r with
  | Ok a h => Ok a (f h)
  | Panic p => Panic p
  | Diverge => Diverge
  end.

(** A computation that neither reads nor writes the concrete nodes: it
    works on the generic nodes and the symbols only. *)
Definition graph_only {A} (c : M heap A) : Prop :=
  ∀ cs h, c (with_concretes cs h) = on_heap (with_concretes cs) (c h).

Lemma with_concretes_id h : with_concretes (concretes h) h = h.
Proof. by destruct h. Qed.

Lemma graph_only_concretes {A} (c : M heap A) h a h' :
  graph_only c -> c h = Ok a h' -> concretes h' = concretes h.
Proof.
  intros Hc Hrun. specialize (Hc (concretes h) h).
  rewrite with_concretes_id, Hrun in Hc. simpl in Hc.
  injection Hc as ->. reflexivity.
Qed.

Lemma AddSymbol_graph_only n s : graph_only (AddSymbol n s).
Proof.
  intros cs h. unfold AddSymbol. destruct s as [p|]; [|done].
  change (sym_at (with_concretes cs h) p) with (sym_at h p).
  change (node_at (with_concretes cs h) n) with (node_at h n).
  destruct (decide _); [done|].
  by destruct (symbols (node_at h n) !! sValue (sym_at h p)).
Qed.

Lemma graph_only_ret {A} (a : A) : graph_only (ret a).
Proof. done. Qed.

Lemma graph_only_bind {A B} (c : M heap A) (k : A -> M heap B) :
  graph_only c -> (∀ a, graph_only (k a)) -> graph_only (bind c k).
Proof.
  intros Hc Hk cs h. unfold bind. rewrite Hc.
  destruct (c h) as [a h0| |]; simpl; [apply Hk|done..].
Qed.

Lemma alloc_sym_graph_only y : graph_only (alloc_sym y).
Proof. done. Qed.

Lemma CreateSymbol_graph_only n v o : graph_only (CreateSymbol n v o).
Proof.
  unfold CreateSymbol.
  apply graph_only_bind; [apply alloc_sym_graph_only|intros sym].
  apply graph_only_bind; [apply AddSymbol_graph_only|intros _].
  apply graph_only_ret.
Qed.

Lemma FindSymbol_rec_graph_only fuel :
  ∀ n v create, graph_only (FindSymbol_rec fuel n v create).
Proof.
  induction fuel as [|fuel IH]; intros n v create cs h; [done|].
  simpl. unfold bind, get, ret.
  change (node_at (with_concretes cs h) n) with (node_at h n).
  destruct (symbols (node_at h n) !! v); [done|].
  assert (Hcreate : ∀ h0,
            (if create
             then fun s : heap =>
                    match CreateSymbol n v (owner (node_at s n)) s with
                    | Ok a s' => Ok (Some a) s'
                    | Panic p => Panic p
                    | Diverge => Diverge
                    end
             else fun s : heap => Ok None s) (with_concretes cs h0)
            = on_heap (with_concretes cs)
                ((if create
                  then fun s : heap =>
                         match CreateSymbol n v (owner (node_at s n)) s with
                         | Ok a s' => Ok (Some a) s'
                         | Panic p => Panic p
                         | Diverge => Diverge
                         end
                  else fun s : heap => Ok None s) h0)).
  { intros h0. destruct create; [|done].
    change (node_at (with_concretes cs h0) n) with (node_at h0 n).
    rewrite CreateSymbol_graph_only. by destruct (CreateSymbol _ _ _ _). }
  destruct (parent (node_at h n)) as [p|].
  - rewrite IH. destruct (FindSymbol_rec fuel (addr_of p) v create h)
      as [[sym|] h0| |]; simpl; first [done|apply Hcreate].
  - apply Hcreate.
Qed.

Lemma FindSymbol_graph_only n v create : graph_only (FindSymbol n v create).
Proof. intros cs h. unfold FindSymbol. apply FindSymbol_rec_graph_only. Qed.

Lemma FindNestedSymbol_loop_graph_only path :
  ∀ nd sym, graph_only (FindNestedSymbol_loop path nd sym).
Proof.
  induction path as [|v rest IH]; intros nd sym cs h; [done|].
  simpl. destruct nd as [r|]; [|done]. unfold bind.
  rewrite FindSymbol_graph_only.
  destruct (FindSymbol (addr_of r) v (bool_decide (rest = [])) h)
    as [[p|] h0| |]; simpl; try done.
  unfold get. change (sym_at (with_concretes cs h0) p) with (sym_at h0 p).
  apply IH.
Qed.

Lemma FindNestedSymbol_graph_only n path :
  graph_only (FindNestedSymbol n path).
Proof. apply FindNestedSymbol_loop_graph_only. Qed.

(** ** The default chain of a property *)

(** The tokens of a plain or namespaced identifier ([IDENT] or
    [IDENT :: IDENT]) and the identifier tokens among them. *)
Inductive ns_ident : list Token -> list Token -> Prop :=
| ns_plain id :
    Op id = OpIdentifier -> ns_ident [id] [id]
| ns_nested id ns id2 :
    Op id = OpIdentifier -> Op ns = OpNamespace -> Op id2 = OpIdentifier ->
    ns_ident [id; ns; id2] [id; id2].

Definition not_namespace (q : list Token) : Prop :=
  match q with
  | [] => True
  | t :: _ => Op t ≠ OpNamespace
  end.

(** The property [pn] with [ds] as its default list. *)
Definition with_defaults (pn : PropertyNode) (ds : list sym_ptr)
  : PropertyNode :=
  mkProperty (pBase pn) (pFlags pn) (pFlagsOpt pn) (pType pn) ds
    (pObsolete pn) (pObsoleteReason pn).

(** The successive resolutions of the paths [paths] by [FindNestedSymbol]
    called on [n], each in the heap the one before left. *)
Fixpoint resolve_chain (n : NodeRef) (paths : list (list string))
  : M heap (list (option sym_ptr)) :=
  match paths with
  | [] => ret []
  | path :: paths' =>
      let* s := FindNestedSymbol n path in
      let* ss := resolve_chain n paths' in
      ret (s :: ss)
  end.

Lemma resolve_chain_cons_inv n path paths h ss h' :
  resolve_chain n (path :: paths) h = Ok (map Some ss) h' ->
  ∃ s ss' h1, ss = s :: ss'
    ∧ FindNestedSymbol n path h = Ok (Some s) h1
    ∧ resolve_chain n paths h1 = Ok (map Some ss') h'.
Proof.
  simpl. unfold bind, ret.
  destruct (FindNestedSymbol n path h) as [s h1| |] eqn:E1; [|done..].
  destruct (resolve_chain n paths h1) as [ss0 h2| |] eqn:E2; [|done..].
  intros [= Hss ->]. destruct ss as [|s' ss']; [done|].
  simpl in Hss. injection Hss as -> ->. by exists s', ss', h1.
Qed.

Lemma getNamespacedIdentifier_nested filename id ns id2 q h :
  Op id = OpIdentifier -> Op ns = OpNamespace -> Op id2 = OpIdentifier ->
  getNamespacedIdentifier filename (mkA (id :: ns :: id2 :: q) h)
  = Ok (Got [id; id2]) (mkA q h).
Proof.
  intros Hid Hns Hid2. unfold getNamespacedIdentifier, bind.
  rewrite expectOp_hit by done. rewrite optionalOp_hit by done.
  by rewrite expectOp_hit.
Qed.

Lemma getNamespacedIdentifier_ns filename ts ids q h :
  ns_ident ts ids -> not_namespace q ->
  getNamespacedIdentifier filename (mkA (ts ++ q) h) = Ok (Got ids) (mkA q h).
Proof.
  intros Hns Hq.
  destruct Hns as [id Hid|id ns id2 Hid Hns Hid2]; simpl.
  - unfold getNamespacedIdentifier, bind.
    rewrite expectOp_hit by done. by rewrite optionalOp_miss.
  - by apply getNamespacedIdentifier_nested.
Qed.

Lemma AddDefault_with_concretes n s cs h pn :
  cs !! n = Some (IsProperty pn) ->
  AddDefault n (Some s) (with_concretes cs h)
  = Ok tt (with_concretes
             (<[n := IsProperty (with_defaults pn (pDefault pn ++ [s]))]> cs)
             h).
Proof.
  intros Hn. unfold AddDefault, set_property, modify, property_at,
    concrete_at. simpl. by rewrite Hn.
Qed.

Lemma lift_graph_only {A} (c : M heap A) q cs h :
  graph_only c ->
  lift c (mkA q (with_concretes cs h))
  = match c h with
    | Ok a h' => Ok a (mkA q (with_concretes cs h'))
    | Panic p => Panic p
    | Diverge => Diverge
    end.
Proof.
  intros Hc. unfold lift. simpl. rewrite Hc. by destruct (c h).
Qed.

(** ** What a step of the analyzer keeps *)

Lemma bind_Ok_inv {S A B} (c : M S A) (k : A -> M S B) s b s' :
  bind c k s = Ok b s' -> ∃ a s1, c s = Ok a s1 ∧ k a s1 = Ok b s'.
Proof. unfold bind. destruct (c s) as [a s1| |]; [eauto|done..]. Qed.

(** [c] keeps [P]: when it returns, [P] still holds of the heap. *)
Definition hkeeps {A} (P : heap -> Prop) (c : M heap A) : Prop :=
  ∀ h a h', c h = Ok a h' -> P h -> P h'.

Definition keeps {A} (P : heap -> Prop) (c : M astate A) : Prop :=
  ∀ st a st', c st = Ok a st' -> P (hp st) -> P (hp st').

(** [P] looks at the concrete nodes only. *)
Definition concretes_only (P : heap -> Prop) : Prop :=
  ∀ h h', concretes h' = concretes h -> P h -> P h'.

Lemma keeps_ret {A} P (a : A) : keeps P (ret a).
Proof. by intros st a' st' [= _ <-]. Qed.

Lemma keeps_raise {A} P p : keeps P (@raise astate A p).
Proof. by intros st a st'. Qed.

Lemma keeps_get P : keeps P (@get astate).
Proof. by intros st a st' [= _ <-]. Qed.

Lemma keeps_bind {A B} P (c : M astate A) (k : A -> M astate B) :
  keeps P c -> (∀ a, keeps P (k a)) -> keeps P (bind c k).
Proof.
  intros Hc Hk st b st' (a & st1 & H1 & H2)%bind_Ok_inv HP.
  eapply Hk; [exact H2|]. by eapply Hc.
Qed.

Lemma keeps_lift {A} P (c : M heap A) : hkeeps P c -> keeps P (lift c).
Proof.
  intros Hc st a st'. unfold lift.
  destruct (c (hp st)) as [a0 h0| |] eqn:E; [|done..].
  intros [= _ <-]. simpl. by eapply Hc.
Qed.

Lemma hkeeps_graph_only {A} P (c : M heap A) :
  concretes_only P -> graph_only c -> hkeeps P c.
Proof.
  intros HP Hc h a h' Hrun. apply HP.
  by eapply graph_only_concretes.
Qed.

Lemma hkeeps_base_Symbol P a : concretes_only P -> hkeeps P (base_Symbol a).
Proof.
  intros HP h p h'. unfold base_Symbol, bind, get.
  destruct (concrete_at h a); [|done].
  unfold alloc_sym. intros [= _ <-]. by apply HP.
Qed.

Lemma keeps_Peek P : keeps P Peek.
Proof. by intros st a st' [= _ <-]. Qed.

Lemma keeps_Dequeue P : keeps P Dequeue.
Proof.
  intros st a st'. unfold Dequeue.
  destruct (queue st); by intros [= _ <-].
Qed.

Ltac keeps_step :=
  first
    [ apply keeps_ret | apply keeps_raise | apply keeps_get
    | apply keeps_Peek | apply keeps_Dequeue
    | assumption
    | apply keeps_bind; [|intros ?]
    | match goal with
      | |- keeps _ (match ?x with _ => _ end) => destruct x
      | |- keeps _ (if ?b then _ else _) => destruct b
      end ].

Section Keeps.

Variable hasUnicode : string -> string -> bool.
Variable filename : string.
Variable P : heap -> Prop.

Lemma keeps_expectOp op : keeps P (expectOp filename op).
Proof. unfold expectOp. repeat keeps_step. Qed.

Lemma keeps_expectToken t : keeps P (expectToken hasUnicode filename t).
Proof. unfold expectToken. repeat keeps_step. Qed.

Lemma keeps_optionalOp op : keeps P (optionalOp op).
Proof. unfold optionalOp. repeat keeps_step. Qed.

Lemma keeps_optionalToken t : keeps P (optionalToken hasUnicode t).
Proof. unfold optionalToken. repeat keeps_step. Qed.

Lemma keeps_getNamespacedIdentifier :
  keeps P (getNamespacedIdentifier filename).
Proof.
  unfold getNamespacedIdentifier.
  repeat first [apply keeps_expectOp | apply keeps_optionalOp | keeps_step].
Qed.

Lemma keeps_getQualifierIdentifier :
  keeps P (getQualifierIdentifier hasUnicode filename).
Proof.
  unfold getQualifierIdentifier.
  repeat first [apply keeps_expectToken | apply keeps_optionalToken
               | apply keeps_getNamespacedIdentifier | keeps_step].
Qed.

End Keeps.

(** The node at [n] is a property node, of which [Q] holds. *)
Definition property_holds (n : addr) (Q : PropertyNode -> Prop) (h : heap)
  : Prop :=
  ∃ p, property_at h n = Some p ∧ Q p.

(** The flags-qualifier symbol of the property at [n] is [s]. *)
Definition flagsopt_is (n : addr) (s : option sym_ptr) : heap -> Prop :=
  property_holds n (fun p => pFlagsOpt p = s).

(** The default list of the property at [n] is [ds]. *)
Definition defaults_are (n : addr) (ds : list sym_ptr) : heap -> Prop :=
  property_holds n (fun p => pDefault p = ds).

Lemma property_holds_concretes_only n Q : concretes_only (property_holds n Q).
Proof.
  intros h h' Hc (p & Hp & Hs). exists p. split; [|done].
  unfold property_at, concrete_at in *. by rewrite Hc.
Qed.

Lemma property_at_set_property n n' f h :
  ∃ h', set_property n' f h = Ok tt h'
        ∧ nodes h' = nodes h ∧ syms h' = syms h
        ∧ property_at h' n
          = if decide (n = n') then f <$> property_at h n
            else property_at h n.
Proof.
  unfold set_property, modify. eexists. split; [reflexivity|].
  destruct (property_at h n') as [p'|] eqn:E; simpl.
  - repeat split. destruct (decide (n = n')) as [->|Hne].
    + rewrite E. unfold property_at, concrete_at. simpl.
      by rewrite lookup_insert_eq.
    + unfold property_at, concrete_at. simpl. by rewrite lookup_insert_ne.
  - repeat split. destruct (decide (n = n')) as [->|Hne]; [|done].
    by rewrite E.
Qed.

Lemma hkeeps_set_property (Q : PropertyNode -> Prop) n n' f :
  (∀ p, Q p -> Q (f p)) ->
  hkeeps (property_holds n Q) (set_property n' f).
Proof.
  intros Hf h [] h' Hrun (p & Hp & HQ).
  destruct (property_at_set_property n n' f h) as (h0 & Hh0 & _ & _ & Hat).
  rewrite Hh0 in Hrun. injection Hrun as <-. unfold property_holds.
  rewrite Hat, Hp. destruct (decide (n = n')); simpl; eauto.
Qed.

Lemma hkeeps_set_Value_other (Q : PropertyNode -> Prop) n a v :
  a ≠ n ->
  hkeeps (property_holds n Q) (set_Value a v).
Proof.
  intros Hne h [] h'. unfold set_Value, modify. intros [= <-] (p & Hp & HQ).
  unfold property_holds. exists p. split; [|done]. destruct (concrete_at h a); [|done].
  unfold property_at, concrete_at in *. simpl. by rewrite lookup_insert_ne.
Qed.

Section Defaults.

Variable hasUnicode : string -> string -> bool.
Variable filename : string.

(** The tokens of a default chain [X (| Y)*] and the identifier tokens of
    its elements, in order. *)
Inductive chain_tokens : list Token -> list (list Token) -> Prop :=
| chain_last ts ids :
    ns_ident ts ids -> chain_tokens ts [ids]
| chain_or ts ids bar more idss :
    ns_ident ts ids ->
    Equal hasUnicode binaryOrToken bar = true ->
    chain_tokens more idss ->
    chain_tokens (ts ++ bar :: more) (ids :: idss).

(** What follows the chain neither continues it nor extends its last
    element. *)
Definition chain_end (rest : list Token) : Prop :=
  match rest with
  | [] => True
  | t :: _ => Equal hasUnicode binaryOrToken t = false ∧ Op t ≠ OpNamespace
  end.

Lemma chain_end_not_namespace rest : chain_end rest -> not_namespace rest.
Proof. destruct rest; [done|]. by intros [_ ?]. Qed.

Lemma chain_end_not_or rest :
  chain_end rest ->
  match rest with
  | [] => True
  | t :: _ => Equal hasUnicode binaryOrToken t = false
  end.
Proof. destruct rest; [done|]. by intros [? _]. Qed.

Lemma defaults_loop_chain n ts idss :
  chain_tokens ts idss ->
  ∀ fuel rest h cs pn ss h',
    (length ts < fuel)%nat ->
    chain_end rest ->
    cs !! n = Some (IsProperty pn) ->
    resolve_chain (Concrete n) (map tokenStringValues idss) h
    = Ok (map Some ss) h' ->
    defaults_loop hasUnicode filename fuel n
      (mkA (ts ++ rest) (with_concretes cs h))
    = Ok None
        (mkA rest
           (with_concretes
              (<[n := IsProperty (with_defaults pn (pDefault pn ++ ss))]> cs)
              h')).
Proof.
  induction 1 as [ts ids Hns|ts ids bar more idss Hns Hbar Hmore IH];
    intros fuel rest h cs pn ss h' Hfuel Hend Hn Hres;
    (destruct fuel as [|fuel]; [simpl in Hfuel; lia|]);
    apply resolve_chain_cons_inv in Hres as (s & ss' & h1 & -> & Hs & Hres);
    cbn [defaults_loop]; unfold bind at 1.
  - rewrite (getNamespacedIdentifier_ns _ _ _ _ _ Hns)
      by by apply chain_end_not_namespace.
    unfold bind at 1.
    rewrite (lift_graph_only _ _ _ _ (FindNestedSymbol_graph_only _ _)), Hs.
    unfold bind at 1, lift at 1. cbn [hp queue].
    rewrite (AddDefault_with_concretes _ _ _ _ _ Hn).
    unfold bind at 1.
    rewrite optionalToken_miss by by apply chain_end_not_or.
    simpl in Hres. injection Hres as Hss ->.
    destruct ss' as [|? ?]; [|done]. reflexivity.
  - rewrite <- app_assoc.
    rewrite (getNamespacedIdentifier_ns _ _ _ _ _ Hns)
      by (simpl; rewrite (Equal_Op _ _ _ Hbar); done).
    unfold bind at 1.
    rewrite (lift_graph_only _ _ _ _ (FindNestedSymbol_graph_only _ _)), Hs.
    unfold bind at 1, lift at 1. cbn [hp queue].
    rewrite (AddDefault_with_concretes _ _ _ _ _ Hn).
    unfold bind at 1. cbn [app].
    rewrite (optionalToken_hit _ _ _ _ _ Hbar).
    rewrite (IH fuel rest h1 _ (with_defaults pn (pDefault pn ++ [s]))
               ss' h'); [|rewrite length_app in Hfuel; simpl in Hfuel; lia
                         |done|apply lookup_insert_eq|done].
    rewrite insert_insert_eq. unfold with_defaults; simpl.
    by rewrite <- app_assoc.
Qed.

Lemma hkeeps_AddDefault n Q node sym :
  (∀ p ds, Q p -> Q (with_defaults p ds)) ->
  hkeeps (property_holds n Q) (AddDefault node sym).
Proof.
  intros HQ. destruct sym as [p|]; [|by intros h a h'].
  apply hkeeps_set_property. intros x Hx. by apply (HQ x).
Qed.

(** The assignment changes nothing of a property but its default list. *)
Lemma keeps_property_defaults n Q node :
  (∀ p ds, Q p -> Q (with_defaults p ds)) ->
  keeps (property_holds n Q) (property_defaults hasUnicode filename node).
Proof.
  intros HQ.
  assert (Hloop : ∀ fuel, keeps (property_holds n Q)
                            (defaults_loop hasUnicode filename fuel node)).
  { induction fuel as [|fuel IH]; [by intros st a st'|].
    cbn [defaults_loop].
    repeat first
      [ apply keeps_getNamespacedIdentifier | apply keeps_optionalToken
      | apply keeps_lift;
        first [ by apply hkeeps_AddDefault
              | apply hkeeps_graph_only;
                [apply property_holds_concretes_only
                |apply FindNestedSymbol_graph_only] ]
      | keeps_step ]. }
  unfold property_defaults.
  repeat first [apply keeps_optionalToken | apply Hloop | keeps_step].
Qed.

(** The end of a declaration changes nothing of a property but its
    obsolescence. *)
Lemma keeps_property_tail n Q node :
  (∀ p o r, Q p ->
     Q (mkProperty (pBase p) (pFlags p) (pFlagsOpt p) (pType p) (pDefault p)
          o r)) ->
  keeps (property_holds n Q) (property_tail hasUnicode filename node).
Proof.
  intros HQ. unfold property_tail.
  repeat first
    [ apply keeps_expectOp | apply keeps_optionalToken | apply keeps_optionalOp
    | apply keeps_lift; apply hkeeps_set_property; intros x Hx; by apply HQ
    | keeps_step ].
Qed.

Lemma analyzeProperty_after_head root st0 n st :
  property_head hasUnicode filename root st0 = Ok (Got n) st ->
  analyzeProperty hasUnicode filename root st0
  = (let* e := property_defaults hasUnicode filename n in
     match e with
     | Some err => ret (Some err)
     | None => property_tail hasUnicode filename n
     end) st.
Proof. intros H. unfold analyzeProperty, bind at 1. by rewrite H. Qed.

(** C3.  In a property declaration with an assignment [= X | Y | ...]
    (the chain ending before a token that is neither [|] nor [::]), when
    each element of the chain is resolved by [FindNestedSymbol] called on
    the property node itself, one after the other, to the symbols [ss],
    the assignment leaves the tokens that follow the chain, the nodes and
    symbols as those resolutions left them, and the default list of the
    property extended by [ss] in the order of the chain; the rest of the
    declaration does not change that list. *)
Theorem default_chain_resolved_in_order
    (root : NodeRef) (st0 : astate) (n : addr) (pn : PropertyNode)
    (st : astate) (eq : Token) (ts : list Token) (idss : list (list Token))
    (rest : list Token) (ss : list sym_ptr) (h' : heap) :
  property_head hasUnicode filename root st0 = Ok (Got n) st ->
  queue st = eq :: ts ++ rest ->
  Equal hasUnicode assignmentToken eq = true ->
  chain_tokens ts idss ->
  chain_end rest ->
  property_at (hp st) n = Some pn ->
  resolve_chain (Concrete n) (map tokenStringValues idss) (hp st)
  = Ok (map Some ss) h' ->
  ∃ st',
    property_defaults hasUnicode filename n st = Ok None st'
    ∧ queue st' = rest
    ∧ nodes (hp st') = nodes h' ∧ syms (hp st') = syms h'
    ∧ property_at (hp st') n = Some (with_defaults pn (pDefault pn ++ ss))
    ∧ analyzeProperty hasUnicode filename root st0
      = property_tail hasUnicode filename n st'
    ∧ ∀ e st'', analyzeProperty hasUnicode filename root st0 = Ok e st'' ->
                defaults_are n (pDefault pn ++ ss) (hp st'').
Proof.
  intros Hhead Hq Heq Hchain Hend Hpn Hres.
  assert (∃ st', property_defaults hasUnicode filename n st = Ok None st'
            ∧ queue st' = rest
            ∧ nodes (hp st') = nodes h' ∧ syms (hp st') = syms h'
            ∧ property_at (hp st') n
              = Some (with_defaults pn (pDefault pn ++ ss)))
    as (st' & Hrun & Hqueue & Hnodes & Hsyms & Hat).
  { destruct st as [q h]. simpl in Hq, Hpn, Hres. subst q.
    assert (Hn : concretes h !! n = Some (IsProperty pn)).
    { unfold property_at, concrete_at in Hpn.
      destruct (concretes h !! n) as [[| |p]|]; try done. congruence. }
    eexists. split.
    - unfold property_defaults, bind at 1.
      rewrite (optionalToken_hit _ _ _ _ _ Heq). unfold bind, get.
      cbn [queue].
      rewrite <- (with_concretes_id h) at 1.
      apply (defaults_loop_chain n ts idss Hchain _ rest h (concretes h) pn
               ss h'); [rewrite length_app; lia|done..].
    - cbn [queue hp]. repeat split.
      unfold property_at, concrete_at. simpl. by rewrite lookup_insert_eq. }
  assert (Htail : analyzeProperty hasUnicode filename root st0
                  = property_tail hasUnicode filename n st').
  { rewrite (analyzeProperty_after_head _ _ _ _ Hhead).
    unfold bind. by rewrite Hrun. }
  exists st'. repeat (split; [done|]).
  intros e st''. rewrite Htail. intros Hrun'.
  eapply (keeps_property_tail n
            (fun p => pDefault p = (pDefault pn ++ ss)%list));
    [done|exact Hrun'|].
  eexists. split; [exact Hat|done].
Qed.


End Defaults.

(** ** The qualifier of a property *)

(** The property node that [NewPropertyNode] makes. *)
Definition fresh_property (n : addr) : PropertyNode :=
  mkProperty (mkBase EmptyString (Some (Concrete n))) EmptyString None None []
    false EmptyString.

Lemma NewPropertyNode_spec parent h :
  ∃ h0, NewPropertyNode parent h = Ok (next_node h) h0
        ∧ property_at h0 (next_node h) = Some (fresh_property (next_node h))
        ∧ syms h0 = syms h.
Proof.
  unfold NewPropertyNode, newBaseNode, newNode, bind, get, alloc_node,
    AddChild, SetParent, bind, modify, ret.
  destruct parent as [p|]; eexists; (split; [reflexivity|]);
    unfold property_at, concrete_at; simpl; by rewrite lookup_insert_eq.
Qed.

Lemma lift_Ok_inv {A} (c : M heap A) st a st' :
  lift c st = Ok a st' -> ∃ h', c (hp st) = Ok a h' ∧ st' = mkA (queue st) h'.
Proof.
  unfold lift. destruct (c (hp st)) as [a0 h0| |]; [|done..].
  intros [= <- <-]. by exists h0.
Qed.

Lemma set_Value_spec a v h p :
  property_at h a = Some p ->
  ∃ cs p', set_Value a v h = Ok tt (with_concretes cs h)
           ∧ property_at (with_concretes cs h) a = Some p'.
Proof.
  unfold set_Value, modify, property_at, concrete_at.
  destruct (concretes h !! a) as [[c|e|x]|] eqn:E; try done. intros _.
  eexists _, _. split; [reflexivity|]. simpl. by rewrite lookup_insert_eq.
Qed.

Section Qualifier.

Variable hasUnicode : string -> string -> bool.
Variable filename : string.

Lemma getQualifierIdentifier_qualified lt ts ids gt rest h :
  Equal hasUnicode openQualifierToken lt = true ->
  ns_ident ts ids ->
  Equal hasUnicode closeQualifierToken gt = true ->
  getQualifierIdentifier hasUnicode filename
    (mkA (lt :: ts ++ gt :: rest) h)
  = Ok (Got ids) (mkA rest h).
Proof.
  intros Hlt Hns Hgt. unfold getQualifierIdentifier, bind at 1.
  rewrite (optionalToken_hit _ _ _ _ _ Hlt). unfold bind at 1.
  rewrite (getNamespacedIdentifier_ns _ _ _ _ _ Hns)
    by (simpl; rewrite (Equal_Op _ _ _ Hgt); done).
  unfold bind at 1. by rewrite (expectToken_hit _ _ _ _ _ _ Hgt).
Qed.

End Qualifier.

(** ** Runs of the analyzer *)

(** A token as the lexer makes it when the match is the capture. *)
Definition tok (op : OpCode) (v : string) (row col : Z) : Token :=
  mkToken op (OpCode_String op) v v row col None.

(** The heap that the analysis of [src] leaves. *)
Definition analyzed_from (h : heap) (src : string) : heap :=
  match Analyze ascii_fold flat_path no_files 1
          (mkAnalyzer (Some src) EmptyString) h with
  | Ok _ h' => h'
  | _ => h
  end.

(** The state in which [property_head] leaves the analyzer. *)
Definition after_head (root : NodeRef) (st : astate) : astate :=
  match property_head ascii_fold EmptyString root st with
  | Ok _ st' => st'
  | _ => st
  end.

(** *** The default chain [y = C | MyEnum2::y;]

    The enum is the node at 1 and its property [y] the node at 2; the class
    [K] is the node at 3 and its property [C] the node at 4; the property
    [y] of the class is made at 5. *)

Definition chain_start : astate :=
  mkA (fst (Tokenize "y = C | MyEnum2::y;"))
    (analyzed_from empty_heap
       "enum MyEnum2 { y; }; class K { const uint C = 1; };").

Definition chain_property : PropertyNode :=
  mkProperty (mkBase "y" (Some (Concrete 5%nat))) EmptyString None None []
    false EmptyString.

Definition chain_resolved : heap :=
  match resolve_chain (Concrete 5%nat) [["C"]; ["MyEnum2"; "y"]]
          (hp (after_head (Concrete 3%nat) chain_start)) with
  | Ok _ h => h
  | _ => empty_heap
  end.

Lemma default_chain_resolved_in_order_witness :
  ∃ st',
    property_defaults ascii_fold EmptyString 5%nat
      (after_head (Concrete 3%nat) chain_start) = Ok None st'
    ∧ queue st' = [tok OpTerminator ";" 1 20]
    ∧ nodes (hp st') = nodes chain_resolved
    ∧ syms (hp st') = syms chain_resolved
    ∧ property_at (hp st') 5%nat
      = Some (with_defaults chain_property
                (pDefault chain_property ++ [3%nat; 1%nat]))
    ∧ analyzeProperty ascii_fold EmptyString (Concrete 3%nat) chain_start
      = property_tail ascii_fold EmptyString 5%nat st'
    ∧ ∀ e st'',
        analyzeProperty ascii_fold EmptyString (Concrete 3%nat) chain_start
        = Ok e st'' ->
        defaults_are 5%nat (pDefault chain_property ++ [3%nat; 1%nat])
          (hp st'').
Proof.
  apply (default_chain_resolved_in_order ascii_fold EmptyString
           (Concrete 3%nat) chain_start 5%nat chain_property
           (after_head (Concrete 3%nat) chain_start)
           (tok OpOperator "=" 1 4)
           [tok OpIdentifier "C" 1 6; tok OpOperator "|" 1 8;
            tok OpIdentifier "MyEnum2" 1 16; tok OpNamespace "::" 1 18;
            tok OpIdentifier "y" 1 19]
           [[tok OpIdentifier "C" 1 6];
            [tok OpIdentifier "MyEnum2" 1 16; tok OpIdentifier "y" 1 19]]
           [tok OpTerminator ";" 1 20] [3%nat; 1%nat] chain_resolved).
  - vm_compute. reflexivity.
  - vm_compute. reflexivity.
  - reflexivity.
  - apply (chain_or ascii_fold [tok OpIdentifier "C" 1 6]
             [tok OpIdentifier "C" 1 6] (tok OpOperator "|" 1 8)
             [tok OpIdentifier "MyEnum2" 1 16; tok OpNamespace "::" 1 18;
              tok OpIdentifier "y" 1 19]
             [[tok OpIdentifier "MyEnum2" 1 16; tok OpIdentifier "y" 1 19]]).
    + apply ns_plain. reflexivity.
    + reflexivity.
    + apply chain_last. apply ns_nested; reflexivity.
  - split; [reflexivity|discriminate].
  - vm_compute. reflexivity.
  - vm_compute. reflexivity.
Defined.

(** The example of the specification, as a whole file: the default list of
    [y] is the symbol [C] of the class, whose node is the property [C], then
    the symbol [y] of the enum [MyEnum2], whose node is the property [y] of
    the enum. *)
Example default_chain_of_the_specification :
  ∃ h, Analyze ascii_fold flat_path no_files 1
         (mkAnalyzer
            (Some ("enum MyEnum2 { y; }; "
                   ++ "class K { const uint C = 1; y = C | MyEnum2::y; };"))
            EmptyString) empty_heap
       = Ok (Some (Generic O), None) h
       ∧ pDefault <$> property_at h 5%nat = Some [3%nat; 1%nat]
       ∧ sym_at h 3%nat
         = mkSymbol "C" (Some (Generic 3%nat)) (Some (Concrete 4%nat))
       ∧ sym_at h 1%nat
         = mkSymbol "y" (Some (Generic 1%nat)) (Some (Concrete 2%nat))
       ∧ baseNode_Name h 1%nat = "MyEnum2" ∧ baseNode_Name h 3%nat = "K".
Proof. eexists. split; [vm_compute; reflexivity|]. by vm_compute. Qed.

(** *** The default [x = A::b;] with no [A] in scope *)

Definition unknown_start : astate :=
  mkA (fst (Tokenize "x = A::b;")) root_with_class.

(** The same as a whole file: the analysis ends in a panic, not in an
    error. *)
Example unknown_namespace_default_of_a_file :
  Analyze ascii_fold flat_path no_files 1
    (mkAnalyzer (Some "class K { x = A::b; };") EmptyString) empty_heap
  = Panic PanicNilDefault.
Proof. vm_compute. reflexivity. Qed.

(** *** The qualifier [a<b> x;] *)

Definition qualified_start : astate :=
  mkA (fst (Tokenize "a<b> x;")) root_with_class.

Definition qualified_done : astate :=
  match analyzeProperty ascii_fold EmptyString (Concrete 1%nat)
          qualified_start with
  | Ok _ st => st
  | _ => qualified_start
  end.

(** A qualifier that names a sibling declared later: the qualifier [b] of
    [x] names the property [b] declared after it.  The flags-qualifier
    symbol of [x] is the symbol that the resolution creates in the table of
    the root, without a node; the symbol of the sibling is the entry [b] in
    the table of the class. *)
Lemma forward_qualifier_is_a_root_placeholder :
  ∃ h, Analyze ascii_fold flat_path no_files 1
         (mkAnalyzer (Some "class K { a<b> x; int b; };") EmptyString)
         empty_heap
       = Ok (Some (Generic O), None) h
       ∧ pFlagsOpt <$> property_at h 2%nat = Some (Some 1%nat)
       ∧ sym_at h 1%nat = mkSymbol "b" (Some (Generic O)) None
       ∧ symbols (node_at h O) !! "b" = Some 1%nat
       ∧ symbols (node_at h 1%nat) !! "b" = Some 4%nat
       ∧ sym_at h 4%nat
         = mkSymbol "b" (Some (Generic 1%nat)) (Some (Concrete 3%nat)).
Proof. eexists. split; [vm_compute; reflexivity|]. by vm_compute. Qed.

(** *** Importing a file that declares a name again *)

(** The root of a file that declares [K] (the node at 0) and, in the same
    heap, the root of an analysed file that declares [E] and [K] (the node
    at 2). *)
Definition two_files : heap :=
  analyzed_from (analyzed_from empty_heap "class K { };")
    "enum E { }; class K { };".

(** One file on disk, [enums], for the two runs below. *)
Definition enums_file (path : string) : option string :=
  if decide (path = "enums") then Some "enum E { }; class K { };" else None.

Definition import_enums : string :=
  "#import " ++ String dquote "enums" ++ String dquote EmptyString.

(** A class declared at top level and again in a file imported after it:
    the analysis returns no error, and the root keeps the symbol of the
    class declared at top level, whose node is the class at 1. *)
Example duplicate_class_in_import_is_dropped :
  ∃ h, Analyze ascii_fold flat_path enums_file 2
         (mkAnalyzer (Some ("class K { }; " ++ import_enums)) EmptyString)
         empty_heap
       = Ok (Some (Generic O), None) h
       ∧ symbols (node_at h O) !! "K" = Some O
       ∧ sym_at h O = mkSymbol "K" (Some (Generic O)) (Some (Concrete 1%nat))
       ∧ symbols (node_at h O) !! "E" = Some 1%nat
       ∧ sScope (sym_at h 1%nat) = Some (Generic O).
Proof. eexists. split; [vm_compute; reflexivity|]. by vm_compute. Qed.


(** A symbol of the same name in the table of the parent does not stop
    [AddSymbol]: the class node at 1 takes a symbol [K] although the root at
    0 has one. *)
Example AddSymbol_shadows_an_ancestor :
  ∃ h0 h1 h2,
    CreateSymbol O "K" None root_with_class = Ok O h0
    ∧ alloc_sym (mkSymbol "K" None None) h0 = Ok 1%nat h1
    ∧ ancestor h1 1%nat O
    ∧ symbols (node_at h1 O) !! "K" = Some O
    ∧ AddSymbol 1%nat (Some 1%nat) h1 = Ok tt h2
    ∧ symbols (node_at h2 1%nat) !! "K" = Some 1%nat
    ∧ sScope (sym_at h2 1%nat) = Some (Generic 1%nat).
Proof.
  eexists _, _, _. split; [vm_compute; reflexivity|].
  split; [vm_compute; reflexivity|].
  split; [apply (ancestor_parent _ 1%nat (Generic O)); reflexivity|].
  split; [by vm_compute|]. split; [vm_compute; reflexivity|].
  by vm_compute.
Qed.

(** ** The lexer: the matches cover the input *)

Lemma span_splits f s : (fst (span f s) ++ snd (span f s))%string = s.
Proof.
  induction s as [|c s IH]; simpl; [done|].
  destruct (f c); [|done]. destruct (span f s) as [p r]. simpl in *.
  app_simpl. by rewrite IH.
Qed.

Lemma lazy_to_quote_splits s p r :
  lazy_to_quote s = Some (p, r) -> (p ++ String dquote r)%string = s.
Proof.
  revert p r. induction s as [|c s IH]; intros p r; simpl; [done|].
  destruct (c =? dquote)%char eqn:Eq.
  - intros [= <- <-]. apply Ascii.eqb_eq in Eq. by subst c.
  - destruct (is_newline c); [done|].
    destruct (lazy_to_quote s) as [[p' r']|]; [|done].
    intros [= <- <-]. app_simpl. by rewrite (IH p' r').
Qed.

Lemma string_app_assoc (a b c : string) :
  ((a ++ b) ++ c)%string = (a ++ (b ++ c))%string.
Proof. induction a as [|x a IH]; app_simpl; [done|]. by rewrite IH. Qed.

(** What a match takes and what it leaves make up the input, and it takes
    at least one byte. *)
Lemma match_here_splits s m r :
  match_here s = Some (m, r) ->
  (m_matched m ++ r)%string = s ∧ m_matched m ≠ EmptyString.
Proof.
  unfold match_here, pattern, first_alt.
  destruct (alt_whitespace s) as [[m0 r0]|] eqn:E1.
  { intros [= <- <-]. unfold alt_whitespace in E1.
    pose proof (span_splits is_space s) as Hs.
    destruct (span is_space s) as [[|c w] rest]; [done|].
    injection E1 as <- <-. by simpl in *. }
  destruct (alt_terminator s) as [[m0 r0]|] eqn:E2.
  { intros [= <- <-]. unfold alt_terminator in E2.
    destruct s as [|c s']; [done|]. destruct (c =? ";")%char eqn:Ec; [|done].
    injection E2 as <- <-. apply Ascii.eqb_eq in Ec. by subst c. }
  destruct (alt_string s) as [[m0 r0]|] eqn:E3.
  { intros [= <- <-]. unfold alt_string in E3.
    destruct s as [|q [|c s']]; try done;
      destruct (q =? dquote)%char eqn:Eq; try done. simpl in E3.
    destruct (is_newline c); [done|].
    destruct (lazy_to_quote s') as [[p rest]|] eqn:El; [|done].
    injection E3 as <- <-. apply Ascii.eqb_eq in Eq. subst q.
    apply lazy_to_quote_splits in El. split; [|done]. cbn [m_matched].
    rewrite string_app_assoc. app_simpl. by rewrite El. }
  destruct (alt_comment s) as [[m0 r0]|] eqn:E4.
  { intros [= <- <-]. unfold alt_comment in E4.
    destruct s as [|a [|b s']]; try done;
      destruct (a =? "/")%char eqn:Ea; try done. simpl in E4.
    destruct (b =? "/")%char eqn:Eb; [|done]. simpl in E4.
    pose proof (span_splits (fun c => negb (is_newline c)) s') as Hs.
    destruct (span _ s') as [c rest]. injection E4 as <- <-.
    apply Ascii.eqb_eq in Ea, Eb. subst a b. cbn [m_matched fst snd] in *.
    split; [|done]. app_simpl. by rewrite Hs. }
  destruct (alt_identifier s) as [[m0 r0]|] eqn:E5.
  { intros [= <- <-]. unfold alt_identifier in E5.
    assert (Hbody : ∀ sign t, ident_body sign t = Some (m0, r0) ->
              (m_matched m0 ++ r0)%string = (sign ++ t)%string
              ∧ match t with
                | EmptyString => False
                | _ => m_matched m0 ≠ EmptyString
                end).
    { intros sign t (c & t' & -> & _ & -> & ->)%ident_body_inv.
      cbn [m_matched]. split.
      - rewrite string_app_assoc. app_simpl. by rewrite span_splits.
      - destruct sign; by app_simpl. }
    destruct s as [|c t]; [done|].
    destruct (c =? "-")%char eqn:Ec.
    - apply Ascii.eqb_eq in Ec. subst c.
      destruct (ident_body "-" t) as [[m' r']|] eqn:Eb.
      + injection E5 as <- <-. apply Hbody in Eb as [Hb Hne].
        split; [done|]. by destruct t.
      + by apply Hbody in E5.
    - by apply Hbody in E5. }
  destruct (alt_namespace s) as [[m0 r0]|] eqn:E6.
  { intros [= <- <-]. unfold alt_namespace in E6.
    destruct s as [|a [|b s']]; try done;
      destruct (a =? ":")%char eqn:Ea; try done. simpl in E6.
    destruct (b =? ":")%char eqn:Eb; [|done]. simpl in E6.
    injection E6 as <- <-. apply Ascii.eqb_eq in Ea, Eb. by subst a b. }
  destruct (alt_preprocess s) as [[m0 r0]|] eqn:E7.
  { intros [= <- <-]. unfold alt_preprocess in E7.
    destruct s as [|c s']; [done|]. destruct (c =? "#")%char eqn:Ec; [|done].
    simpl in E7. pose proof (span_splits is_letter s') as Hs.
    destruct (span is_letter s') as [p rest]. injection E7 as <- <-.
    apply Ascii.eqb_eq in Ec. subst c. cbn [m_matched fst snd] in *.
    split; [|done]. app_simpl. by rewrite Hs. }
  destruct (alt_operator s) as [[m0 r0]|] eqn:E8.
  { intros [= <- <-]. unfold alt_operator in E8.
    destruct s as [|c s']; [done|]. destruct (is_operator c); [|done].
    by injection E8 as <- <-. }
  destruct (alt_invalid s) as [[m0 r0]|] eqn:E9; [|done].
  intros [= <- <-]. unfold alt_invalid in E9.
  pose proof (span_splits (fun c => negb (is_space c)) s) as Hs.
  destruct (span _ s) as [[|c w] rest]; [done|].
  injection E9 as <- <-. by simpl in *.
Qed.

(** The pattern matches at the start of every input that is not empty: a
    byte is white space or it is not. *)
Lemma match_here_total c s : is_Some (match_here (String c s)).
Proof.
  unfold match_here, pattern, first_alt.
  destruct (alt_whitespace (String c s)) eqn:E1; [done|].
  destruct (alt_terminator _); [done|]. destruct (alt_string _); [done|].
  destruct (alt_comment _); [done|]. destruct (alt_identifier _); [done|].
  destruct (alt_namespace _); [done|]. destruct (alt_preprocess _); [done|].
  destruct (alt_operator _); [done|].
  unfold alt_whitespace, alt_invalid in *. simpl in *.
  destruct (is_space c); simpl.
  - by destruct (span is_space s).
  - by destruct (span (fun c => negb (is_space c)) s).
Qed.

Fixpoint matched_text (ms : list submatch) : string :=
  match ms with
  | [] => EmptyString
  | m :: ms' => (m_matched m ++ matched_text ms')%string
  end.

Lemma length_string_app (a b : string) :
  String.length (a ++ b) = (String.length a + String.length b)%nat.
Proof.
  induction a as [|x a IH]; app_simpl; simpl; [done|]. by rewrite IH.
Qed.

(** The successive matches are adjacent and cover the whole input. *)
Lemma FindAllSubmatch_covers data : matched_text (FindAllSubmatch data) = data.
Proof.
  unfold FindAllSubmatch.
  assert (H : ∀ fuel s, (String.length s <= fuel)%nat ->
                matched_text (find_all fuel s) = s).
  { induction fuel as [|fuel IH]; intros s Hlen.
    - destruct s; [done|simpl in Hlen; lia].
    - simpl. destruct s as [|c s]; [done|].
      destruct (match_here_total c s) as [[m r] Hm]. rewrite Hm.
      apply match_here_splits in Hm as [Hsplit Hne]. simpl.
      rewrite IH; [done|].
      assert (String.length (m_matched m ++ r) = S (String.length s))
        as Hl by by rewrite Hsplit.
      rewrite length_string_app in Hl.
      destruct (m_matched m); [done|]. simpl in Hl. simpl in Hlen. lia. }
  by apply H.
Qed.

Lemma DecodeRune_width c s : (1 <= snd (utf8.DecodeRune (String c s)))%nat.
Proof.
  unfold utf8.DecodeRune. destruct (byte_val c <? utf8.RuneSelf); [done|].
  destruct (utf8.lead c) as [[[sz lo] hi]|]; [|done].
  destruct s as [|b1 s]; [done|].
  destruct (negb (utf8.within lo hi b1)); [done|].
  destruct (sz <=? 2)%nat; [simpl; lia|].
  destruct s as [|b2 s]; [done|].
  destruct (negb (utf8.within 128 191 b2)); [done|].
  destruct (sz <=? 3)%nat; [simpl; lia|].
  destruct s as [|b3 s]; [done|].
  destruct (negb (utf8.within 128 191 b3)); simpl; lia.
Qed.

Lemma drop_bytes_length n s :
  String.length (drop_bytes n s) = (String.length s - n)%nat.
Proof.
  revert s. induction n as [|n IH]; intros s; simpl; [lia|].
  destruct s as [|c s]; simpl; [done|]. apply IH.
Qed.

(** [countRunes] is given enough passes: more would not change its
    result. *)
Lemma countRunes_loop_enough fuel :
  ∀ data rows cols,
    (String.length data <= fuel)%nat ->
    countRunes_loop (S fuel) data rows cols
    = countRunes_loop fuel data rows cols.
Proof.
  induction fuel as [|fuel IH]; intros data rows cols Hlen.
  - destruct data; [done|simpl in Hlen; lia].
  - cbn [countRunes_loop]. destruct data as [|c s]; [done|].
    pose proof (DecodeRune_width c s) as Hw.
    destruct (utf8.DecodeRune (String c s)) as [r w]. simpl in Hw.
    assert (String.length (drop_bytes w (String c s)) <= fuel)%nat as Hd.
    { rewrite drop_bytes_length. simpl in *. lia. }
    destruct (r =? 10); [by rewrite <- IH|].
    destruct (r =? utf8.RuneError); [done|]. by rewrite <- IH.
Qed.

(** * Further properties of the code *)

(** ** [countRunes] on ASCII text *)

(** The number of line feeds of [s]. *)
Fixpoint count_lf (s : string) : nat :=
  match s with
  | EmptyString => O
  | String c s' => ((if is_newline c then 1 else 0) + count_lf s')%nat
  end.

(** What follows the last line feed of [s]; all of [s] when it has none. *)
Fixpoint last_line (s : string) : string :=
  match s with
  | EmptyString => EmptyString
  | String c s' =>
      if is_newline c then last_line s'
      else if (0 <? count_lf s')%nat then last_line s'
      else s
  end.

Lemma last_line_no_lf s : count_lf s = O -> last_line s = s.
Proof.
  destruct s as [|c s]; simpl; [done|].
  destruct (is_newline c); [done|]. simpl. by intros ->.
Qed.

Lemma byte_is_newline c : (byte_val c =? 10) = is_newline c.
Proof. by destruct c as [[] [] [] [] [] [] [] []]. Qed.

Lemma DecodeRune_ascii c s :
  (byte_val c <? utf8.RuneSelf) = true ->
  utf8.DecodeRune (String c s) = (byte_val c, 1%nat)
  ∧ (byte_val c =? utf8.RuneError) = false.
Proof.
  intros H. unfold utf8.DecodeRune. rewrite H. split; [done|].
  apply Z.ltb_lt in H. apply Z.eqb_neq. unfold utf8.RuneSelf, utf8.RuneError
    in *. lia.
Qed.

Lemma countRunes_loop_ascii s :
  ∀ fuel rows cols,
    is_ascii s = true ->
    (String.length s <= fuel)%nat ->
    countRunes_loop fuel s rows cols
    = (rows + Z.of_nat (count_lf s),
       (if (0 <? count_lf s)%nat then 0 else cols)
       + Z.of_nat (String.length (last_line s)),
       None).
Proof.
  induction s as [|c s IH]; intros fuel rows cols Hascii Hfuel.
  - destruct fuel; simpl; do 2 f_equal; lia.
  - destruct fuel as [|fuel]; [simpl in Hfuel; lia|].
    cbn [is_ascii all_chars] in Hascii.
    apply andb_true_iff in Hascii as [Hc Hs].
    destruct (DecodeRune_ascii c s Hc) as [Hd He].
    cbn [countRunes_loop]. rewrite Hd, byte_is_newline. cbn [drop_bytes].
    cbn [count_lf last_line]. destruct (is_newline c) eqn:En.
    + rewrite (IH fuel) by (done || simpl in Hfuel; lia).
      replace (0 <? 1 + count_lf s)%nat with true by done.
      destruct (0 <? count_lf s)%nat; do 2 f_equal; lia.
    + rewrite He, (IH fuel) by (done || simpl in Hfuel; lia).
      cbn [Nat.add]. destruct (0 <? count_lf s)%nat eqn:Ec; [done|].
      apply Nat.ltb_ge in Ec. assert (count_lf s = O) as E0 by lia.
      rewrite (last_line_no_lf s E0). cbn [String.length].
      do 2 f_equal. lia.
Qed.

(** X1. On ASCII text [countRunes] never fails: it returns the number of line
    feeds and the number of characters that follow the last of them (of all
    the characters when there is none). *)
Theorem countRunes_ascii (data : string) :
  is_ascii data = true ->
  countRunes data
  = (Z.of_nat (count_lf data), Z.of_nat (String.length (last_line data)),
     None).
Proof.
  intros H. unfold countRunes.
  rewrite (countRunes_loop_ascii data _ 0 0 H) by done.
  f_equal. f_equal. by destruct (0 <? count_lf data)%nat.
Qed.

Lemma countRunes_ascii_witness :
  countRunes ("ab" ++ line_feed ++ "   cde")
  = (Z.of_nat (count_lf ("ab" ++ line_feed ++ "   cde")),
     Z.of_nat (String.length (last_line ("ab" ++ line_feed ++ "   cde"))),
     None).
Proof. apply (countRunes_ascii ("ab" ++ line_feed ++ "   cde")). reflexivity. Defined.

(** ** The lexer: what a token can be *)

(** The shape of the value and of the raw text of a token of each
    classification, read off the alternatives of [pattern]. *)
Definition class_shape (op : OpCode) (value raw : string) : bool :=
  match op with
  | OpWhitespace =>
      (String.eqb raw value && all_chars is_space value)%bool
  | OpTerminator => (String.eqb value ";" && String.eqb raw ";")%bool
  | OpString =>
      (String.eqb raw (String dquote value ++ String dquote EmptyString)
       && negb (String.eqb value EmptyString)
       && all_chars (fun c => negb (is_newline c)) value)%bool
  | OpComment =>
      (String.eqb raw ("//" ++ value)
       && all_chars (fun c => negb (is_newline c)) value)%bool
  | OpIdentifier => (String.eqb raw value && ident_shape value)%bool
  | OpNamespace => (String.eqb value "::" && String.eqb raw "::")%bool
  | OpPreprocess =>
      (String.eqb raw (String "#" value) && all_chars is_letter value)%bool
  | OpOperator =>
      (String.eqb raw value
       && match value with
          | String c EmptyString => is_operator c
          | _ => false
          end)%bool
  | OpInvalid =>
      (String.eqb raw value && negb (String.eqb value EmptyString)
       && all_chars (fun c => negb (is_space c)) value)%bool
  end.

Definition match_shape (m : submatch) : bool :=
  class_shape (m_group m) (m_captured m) (m_matched m).

Lemma lazy_to_quote_no_newline s p r :
  lazy_to_quote s = Some (p, r) ->
  all_chars (fun c => negb (is_newline c)) p = true.
Proof.
  revert p r. induction s as [|c s IH]; intros p r; simpl; [done|].
  destruct (c =? dquote)%char; [by intros [= <- <-]|].
  destruct (is_newline c) eqn:En; [done|].
  destruct (lazy_to_quote s) as [[p' r']|]; [|done].
  intros [= <- <-]. simpl. by rewrite En, (IH p' r').
Qed.

Lemma alt_whitespace_shape s m r :
  alt_whitespace s = Some (m, r) -> match_shape m = true.
Proof.
  unfold alt_whitespace. pose proof (span_all is_space s) as Hs.
  destruct (span is_space s) as [[|c w] rest]; [done|].
  intros [= <- <-]. unfold match_shape, class_shape. cbn [m_group m_captured
    m_matched]. cbn [fst] in Hs. by rewrite String.eqb_refl, Hs.
Qed.

Lemma alt_terminator_shape s m r :
  alt_terminator s = Some (m, r) -> match_shape m = true.
Proof.
  unfold alt_terminator. destruct s as [|c s]; [done|].
  destruct (c =? ";")%char; [|done]. by intros [= <- <-].
Qed.

Lemma alt_string_shape s m r :
  alt_string s = Some (m, r) -> match_shape m = true.
Proof.
  unfold alt_string. destruct s as [|q t]; [done|].
  destruct (negb (q =? dquote)%char); [done|].
  destruct t as [|c s']; [done|]. destruct (is_newline c) eqn:En; [done|].
  destruct (lazy_to_quote s') as [[p rest]|] eqn:El; [|done].
  intros [= <- <-]. unfold match_shape, class_shape. cbn [m_group m_captured
    m_matched]. rewrite String.eqb_refl. cbn [all_chars].
  by rewrite En, (lazy_to_quote_no_newline _ _ _ El).
Qed.

Lemma alt_comment_shape s m r :
  alt_comment s = Some (m, r) -> match_shape m = true.
Proof.
  unfold alt_comment. destruct s as [|a t]; [done|].
  destruct (negb (a =? "/")%char); [done|].
  destruct t as [|b s']; [done|]. destruct (negb (b =? "/")%char); [done|].
  pose proof (span_all (fun c => negb (is_newline c)) s') as Hs.
  destruct (span _ s') as [c rest]. intros [= <- <-].
  unfold match_shape, class_shape. cbn [m_group m_captured m_matched].
  cbn [fst] in Hs. by rewrite String.eqb_refl, Hs.
Qed.

Lemma alt_identifier_match_shape s m r :
  alt_identifier s = Some (m, r) -> match_shape m = true.
Proof.
  intros H. destruct (alt_identifier_shape _ _ _ H) as (Hg & Hs & Hm).
  unfold match_shape, class_shape. rewrite Hg, Hm, Hs.
  by rewrite String.eqb_refl.
Qed.

Lemma alt_namespace_shape s m r :
  alt_namespace s = Some (m, r) -> match_shape m = true.
Proof.
  unfold alt_namespace. destruct s as [|a t]; [done|].
  destruct (negb (a =? ":")%char); [done|].
  destruct t as [|b s']; [done|]. destruct (negb (b =? ":")%char); [done|].
  by intros [= <- <-].
Qed.

Lemma alt_preprocess_shape s m r :
  alt_preprocess s = Some (m, r) -> match_shape m = true.
Proof.
  unfold alt_preprocess. destruct s as [|c s']; [done|].
  destruct (negb (c =? "#")%char); [done|].
  pose proof (span_all is_letter s') as Hs.
  destruct (span is_letter s') as [p rest]. intros [= <- <-].
  unfold match_shape, class_shape. cbn [m_group m_captured m_matched].
  cbn [fst] in Hs. by rewrite String.eqb_refl, Hs.
Qed.

Lemma alt_operator_shape s m r :
  alt_operator s = Some (m, r) -> match_shape m = true.
Proof.
  unfold alt_operator. destruct s as [|c s']; [done|].
  destruct (is_operator c) eqn:Eo; [|done]. intros [= <- <-].
  unfold match_shape, class_shape. cbn [m_group m_captured m_matched].
  by rewrite String.eqb_refl, Eo.
Qed.

Lemma alt_invalid_shape s m r :
  alt_invalid s = Some (m, r) -> match_shape m = true.
Proof.
  unfold alt_invalid. pose proof (span_all (fun c => negb (is_space c)) s) as Hs.
  destruct (span _ s) as [[|c w] rest]; [done|].
  intros [= <- <-]. unfold match_shape, class_shape. cbn [m_group m_captured
    m_matched]. cbn [fst] in Hs. by rewrite String.eqb_refl, Hs.
Qed.

(** What holds of the match of every alternative holds of the match of the
    pattern. *)
Lemma first_alt_all (P : submatch -> string -> Prop) alts s m r :
  Forall (fun a => ∀ m r, a s = Some (m, r) -> P m r) alts ->
  first_alt alts s = Some (m, r) -> P m r.
Proof.
  induction 1 as [|a alts Ha _ IH]; simpl; [done|].
  destruct (a s) as [[m0 r0]|] eqn:E; [|done].
  intros [= <- <-]. by apply Ha.
Qed.

Lemma match_here_shape s m r :
  match_here s = Some (m, r) -> match_shape m = true.
Proof.
  apply (first_alt_all (fun m _ => match_shape m = true)).
  unfold pattern. repeat apply Forall_cons_2; [..|apply Forall_nil_2];
    intros m0 r0.
  - apply alt_whitespace_shape.
  - apply alt_terminator_shape.
  - apply alt_string_shape.
  - apply alt_comment_shape.
  - apply alt_identifier_match_shape.
  - apply alt_namespace_shape.
  - apply alt_preprocess_shape.
  - apply alt_operator_shape.
  - apply alt_invalid_shape.
Qed.

(** A token of the queue was in it before the loop, or is made from a match
    that is neither white space nor a comment, with the name of its
    classification and no error. *)
Lemma tokenize_loop_made ms :
  ∀ row col q t,
    t ∈ fst (tokenize_loop ms row col q) ->
    t ∈ q ∨ ∃ m, m ∈ ms ∧ m_group m ≠ OpWhitespace ∧ m_group m ≠ OpComment
                 ∧ t = mkToken (m_group m) (OpCode_String (m_group m))
                         (m_captured m) (m_matched m) (Row t) (Col t) None.
Proof.
  induction ms as [|m ms IH]; intros row col q t; simpl; [by left|].
  destruct (countRunes (m_matched m)) as [[rows cols] [err|]]; simpl;
    [by left|].
  set (made := fun t => ∃ m0, m0 ∈ m :: ms ∧ m_group m0 ≠ OpWhitespace
                 ∧ m_group m0 ≠ OpComment
                 ∧ t = mkToken (m_group m0) (OpCode_String (m_group m0))
                         (m_captured m0) (m_matched m0) (Row t) (Col t) None).
  assert (Hrest : ∀ q', t ∈ fst (tokenize_loop ms (row + rows)
                               (if 0 <? rows then cols else col + cols) q') ->
            (t ∈ q' -> t ∈ q ∨ made t) -> t ∈ q ∨ made t).
  { intros q' Hin Hq'. apply IH in Hin as [Hin|(m0 & Hm0 & ?)]; [auto|].
    right. exists m0. split; [by right|done]. }
  assert (Hpush : ∀ c' : Z,
            m_group m ≠ OpWhitespace -> m_group m ≠ OpComment ->
            t ∈ (q ++ [mkToken (m_group m)
                         (OpCode_String (m_group m)) (m_captured m)
                         (m_matched m) (row + rows) c' None])%list ->
            t ∈ q ∨ made t).
  { intros c' ? ? [Hin|Hin%list_elem_of_singleton]%elem_of_app; [by left|].
    right. exists m. subst t. split; [by left|done]. }
  destruct (m_group m) eqn:Eg; intros Hin;
    first [ by apply (Hrest q Hin); auto
          | by eapply Hrest; [exact Hin|apply Hpush] ].
Qed.

(** X2. No token stands for white space or for a comment; every token
    carries the name of its classification and no error, and its value and
    raw text have the shape of its alternative of the pattern: a terminator
    is one semicolon, a string is not empty, has no line feed and stands
    between two quotes in the raw text, a directive is a run of letters after
    the number sign, an operator is one of the seven operator characters,
    and an invalid token is a non-empty run without white space. *)
Theorem Tokenize_token_classes (data : string) :
  Forall (fun t => Op t ≠ OpWhitespace ∧ Op t ≠ OpComment
                   ∧ Name t = OpCode_String (Op t) ∧ Error t = None
                   ∧ class_shape (Op t) (Value t) (Raw t) = true)
         (fst (Tokenize data)).
Proof.
  apply Forall_forall. intros t Hin. unfold Tokenize in Hin.
  apply tokenize_loop_made in Hin as [Hin|(m & Hm & Hw & Hc & Ht)];
    [by apply elem_of_nil in Hin|].
  apply find_all_from_match in Hm as (s' & r & Hm).
  apply match_here_shape in Hm. rewrite Ht. by cbn.
Qed.

(** ** The lexer: input that cannot fail *)

Lemma all_chars_app f (a b : string) :
  all_chars f (a ++ b) = (all_chars f a && all_chars f b)%bool.
Proof.
  induction a as [|c a IH]; app_simpl; simpl; [done|].
  by rewrite IH, andb_assoc.
Qed.

Lemma tokenize_loop_ascii fuel :
  ∀ s row col q,
    is_ascii s = true ->
    snd (tokenize_loop (find_all fuel s) row col q) = None.
Proof.
  induction fuel as [|fuel IH]; intros s row col q Hs; simpl; [done|].
  destruct (match_here s) as [[m r]|] eqn:Hm; [|done].
  apply match_here_splits in Hm as [Hsplit _]. unfold is_ascii in Hs.
  rewrite <-Hsplit, all_chars_app in Hs.
  apply andb_true_iff in Hs as [Hm Hr]. cbn [tokenize_loop].
  rewrite (countRunes_ascii _ Hm).
  destruct (m_group m); by apply IH.
Qed.

(** X3. The lexer fails on no ASCII input. *)
Theorem Tokenize_ascii (data : string) :
  is_ascii data = true -> snd (Tokenize data) = None.
Proof. intros H. by apply tokenize_loop_ascii. Qed.

Lemma Tokenize_ascii_witness :
  snd (Tokenize "class A { uint b = 1; };") = None.
Proof. apply (Tokenize_ascii "class A { uint b = 1; };"). reflexivity. Defined.

Lemma span_whole f s : all_chars f s = true -> span f s = (s, EmptyString).
Proof.
  induction s as [|c s IH]; simpl; [done|].
  intros [Hc Hs]%andb_true_iff. by rewrite Hc, (IH Hs).
Qed.

Lemma space_is_ascii c : is_space c = true -> (byte_val c <? utf8.RuneSelf) = true.
Proof. destruct c as [[] [] [] [] [] [] [] []]; by vm_compute. Qed.

(** X4. An input of white space only gives no token and no error. *)
Theorem Tokenize_whitespace (data : string) :
  all_chars is_space data = true -> Tokenize data = ([], None).
Proof.
  intros Hs. unfold Tokenize, FindAllSubmatch.
  destruct data as [|c s]; [done|]. cbn [String.length find_all].
  unfold match_here, pattern, first_alt, alt_whitespace.
  rewrite (span_whole _ _ Hs).
  replace (find_all (String.length s) EmptyString) with (@nil submatch)
    by by destruct (String.length s).
  cbn [tokenize_loop m_matched m_group].
  by rewrite (countRunes_ascii _ (all_chars_impl _ _ _ space_is_ascii Hs)).
Qed.

Lemma Tokenize_whitespace_witness :
  Tokenize ("  " ++ line_feed ++ " ") = ([], None).
Proof. apply (Tokenize_whitespace ("  " ++ line_feed ++ " ")). reflexivity. Defined.

(** ** [FindSymbol]: the innermost declaration wins *)

(** [resolves h v n d r]: going up from [n] along the parent links, the first
    table that has the name [v] is [d] links away and holds [r]; or no table
    up to the topmost node, [d] links away, has it, and [r] is nil. *)
Inductive resolves (h : heap) (v : string)
  : addr -> nat -> option sym_ptr -> Prop :=
| resolves_here n p :
    symbols (node_at h n) !! v = Some p ->
    resolves h v n O (Some p)
| resolves_nowhere n :
    symbols (node_at h n) !! v = None ->
    parent (node_at h n) = None ->
    resolves h v n O None
| resolves_up n q d r :
    symbols (node_at h n) !! v = None ->
    parent (node_at h n) = Some q ->
    resolves h v (addr_of q) d r ->
    resolves h v n (S d) r.

Lemma FindSymbol_rec_resolves h v n d r create :
  resolves h v n d r ->
  create = false ∨ is_Some r ->
  ∀ fuel, (d < fuel)%nat -> FindSymbol_rec fuel n v create h = Ok r h.
Proof.
  intros Hres Hc.
  induction Hres as [n p Ht|n Ht Hp|n q d r Ht Hp Hup IH]; intros fuel Hfuel;
    (destruct fuel as [|fuel]; [lia|]); simpl; unfold bind, get, ret;
    rewrite Ht; [done| |].
  - rewrite Hp. destruct Hc as [->|[? [=]]]. done.
  - rewrite Hp, (IH Hc fuel) by lia. destruct r as [p|]; [done|].
    destruct Hc as [->|[? [=]]]. done.
Qed.

(** X5. [FindSymbol] returns the symbol of the nearest table that has the
    name, going from the node up its parents, whatever the tables further up
    hold, and nil when it may not create and no table has it; in both cases
    nothing is written.  The chain must be as short as a chain of distinct
    allocated nodes is. *)
Theorem FindSymbol_nearest (h : heap) (v : string) (n : addr) (d : nat)
    (r : option sym_ptr) (create : bool) :
  resolves h v n d r ->
  (d <= next_node h)%nat ->
  create = false ∨ is_Some r ->
  FindSymbol n v create h = Ok r h.
Proof.
  intros Hres Hd Hc. unfold FindSymbol.
  apply (FindSymbol_rec_resolves h v n d r create Hres Hc). lia.
Qed.

(** A root that declares [x] as symbol 0 and a child that declares [x]
    again as symbol 1: from the child, [x] is symbol 1. *)
Definition shadowing_heap : heap :=
  mkHeap (<[1%nat := mkNode (Some (Generic 0%nat)) None []
                       (<["x" := 1%nat]> ∅)]>
          (<[0%nat := mkNode None None [Generic 1%nat]
                        (<["x" := 0%nat]> ∅)]> ∅))
         (<[1%nat := mkSymbol "x" (Some (Generic 1%nat)) None]>
          (<[0%nat := mkSymbol "x" (Some (Generic 0%nat)) None]> ∅))
         ∅ 2%nat 2%nat.

Lemma FindSymbol_nearest_witness :
  FindSymbol 1%nat "x" true shadowing_heap = Ok (Some 1%nat) shadowing_heap.
Proof.
  apply (FindSymbol_nearest shadowing_heap "x" 1%nat O (Some 1%nat) true).
  - by apply resolves_here.
  - vm_compute. lia.
  - right. by eexists.
Defined.

(** X6. A symbol that [AddSymbol] has put into the table of a node is what
    [FindSymbol] returns for its name from that node, creating or not, and
    the search writes nothing. *)
Theorem AddSymbol_then_FindSymbol (n : addr) (q : sym_ptr) (h h' : heap)
    (create : bool) :
  AddSymbol n (Some q) h = Ok tt h' ->
  FindSymbol n (sValue (sym_at h q)) create h' = Ok (Some q) h'.
Proof.
  intros Hadd. pose proof (AddSymbol_inv n (Some q) h) as Hinv.
  rewrite Hadd in Hinv. destruct Hinv as (q' & [= <-] & Hv & Hfree & ->).
  unfold FindSymbol.
  apply (FindSymbol_rec_resolves _ _ n O (Some q) create);
    [|right; by eexists|lia].
  apply resolves_here. rewrite added_table. apply lookup_insert_eq.
Qed.

Lemma AddSymbol_then_FindSymbol_witness :
  ∃ h', AddSymbol 1%nat (Some 0%nat)
          (set_node 1%nat (mkNode (Some (Generic 0%nat)) None [] ∅)
             shadowing_heap) = Ok tt h'
        ∧ FindSymbol 1%nat "x" false h' = Ok (Some 0%nat) h'.
Proof.
  eexists. split; [reflexivity|].
  apply (AddSymbol_then_FindSymbol 1%nat 0%nat
           (set_node 1%nat (mkNode (Some (Generic 0%nat)) None [] ∅)
              shadowing_heap)).
  reflexivity.
Defined.

(** ** [AddChild] and [AdoptChildren] *)

Lemma node_at_set_node a x h b :
  node_at (set_node a x h) b = if decide (a = b) then x else node_at h b.
Proof.
  destruct (decide (a = b)) as [->|Hne].
  - apply node_at_set_node_eq.
  - by apply node_at_set_node_ne.
Qed.

(** What [AddChild n c] leaves: [c] is the last child of [n] and [n] its
    parent; no other link, no table and no symbol is touched. *)
Definition child_added (n : addr) (c : NodeRef) (h h' : heap) : Prop :=
  children (node_at h' n) = (children (node_at h n) ++ [c])%list
  ∧ (∀ a, a ≠ n -> children (node_at h' a) = children (node_at h a))
  ∧ (∀ a, parent (node_at h' a)
          = if decide (a = addr_of c) then Some (Generic n)
            else parent (node_at h a))
  ∧ (∀ a, symbols (node_at h' a) = symbols (node_at h a)
          ∧ owner (node_at h' a) = owner (node_at h a))
  ∧ syms h' = syms h ∧ concretes h' = concretes h
  ∧ next_node h' = next_node h.

Lemma AddChild_spec n c h : ∃ h', AddChild n c h = Ok tt h' ∧ child_added n c h h'.
Proof.
  unfold AddChild, SetParent, bind, modify. eexists. split; [reflexivity|].
  unfold child_added.
  repeat split; intros; rewrite ?node_at_set_node;
    repeat (case_decide; simplify_eq; cbn [parent owner children symbols];
            rewrite ?node_at_set_node); done.
Qed.

(** The loop of [AdoptChildren]. *)
Lemma AddChild_each_spec n cs :
  ∀ h, ∃ h',
    AddChild_each n cs h = Ok tt h'
    ∧ children (node_at h' n) = (children (node_at h n) ++ cs)%list
    ∧ (∀ a, a ≠ n -> children (node_at h' a) = children (node_at h a))
    ∧ (∀ a, parent (node_at h' a)
            = if decide (a ∈ addr_of <$> cs) then Some (Generic n)
              else parent (node_at h a))
    ∧ (∀ a, symbols (node_at h' a) = symbols (node_at h a)
            ∧ owner (node_at h' a) = owner (node_at h a))
    ∧ syms h' = syms h ∧ concretes h' = concretes h
    ∧ next_node h' = next_node h.
Proof.
  induction cs as [|c cs IH]; intros h.
  - exists h. repeat split; try done. by rewrite app_nil_r.
  - cbn [AddChild_each]. unfold bind at 1.
    destruct (AddChild_spec n c h)
      as (h1 & -> & Hc1 & Ho1 & Hp1 & Hs1 & Hy1 & Hk1 & Hn1).
    destruct (IH h1) as (h' & -> & Hc & Ho & Hp & Hs & Hy & Hk & Hn).
    exists h'. split; [done|]. repeat split.
    + by rewrite Hc, Hc1, <-app_assoc.
    + intros a Ha. by rewrite Ho, Ho1.
    + intros a. rewrite Hp, Hp1, fmap_cons.
      destruct (decide (a ∈ addr_of <$> cs)) as [Hin|Hin].
      * rewrite decide_True; [done|by right].
      * destruct (decide (a = addr_of c)) as [->|E].
        -- rewrite decide_True; [done|by left].
        -- rewrite decide_False; [done|].
           by intros [?|?]%elem_of_cons.
    + by rewrite (proj1 (Hs a)), (proj1 (Hs1 a)).
    + by rewrite (proj2 (Hs a)), (proj2 (Hs1 a)).
    + congruence.
    + congruence.
    + congruence.
Qed.

(** What [AdoptChildren] leaves when the two nodes differ. *)
Lemma AdoptChildren_spec (n : addr) (other : NodeRef) (h : heap) :
  n ≠ addr_of other ->
  ∃ h', AdoptChildren n other h = Ok tt h'
        ∧ Children n h' = (Children n h ++ Children (addr_of other) h)%list
        ∧ Children (addr_of other) h' = []
        ∧ (∀ c, c ∈ Children (addr_of other) h ->
                Parent (addr_of c) h' = Some (Generic n))
        ∧ (∀ a, a ∉ addr_of <$> Children (addr_of other) h ->
                Parent a h' = Parent a h)
        ∧ (∀ a, a ≠ n -> a ≠ addr_of other -> Children a h' = Children a h)
        ∧ (∀ a, symbols (node_at h' a) = symbols (node_at h a))
        ∧ syms h' = syms h.
Proof.
  intros Hne. unfold AdoptChildren, bind at 1.
  destruct (AddChild_each_spec n (Children (addr_of other) h) h)
    as (h1 & H1 & Hc & Ho & Hp & Hs & Hy & Hk & Hn).
  unfold bind at 1. rewrite H1. unfold ClearChildren, modify.
  eexists. split; [reflexivity|]. unfold Children, Parent.
  repeat split.
  - by rewrite node_at_set_node_ne, Hc.
  - by rewrite node_at_set_node_eq.
  - intros c Hin. rewrite node_at_set_node.
    assert (parent (node_at h1 (addr_of c)) = Some (Generic n)) as Hpc.
    { rewrite Hp, decide_True; [done|]. by apply list_elem_of_fmap_2. }
    destruct (decide (addr_of other = addr_of c)) as [E|_]; [|done].
    cbn [parent]. by rewrite E.
  - intros a Hin. rewrite node_at_set_node.
    assert (parent (node_at h1 a) = parent (node_at h a)) as Hpa
      by by rewrite Hp, decide_False.
    destruct (decide (addr_of other = a)) as [E|_]; [|done].
    cbn [parent]. by rewrite E.
  - intros a Ha1 Ha2. by rewrite node_at_set_node_ne, Ho.
  - intros a. rewrite node_at_set_node.
    destruct (decide (addr_of other = a)) as [E|_]; cbn [symbols];
      rewrite ?E; apply Hs.
  - done.
Qed.

(** X7. [AdoptChildren] on a node other than the one it takes from moves
    the children: they follow the children the node had, in their order;
    each has the node as its parent; the other node is left without
    children; the parent of no other node changes, and no symbol table and
    no symbol is touched. *)
Theorem AdoptChildren_moves (n : addr) (other : NodeRef) (h : heap) :
  n ≠ addr_of other ->
  ∃ h', AdoptChildren n other h = Ok tt h'
        ∧ Children n h' = (Children n h ++ Children (addr_of other) h)%list
        ∧ Children (addr_of other) h' = []
        ∧ (∀ c, c ∈ Children (addr_of other) h ->
                Parent (addr_of c) h' = Some (Generic n))
        ∧ (∀ a, a ∉ addr_of <$> Children (addr_of other) h ->
                Parent a h' = Parent a h)
        ∧ (∀ a, a ≠ n -> a ≠ addr_of other -> Children a h' = Children a h)
        ∧ (∀ a, symbols (node_at h' a) = symbols (node_at h a))
        ∧ syms h' = syms h.
Proof. apply AdoptChildren_spec. Qed.

Lemma AdoptChildren_moves_witness :
  ∃ h', AdoptChildren O (Generic 2%nat) two_files = Ok tt h'
        ∧ Children O h' = [Generic 1%nat; Generic 3%nat; Generic 4%nat]
        ∧ Children 2%nat h' = [].
Proof.
  destruct (AdoptChildren_moves O (Generic 2%nat) two_files)
    as (h' & H & Hc & Ho & _); [done|].
  exists h'. split; [exact H|]. split; [|exact Ho].
  rewrite Hc. vm_compute. reflexivity.
Defined.

(** X8. A node that adopts the children of itself ends without children. *)
Theorem AdoptChildren_self (n : addr) (other : NodeRef) (h : heap) :
  addr_of other = n ->
  ∃ h', AdoptChildren n other h = Ok tt h' ∧ Children n h' = [].
Proof.
  intros <-. unfold AdoptChildren, bind at 1.
  destruct (AddChild_each_spec (addr_of other) (Children (addr_of other) h) h)
    as (h1 & H1 & _).
  unfold bind at 1. rewrite H1. unfold ClearChildren, modify.
  eexists. split; [reflexivity|]. unfold Children.
  by rewrite node_at_set_node_eq.
Qed.

Lemma AdoptChildren_self_witness :
  Children O two_files = [Generic 1%nat]
  ∧ ∃ h', AdoptChildren O (Generic O) two_files = Ok tt h'
          ∧ Children O h' = [].
Proof.
  split; [vm_compute; reflexivity|].
  apply (AdoptChildren_self O (Generic O) two_files). reflexivity.
Defined.

(** ** [ImportSymbols] a second time *)

Lemma first_named_some h k order q :
  q ∈ order -> sValue (sym_at h q) = k -> is_Some (first_named h k order).
Proof.
  induction order as [|p order IH]; intros Hin Hk; simpl.
  - by apply elem_of_nil in Hin.
  - destruct (decide (sValue (sym_at h p) = k)); [by eexists|].
    apply elem_of_cons in Hin as [->|Hin]; [done|by apply IH].
Qed.

(** An entry of a table after the loop was there before, or is a symbol of
    [order] in the table of [n]. *)
Lemma ImportSymbols_loop_entries n order :
  ∀ h h', ImportSymbols_loop n order h = Ok tt h' ->
    ∀ a k q, symbols (node_at h' a) !! k = Some q ->
             symbols (node_at h a) !! k = Some q ∨ (a = n ∧ q ∈ order).
Proof.
  induction order as [|p order IH]; intros h h'.
  - intros [= <-]. by left.
  - rewrite ImportSymbols_loop_step. intros Hrun a k q Hq.
    destruct (IH _ _ Hrun a k q Hq) as [Hold|[-> Hin]];
      [|right; split; [done|by right]].
    destruct (import_one_cases n p h) as [(Hv & Hfree & E)|(_ & E)];
      rewrite E in Hold; [|by left].
    destruct (decide (a = n)) as [->|Hne].
    + rewrite added_table in Hold.
      destruct (decide (sValue (sym_at h p) = k)) as [<-|Hk].
      * rewrite lookup_insert_eq in Hold. injection Hold as <-.
        right. split; [done|by left].
      * rewrite lookup_insert_ne in Hold by done. by left.
    + rewrite added_node_other in Hold by done. by left.
Qed.

(** Where every symbol of [order] has an empty name or a name the table of
    [n] has, the loop writes nothing. *)
Lemma ImportSymbols_loop_noop n order h :
  (∀ q, q ∈ order ->
        sValue (sym_at h q) = EmptyString
        ∨ is_Some (symbols (node_at h n) !! sValue (sym_at h q))) ->
  ImportSymbols_loop n order h = Ok tt h.
Proof.
  induction order as [|p order IH]; intros Hall; [done|].
  rewrite ImportSymbols_loop_step.
  destruct (import_one_cases n p h) as [(Hv & Hfree & _)|(_ & ->)].
  - destruct (Hall p) as [E|[x Hx]]; [by left|done|congruence].
  - apply IH. intros q Hq. apply Hall. by right.
Qed.

(** X9. Importing the symbols of a node a second time changes nothing,
    whatever the order in which the table of the other node is visited
    each time. *)
Theorem ImportSymbols_again (n : addr) (other : NodeRef) (h h1 : heap)
    (order1 order2 : list sym_ptr) :
  order1 ≡ₚ Symbols (addr_of other) h ->
  ImportSymbols_loop n order1 h = Ok tt h1 ->
  order2 ≡ₚ Symbols (addr_of other) h1 ->
  ImportSymbols_loop n order2 h1 = Ok tt h1.
Proof.
  intros Hp1 Hrun Hp2. apply ImportSymbols_loop_noop. intros q Hq.
  assert (q ∈ order1) as Hq1.
  { rewrite Hp2 in Hq. unfold Symbols in Hq.
    apply list_elem_of_fmap in Hq as ([k q'] & -> & Hkq).
    apply elem_of_map_to_list in Hkq.
    destruct (ImportSymbols_loop_entries _ _ _ _ Hrun _ _ _ Hkq)
      as [Hold|[_ Hin]]; [|done].
    rewrite Hp1. unfold Symbols. apply list_elem_of_fmap.
    exists (k, q'). split; [done|]. by apply elem_of_map_to_list. }
  destruct (ImportSymbols_loop_spec n order1 h)
    as (h' & Hrun' & Hval & Hkeep & Hnew & _).
  rewrite Hrun in Hrun'. injection Hrun' as <-. rewrite Hval.
  destruct (decide (sValue (sym_at h q) = EmptyString)) as [E|E]; [by left|].
  right. destruct (symbols (node_at h n) !! sValue (sym_at h q)) as [x|] eqn:Hx.
  - rewrite (Hkeep _ _ Hx). by eexists.
  - rewrite (Hnew _ Hx). destruct (decide _); [done|].
    by apply (first_named_some _ _ _ q).
Qed.

(** The heap after the symbols of the second root of [two_files] are
    imported into the first. *)
Definition imported_once : heap :=
  match ImportSymbols O (Generic 2%nat) two_files with
  | Ok _ h => h
  | _ => two_files
  end.

Lemma ImportSymbols_again_witness :
  ImportSymbols_loop O (Symbols 2%nat imported_once) imported_once
  = Ok tt imported_once.
Proof.
  apply (ImportSymbols_again O (Generic 2%nat) two_files imported_once
           (Symbols 2%nat two_files) (Symbols 2%nat imported_once)).
  - reflexivity.
  - vm_compute. reflexivity.
  - reflexivity.
Defined.

(** ** Making a node *)

(** What [newBaseNode] makes and links. *)
Lemma newBaseNode_spec (p : NodeRef) (mk : baseNode -> concrete)
    (h : heap) :
  addr_of p ≠ next_node h ->
  let a := next_node h in
  ∃ h', newBaseNode (Some p) mk h = Ok a h'
        ∧ node_at h' a
          = mkNode (Some (Generic (addr_of p))) (Some (Concrete a)) [] ∅
        ∧ concrete_at h' a = Some (mk (mkBase EmptyString (Some (Concrete a))))
        ∧ Children (addr_of p) h'
          = (Children (addr_of p) h ++ [Generic a])%list
        ∧ Parent (addr_of p) h' = Parent (addr_of p) h
        ∧ symbols (node_at h' (addr_of p)) = symbols (node_at h (addr_of p))
        ∧ (∀ b, b ≠ a -> b ≠ addr_of p -> node_at h' b = node_at h b)
        ∧ (∀ b, b ≠ a -> concrete_at h' b = concrete_at h b)
        ∧ syms h' = syms h
        ∧ next_node h' = S a.
Proof.
  intros Hne a. unfold newBaseNode, newNode, bind, get, alloc_node, modify, ret.
  fold a. set (h0 := mkHeap _ _ _ _ _).
  destruct (AddChild_spec (addr_of p) (Generic a) h0)
    as (h1 & -> & Hc & Ho & Hp & Hs & Hy & Hk & Hn).
  assert (H0 : ∀ b, node_at h0 b
                    = if decide (a = b)
                      then mkNode (Some p) (Some (Concrete a)) [] ∅
                      else node_at h b).
  { intros b. unfold node_at, h0. cbn [nodes].
    destruct (decide (a = b)) as [->|E].
    - apply lookup_total_insert_eq.
    - by apply lookup_total_insert_ne. }
  eexists. split; [reflexivity|]. cbn [addr_of] in *.
  assert (Hnode : ∀ b, node_at (set_concrete a
                     (mk (mkBase EmptyString (Some (Concrete a)))) h1) b
                       = node_at h1 b) by reflexivity.
  unfold Children, Parent, concrete_at. rewrite !Hnode.
  repeat split.
  - pose proof (Hp a) as Hpa. pose proof (Hs a) as [Hsa Hoa].
    pose proof (Ho a (not_eq_sym Hne)) as Hca.
    rewrite H0 in Hpa, Hsa, Hoa, Hca. rewrite !decide_True in * by done.
    destruct (node_at h1 a) as [pp oo cc ss]. simpl in *. by subst.
  - cbn [set_concrete concretes]. apply lookup_insert_eq.
  - rewrite Hc, H0. by rewrite decide_False.
  - rewrite Hp, H0. by rewrite !decide_False by done.
  - rewrite (proj1 (Hs _)), H0. by rewrite decide_False.
  - intros b Hb1 Hb2. rewrite Hnode. pose proof (Hp b) as Hpb. pose proof (Hs b) as [Hsb Hob].
    pose proof (Ho b Hb2) as Hcb.
    rewrite H0 in Hpb, Hsb, Hob, Hcb.
    rewrite !decide_False in * by done.
    destruct (node_at h1 b), (node_at h b). simpl in *. by subst.
  - intros b Hb. cbn [set_concrete concretes].
    rewrite lookup_insert_ne by done. by rewrite Hk.
  - cbn [set_concrete syms]. by rewrite Hy.
  - cbn [set_concrete next_node]. by rewrite Hn.
Qed.

(** X10. A concrete node made under a parent is a new node without
    children and without symbols, its own owner, with the empty name.  The
    parent it records is the node embedded in the parent it was given, and
    what the parent gets as its last child is the new embedded node; nothing
    else of the parent and no other node changes.  The parent must be a node
    allocated before. *)
Theorem newBaseNode_links (p : NodeRef) (mk : baseNode -> concrete)
    (h : heap) :
  addr_of p ≠ next_node h ->
  let a := next_node h in
  ∃ h', newBaseNode (Some p) mk h = Ok a h'
        ∧ node_at h' a
          = mkNode (Some (Generic (addr_of p))) (Some (Concrete a)) [] ∅
        ∧ concrete_at h' a = Some (mk (mkBase EmptyString (Some (Concrete a))))
        ∧ Children (addr_of p) h'
          = (Children (addr_of p) h ++ [Generic a])%list
        ∧ Parent (addr_of p) h' = Parent (addr_of p) h
        ∧ symbols (node_at h' (addr_of p)) = symbols (node_at h (addr_of p))
        ∧ (∀ b, b ≠ a -> b ≠ addr_of p -> node_at h' b = node_at h b)
        ∧ (∀ b, b ≠ a -> concrete_at h' b = concrete_at h b)
        ∧ syms h' = syms h
        ∧ next_node h' = S a.
Proof. apply newBaseNode_spec. Qed.

Lemma newBaseNode_links_witness :
  ∃ h', NewPropertyNode (Some (Concrete 1%nat)) root_with_class = Ok 2%nat h'
        ∧ Parent 2%nat h' = Some (Generic 1%nat)
        ∧ Children 1%nat h' = [Generic 2%nat].
Proof.
  destruct (newBaseNode_links (Concrete 1%nat)
              (fun b => IsProperty
                 (mkProperty b EmptyString None None [] false EmptyString))
              root_with_class) as (h' & H & Hn & _ & Hc & _); [by vm_compute|].
  exists h'. split; [exact H|]. split.
  - unfold Parent.
    change (node_at h' 2%nat) with (node_at h' (next_node root_with_class)).
    by rewrite Hn.
  - cbn [addr_of] in Hc. rewrite Hc. reflexivity.
Defined.

(** ** [Ancestors] and [Path] *)

(** [node.Ancestors], with a bound [fuel] on the depth of the recursion along
    the parent chain. *)
Fixpoint Ancestors_rec (fuel : nat) (n : addr) : M heap (list NodeRef) :=
  match fuel with
  | O => fun _ => Diverge
  | S fuel' =>
      let* h := get in
      match Parent n h with
      | Some p =>
          let* up := Ancestors_rec fuel' (addr_of p) in
          ret (up ++ [p])%list
      | None => ret []
      end
  end.

(** [node.Ancestors] *)
Definition Ancestors (n : addr) : M heap (list NodeRef) :=
  fun h => Ancestors_rec (S (next_node h)) n h.

(** [node.Path] *)
Definition Path (n : addr) : M heap (list NodeRef) :=
  let* path := Ancestors n in
  let* h := get in
  match owner (node_at h n) with
  | Some o => ret (path ++ [o])%list
  | None => ret (path ++ [Generic n])%list
  end.

(** The parents of [n], nearest first, up to the node that has none. *)
Inductive parents (h : heap) : addr -> list NodeRef -> Prop :=
| parents_top n : parent (node_at h n) = None -> parents h n []
| parents_up n p l :
    parent (node_at h n) = Some p -> parents h (addr_of p) l ->
    parents h n (p :: l).

Lemma Ancestors_rec_parents h n l :
  parents h n l ->
  ∀ fuel, (length l < fuel)%nat -> Ancestors_rec fuel n h = Ok (rev l) h.
Proof.
  induction 1 as [n Hp|n p l Hp Hup IH]; intros fuel Hfuel;
    (destruct fuel as [|fuel]; [simpl in Hfuel; lia|]);
    simpl; unfold bind, get, ret, Parent; rewrite Hp; [done|].
  rewrite IH by (simpl in Hfuel; lia). done.
Qed.

(** X11. [Ancestors] lists the parents of a node from the topmost one down
    to its own parent, and [Path] adds the owner of the node, or the node
    itself when it has none; neither writes anything.  The chain must be as
    short as a chain of distinct allocated nodes is. *)
Theorem Ancestors_outermost_first (h : heap) (n : addr) (l : list NodeRef) :
  parents h n l ->
  (length l <= next_node h)%nat ->
  Ancestors n h = Ok (rev l) h
  ∧ Path n h = Ok (rev l ++ [default (Generic n) (owner (node_at h n))])%list h.
Proof.
  intros Hp Hlen.
  assert (Ancestors n h = Ok (rev l) h) as Ha.
  { unfold Ancestors. apply Ancestors_rec_parents; [done|lia]. }
  split; [done|]. unfold Path, bind, get. rewrite Ha.
  by destruct (owner (node_at h n)).
Qed.

Lemma Ancestors_outermost_first_witness :
  Ancestors 1%nat root_with_class = Ok [Generic O] root_with_class
  ∧ Path 1%nat root_with_class
    = Ok [Generic O; Concrete 1%nat] root_with_class.
Proof.
  apply (Ancestors_outermost_first root_with_class 1%nat [Generic O]).
  - apply parents_up; [reflexivity|]. by apply parents_top.
  - vm_compute. lia.
Defined.

(** ** The analyzer only takes tokens *)

(** [c] only takes tokens from the front of the queue: when it returns, the
    queue is what is left of the queue it found. *)
Definition shrinks {A} (c : M astate A) : Prop :=
  ∀ st a st', c st = Ok a st' -> queue st' `suffix_of` queue st.

Lemma bind_ext {S A B} (c : M S A) (k1 k2 : A -> M S B) s :
  (∀ a s1, c s = Ok a s1 -> k1 a s1 = k2 a s1) ->
  bind c k1 s = bind c k2 s.
Proof. intros H. unfold bind. destruct (c s); [by apply H|done..]. Qed.

Lemma shrinks_ret {A} (a : A) : shrinks (ret a).
Proof. by intros st a' st' [= _ <-]. Qed.

Lemma shrinks_raise {A} p : shrinks (@raise astate A p).
Proof. by intros st a st'. Qed.

Lemma shrinks_get : shrinks (@get astate).
Proof. by intros st a st' [= _ <-]. Qed.

Lemma shrinks_bind {A B} (c : M astate A) (k : A -> M astate B) :
  shrinks c -> (∀ a, shrinks (k a)) -> shrinks (bind c k).
Proof.
  intros Hc Hk st b st' (a & st1 & H1 & H2)%bind_Ok_inv.
  etrans; [by eapply Hk|by eapply Hc].
Qed.

Lemma shrinks_lift {A} (c : M heap A) : shrinks (lift c).
Proof.
  intros st a st'. unfold lift.
  destruct (c (hp st)) as [a0 h0| |]; [|done..]. by intros [= _ <-].
Qed.

Lemma shrinks_Peek : shrinks Peek.
Proof. by intros st a st' [= _ <-]. Qed.

Lemma shrinks_Dequeue : shrinks Dequeue.
Proof.
  intros st a st'. unfold Dequeue.
  destruct (queue st) as [|t q] eqn:E; intros [= _ <-]; [by rewrite E|].
  simpl. by apply suffix_cons_r.
Qed.

Ltac shrinks_step :=
  first
    [ apply shrinks_ret | apply shrinks_raise | apply shrinks_get
    | apply shrinks_Peek | apply shrinks_Dequeue | apply shrinks_lift
    | assumption
    | apply shrinks_bind; [|intros ?]
    | match goal with
      | |- shrinks (match ?x with _ => _ end) => destruct x
      | |- shrinks (if ?b then _ else _) => destruct b
      | |- shrinks (let '(_, _) := ?x in _) => destruct x
      end ].

(** [c] takes at least one token whenever what it returns satisfies
    [good]. *)
Definition takes {A} (good : A -> Prop) (c : M astate A) : Prop :=
  ∀ st a st', c st = Ok a st' -> good a ->
              (length (queue st') < length (queue st))%nat.

Definition is_Got {A} (r : or_error A) : Prop :=
  match r with Got _ => True | Failed _ => False end.

Section Shrinks.

Variable hasUnicode : string -> string -> bool.
Variable import_path : string -> string -> string.
Variable read_file : string -> option string.
Variable filename : string.
Variable Analyze_import : Analyzer -> M heap (option NodeRef * option error).

Lemma shrinks_expectOp op : shrinks (expectOp filename op).
Proof. unfold expectOp. repeat shrinks_step. Qed.

Lemma shrinks_expectToken t : shrinks (expectToken hasUnicode filename t).
Proof. unfold expectToken. repeat shrinks_step. Qed.

Lemma shrinks_optionalOp op : shrinks (optionalOp op).
Proof. unfold optionalOp. repeat shrinks_step. Qed.

Lemma shrinks_optionalToken t : shrinks (optionalToken hasUnicode t).
Proof. unfold optionalToken. repeat shrinks_step. Qed.

Lemma shrinks_getNamespacedIdentifier :
  shrinks (getNamespacedIdentifier filename).
Proof.
  unfold getNamespacedIdentifier.
  repeat first [apply shrinks_expectOp | apply shrinks_optionalOp
               | shrinks_step].
Qed.

Lemma shrinks_getQualifierIdentifier :
  shrinks (getQualifierIdentifier hasUnicode filename).
Proof.
  unfold getQualifierIdentifier.
  repeat first [apply shrinks_expectToken | apply shrinks_optionalToken
               | apply shrinks_getNamespacedIdentifier | shrinks_step].
Qed.

Ltac shrinks_prim :=
  first [ apply shrinks_expectOp | apply shrinks_expectToken
        | apply shrinks_optionalOp | apply shrinks_optionalToken
        | apply shrinks_getNamespacedIdentifier
        | apply shrinks_getQualifierIdentifier ].

Lemma shrinks_property_head root :
  shrinks (property_head hasUnicode filename root).
Proof. unfold property_head. repeat first [shrinks_prim | shrinks_step]. Qed.

Lemma shrinks_defaults_loop fuel node :
  shrinks (defaults_loop hasUnicode filename fuel node).
Proof.
  induction fuel as [|fuel IH]; [by intros st a st'|].
  cbn [defaults_loop]. repeat first [shrinks_prim | shrinks_step].
Qed.

Lemma shrinks_property_defaults node :
  shrinks (property_defaults hasUnicode filename node).
Proof.
  unfold property_defaults.
  repeat first [apply shrinks_defaults_loop | shrinks_prim | shrinks_step].
Qed.

Lemma shrinks_property_tail node :
  shrinks (property_tail hasUnicode filename node).
Proof. unfold property_tail. repeat first [shrinks_prim | shrinks_step]. Qed.

Lemma shrinks_analyzeProperty root :
  shrinks (analyzeProperty hasUnicode filename root).
Proof.
  unfold analyzeProperty.
  repeat first [ apply shrinks_property_head | apply shrinks_property_defaults
               | apply shrinks_property_tail | shrinks_step ].
Qed.

Lemma shrinks_scope_loop fuel root :
  shrinks (scope_loop hasUnicode filename fuel root).
Proof.
  induction fuel as [|fuel IH]; [by intros st a st'|].
  cbn [scope_loop].
  repeat first [apply shrinks_analyzeProperty | shrinks_prim | shrinks_step].
Qed.

Lemma shrinks_analyzeScope root :
  shrinks (analyzeScope hasUnicode filename root).
Proof.
  unfold analyzeScope.
  repeat first [apply shrinks_scope_loop | shrinks_prim | shrinks_step].
Qed.

Lemma shrinks_analyzeClass root :
  shrinks (analyzeClass hasUnicode filename root).
Proof.
  unfold analyzeClass.
  repeat first [apply shrinks_analyzeScope | shrinks_prim | shrinks_step].
Qed.

Lemma shrinks_analyzeEnum root :
  shrinks (analyzeEnum hasUnicode filename root).
Proof.
  unfold analyzeEnum.
  repeat first [apply shrinks_analyzeScope | shrinks_prim | shrinks_step].
Qed.

Lemma shrinks_handleToken t root :
  shrinks (handleToken hasUnicode import_path read_file filename
             Analyze_import t root).
Proof.
  unfold handleToken, handlePreprocessToken, handleIdentifierToken, importFile.
  repeat first [ apply shrinks_analyzeClass | apply shrinks_analyzeEnum
               | shrinks_prim | shrinks_step ].
Qed.


(** *** Each pass of a loop takes a token *)

Lemma expectOp_takes op : takes is_Got (expectOp filename op).
Proof.
  intros st r st'. unfold expectOp, bind, Peek, Dequeue, ret.
  destruct (queue st) as [|t q] eqn:E; simpl; [by intros [= <- _]|].
  destruct (negb _); [by intros [= <- _]|].
  rewrite E. intros [= _ <-] _. simpl. lia.
Qed.

Lemma lift_queue {A} (c : M heap A) st a st' :
  lift c st = Ok a st' -> queue st' = queue st.
Proof.
  unfold lift. destruct (c (hp st)); [|done..]. by intros [= _ <-].
Qed.

Lemma getNamespacedIdentifier_takes :
  takes is_Got (getNamespacedIdentifier filename).
Proof.
  intros st r st'. unfold getNamespacedIdentifier.
  intros (r1 & st1 & H1 & H2)%bind_Ok_inv Hgot.
  destruct r1 as [id|err]; [|injection H2 as <- _; done].
  pose proof (expectOp_takes _ _ _ _ H1 I) as Hlt.
  match type of H2 with
  | ?c _ = _ =>
      assert (shrinks c) as Hs
        by repeat first [shrinks_prim | shrinks_step]
  end.
  apply Hs, suffix_length in H2. lia.
Qed.

Lemma property_head_takes root :
  takes is_Got (property_head hasUnicode filename root).
Proof.
  intros st r st'. unfold property_head.
  intros (node & st0 & H0 & H)%bind_Ok_inv Hgot.
  apply lift_queue in H0.
  apply bind_Ok_inv in H as (r1 & st1 & H1 & H2).
  destruct r1 as [t1|err]; [|injection H2 as <- _; done].
  pose proof (expectOp_takes _ _ _ _ H1 I) as Hlt.
  match type of H2 with
  | ?c _ = _ =>
      assert (shrinks c) as Hs
        by repeat first [shrinks_prim | shrinks_step]
  end.
  apply Hs, suffix_length in H2. rewrite H0 in Hlt. lia.
Qed.

Lemma analyzeProperty_takes root :
  takes (fun e => e = None) (analyzeProperty hasUnicode filename root).
Proof.
  intros st e st'. unfold analyzeProperty.
  intros (r & st1 & H1 & H2)%bind_Ok_inv ->.
  destruct r as [node|err]; [|done].
  pose proof (property_head_takes _ _ _ _ H1 I) as Hlt.
  match type of H2 with
  | ?c _ = _ =>
      assert (shrinks c) as Hs
        by repeat first [ apply shrinks_property_defaults
                        | apply shrinks_property_tail | shrinks_step ]
  end.
  apply Hs, suffix_length in H2. lia.
Qed.

(** *** The bounds of the loops are enough *)

Lemma defaults_loop_more fuel node :
  ∀ st, (length (queue st) < fuel)%nat ->
        defaults_loop hasUnicode filename (S fuel) node st
        = defaults_loop hasUnicode filename fuel node st.
Proof.
  induction fuel as [|fuel IH]; intros st Hlen; [lia|].
  cbn [defaults_loop].
  apply bind_ext. intros [tokens|err] st1 E1; [|done].
  pose proof (getNamespacedIdentifier_takes _ _ _ E1 I) as Hlt.
  apply bind_ext. intros sym st2 E2%lift_queue.
  apply bind_ext. intros [] st3 E3%lift_queue.
  apply bind_ext. intros [t|] st4 E4; [|done].
  apply shrinks_optionalToken, suffix_length in E4.
  rewrite E3, E2 in E4. apply IH. lia.
Qed.

Lemma scope_loop_more fuel root :
  ∀ st, (length (queue st) < fuel)%nat ->
        scope_loop hasUnicode filename (S fuel) root st
        = scope_loop hasUnicode filename fuel root st.
Proof.
  induction fuel as [|fuel IH]; intros st Hlen; [lia|].
  cbn [scope_loop].
  apply bind_ext. intros [err|] st1 E1; [done|].
  pose proof (analyzeProperty_takes _ _ _ _ E1 eq_refl) as Hlt.
  apply bind_ext. intros [t|] st2 E2; [done|].
  apply shrinks_optionalToken, suffix_length in E2.
  apply IH. lia.
Qed.

Lemma Analyze_loop_more fuel root :
  ∀ st, (length (queue st) < fuel)%nat ->
        Analyze_loop hasUnicode import_path read_file filename Analyze_import
          (S fuel) root st
        = Analyze_loop hasUnicode import_path read_file filename
            Analyze_import fuel root st.
Proof.
  induction fuel as [|fuel IH]; intros st Hlen; [lia|].
  cbn [Analyze_loop].
  apply bind_ext. intros [t|] st1 E1; [|done].
  assert (length (queue st1) < length (queue st))%nat as Hlt.
  { unfold Dequeue in E1. destruct (queue st) as [|t' q]; [done|].
    injection E1 as _ <-. simpl. lia. }
  destruct (Error t); [done|].
  apply bind_ext. intros [err|] st2 E2; [done|].
  apply shrinks_handleToken, suffix_length in E2.
  apply IH. lia.
Qed.

End Shrinks.

(** X12. Whatever a top-level token starts (a directive, a class, an
    enumeration, or an error), the analyzer only takes tokens from the front
    of the queue: when the handling returns, with or without an error, the
    queue is a suffix of the queue it found; no token is put back, added or
    taken out of turn. *)
Theorem analysis_only_takes_tokens
    (hasUnicode : string -> string -> bool)
    (import_path : string -> string -> string)
    (read_file : string -> option string) (filename : string)
    (Analyze_import : Analyzer -> M heap (option NodeRef * option error))
    (t : Token) (root : NodeRef) (st st' : astate) (e : option error) :
  handleToken hasUnicode import_path read_file filename Analyze_import
    t root st = Ok e st' ->
  queue st' `suffix_of` queue st.
Proof. apply shrinks_handleToken. Qed.

(** The tokens of [A { uint x; }; enum] after the keyword [class], over an
    empty root. *)
Definition class_start : astate :=
  mkA (fst (Tokenize "A { uint x; }; enum"))
    (analyzed_from empty_heap EmptyString).

Lemma analysis_only_takes_tokens_witness :
  ∃ st', handleToken ascii_fold flat_path no_files EmptyString
           (fun _ => ret (None, None)) (tok OpIdentifier "class" 1 1)
           (Generic O) class_start = Ok None st'
         ∧ queue st' = [tok OpIdentifier "enum" 1 20]
         ∧ queue st' `suffix_of` queue class_start.
Proof.
  eexists. split; [vm_compute; reflexivity|]. split; [reflexivity|].
  apply (analysis_only_takes_tokens ascii_fold flat_path no_files EmptyString
           (fun _ => ret (None, None)) (tok OpIdentifier "class" 1 1)
           (Generic O) class_start _ None).
  vm_compute. reflexivity.
Defined.

Lemma loop_bound_enough (L : nat -> M astate (option error)) :
  (∀ fuel st, (length (queue st) < fuel)%nat -> L (S fuel) st = L fuel st) ->
  ∀ fuel st, (length (queue st) < fuel)%nat ->
             L fuel st = L (S (length (queue st))) st.
Proof.
  intros Hmore. induction fuel as [|fuel IH]; intros st Hlen; [lia|].
  destruct (decide (length (queue st) = fuel)) as [->|Hne]; [done|].
  rewrite Hmore by lia. apply IH. lia.
Qed.

(** X13. Each pass of the three token loops takes at least one token: the
    loop over the defaults of a property, the loop over the properties of a
    scope and the loop over the top-level tokens make no more passes than
    the queue has tokens.  So the bound on the passes in the model is never
    what ends them: any greater bound gives the same outcome. *)
Theorem token_loops_end
    (hasUnicode : string -> string -> bool)
    (import_path : string -> string -> string)
    (read_file : string -> option string) (filename : string)
    (Analyze_import : Analyzer -> M heap (option NodeRef * option error))
    (root : NodeRef) (node : addr) (fuel : nat) (st : astate) :
  (length (queue st) < fuel)%nat ->
  defaults_loop hasUnicode filename fuel node st
  = defaults_loop hasUnicode filename (S (length (queue st))) node st
  ∧ scope_loop hasUnicode filename fuel root st
    = scope_loop hasUnicode filename (S (length (queue st))) root st
  ∧ Analyze_loop hasUnicode import_path read_file filename Analyze_import
      fuel root st
    = Analyze_loop hasUnicode import_path read_file filename Analyze_import
        (S (length (queue st))) root st.
Proof.
  intros Hlen. repeat split.
  - apply (loop_bound_enough
             (fun f => defaults_loop hasUnicode filename f node)); [|done].
    intros f s. apply defaults_loop_more.
  - apply (loop_bound_enough
             (fun f => scope_loop hasUnicode filename f root)); [|done].
    intros f s. apply scope_loop_more.
  - apply (loop_bound_enough
             (fun f => Analyze_loop hasUnicode import_path read_file filename
                         Analyze_import f root)); [|done].
    intros f s. apply Analyze_loop_more.
Qed.

Lemma token_loops_end_witness :
  length (queue class_start) = 8%nat
  ∧ Analyze_loop ascii_fold flat_path no_files EmptyString
      (fun _ => ret (None, None)) 100 (Generic O) class_start
    = Analyze_loop ascii_fold flat_path no_files EmptyString
        (fun _ => ret (None, None)) 9 (Generic O) class_start.
Proof.
  split; [reflexivity|].
  apply (token_loops_end ascii_fold flat_path no_files EmptyString
           (fun _ => ret (None, None)) (Generic O) O 100 class_start).
  vm_compute. lia.
Defined.

(** ** Declarations *)

Lemma bind_Ok_eq {S A B} (c : M S A) (k : A -> M S B) s a s1 :
  c s = Ok a s1 -> bind c k s = k a s1.
Proof. intros H. unfold bind. by rewrite H. Qed.

Lemma bind_Panic_eq {S A B} (c : M S A) (k : A -> M S B) s p :
  c s = Panic p -> bind c k s = Panic p.
Proof. intros H. unfold bind. by rewrite H. Qed.

Lemma lift_Ok_eq {A} (c : M heap A) q h a h' :
  c h = Ok a h' -> lift c (mkA q h) = Ok a (mkA q h').
Proof. intros H. unfold lift. simpl. by rewrite H. Qed.

Lemma lift_Panic_eq {A} (c : M heap A) q h p :
  c h = Panic p -> lift c (mkA q h) = @Panic astate A p.
Proof. intros H. unfold lift. simpl. by rewrite H. Qed.

Lemma base_of_with_base b c : base_of (with_base b c) = b.
Proof. by destruct c. Qed.

Lemma newBaseNode_next_sym parent mk h a h' :
  newBaseNode parent mk h = Ok a h' -> next_sym h' = next_sym h.
Proof.
  unfold newBaseNode, newNode, bind, get, alloc_node, AddChild, SetParent,
    bind, modify, ret.
  destruct parent; by intros [= _ <-].
Qed.

(** The heap in which [base_Symbol] has made the symbol of the node [a]
    named [v]. *)
Definition named (a : addr) (v : string) (c : concrete) (h : heap) : heap :=
  let h2 := set_concrete a (with_base (mkBase v (bOwner (base_of c))) c) h in
  mkHeap (nodes h2)
    (<[next_sym h := mkSymbol v None (bOwner (base_of c))]> (syms h2))
    (concretes h2) (next_node h2) (S (next_sym h)).

Lemma set_Value_concrete a v c h :
  concrete_at h a = Some c ->
  set_Value a v h
  = Ok tt (set_concrete a (with_base (mkBase v (bOwner (base_of c))) c) h).
Proof. intros Hc. unfold set_Value, modify. by rewrite Hc. Qed.

Lemma base_Symbol_named a v c h :
  base_Symbol a
    (set_concrete a (with_base (mkBase v (bOwner (base_of c))) c) h)
  = Ok (next_sym h) (named a v c h).
Proof.
  unfold base_Symbol, bind, get, concrete_at. cbn [set_concrete concretes].
  rewrite lookup_insert_eq, base_of_with_base. reflexivity.
Qed.

Lemma named_node a v c h b : node_at (named a v c h) b = node_at h b.
Proof. reflexivity. Qed.

Lemma named_sym a v c h :
  sym_at (named a v c h) (next_sym h) = mkSymbol v None (bOwner (base_of c)).
Proof. unfold sym_at, named. cbn [syms]. apply lookup_total_insert_eq. Qed.

Lemma named_sym_other a v c h p :
  p ≠ next_sym h -> sym_at (named a v c h) p = sym_at h p.
Proof.
  intros Hne. unfold sym_at, named. cbn [syms set_concrete].
  by apply lookup_total_insert_ne.
Qed.

Lemma named_concrete a v c h :
  concrete_at (named a v c h) a
  = Some (with_base (mkBase v (bOwner (base_of c))) c).
Proof. unfold concrete_at, named. cbn. apply lookup_insert_eq. Qed.

Lemma AddSymbol_clash n q h :
  sValue (sym_at h q) ≠ EmptyString ->
  is_Some (symbols (node_at h n) !! sValue (sym_at h q)) ->
  AddSymbol n (Some q) h = Panic (PanicExistingSymbol (sValue (sym_at h q))).
Proof.
  intros Hv [x Hx]. unfold AddSymbol.
  destruct (decide _); [done|]. by rewrite Hx.
Qed.

Section Declarations.

Variable hasUnicode : string -> string -> bool.
Variable filename : string.

Lemma declaration_clash (mk : baseNode -> concrete)
    (rest : addr -> Token -> M astate (option error))
    (root : NodeRef) (name : Token) (q : list Token) (h : heap) :
  addr_of root ≠ next_node h ->
  Op name = OpIdentifier ->
  Value name ≠ EmptyString ->
  is_Some (symbols (node_at h (addr_of root)) !! Value name) ->
  (let* node := lift (newBaseNode (Some root) mk) in
   let* r := expectOp filename OpIdentifier in
   match r with
   | Failed err => ret (Some err)
   | Got name =>
       let* _ := lift (set_Value node (Value name)) in
       let* s := lift (base_Symbol node) in
       let* _ := lift (AddSymbol (addr_of root) (Some s)) in
       rest node name
   end) (mkA (name :: q) h)
  = Panic (PanicExistingSymbol (Value name)).
Proof.
  intros Hne Hop Hv Hin.
  destruct (newBaseNode_spec root mk h Hne)
    as (h1 & Hnew & _ & Hc & _ & _ & Hs & _).
  rewrite (bind_Ok_eq _ _ _ _ _ (lift_Ok_eq _ _ _ _ _ Hnew)).
  rewrite (bind_Ok_eq _ _ _ _ _ (expectOp_hit filename _ _ _ _ Hop)).
  rewrite (bind_Ok_eq _ _ _ _ _
             (lift_Ok_eq _ _ _ _ _ (set_Value_concrete _ (Value name) _ _ Hc))).
  rewrite (bind_Ok_eq _ _ _ _ _
             (lift_Ok_eq _ _ _ _ _ (base_Symbol_named _ _ _ _))).
  apply bind_Panic_eq, lift_Panic_eq.
  pose proof (AddSymbol_clash (addr_of root) (next_sym h1)
                (named (next_node h) (Value name)
                   (mk (mkBase EmptyString (Some (Concrete (next_node h)))))
                   h1)) as Hcl.
  rewrite named_sym in Hcl. cbn [sValue] in Hcl.
  apply Hcl; [done|]. by rewrite named_node, Hs.
Qed.

(** X14. Declaring a class or an enumeration under a name that the table
    of the enclosing node already holds panics, with the panic of
    [AddSymbol] for an existing symbol: the analyzer returns no error for
    it. *)
Theorem redeclaration_panics (root : NodeRef) (name : Token)
    (q : list Token) (h : heap) :
  addr_of root ≠ next_node h ->
  Op name = OpIdentifier ->
  Value name ≠ EmptyString ->
  is_Some (symbols (node_at h (addr_of root)) !! Value name) ->
  analyzeClass hasUnicode filename root (mkA (name :: q) h)
  = Panic (PanicExistingSymbol (Value name))
  ∧ analyzeEnum hasUnicode filename root (mkA (name :: q) h)
    = Panic (PanicExistingSymbol (Value name)).
Proof.
  intros Hne Hop Hv Hin. split.
  - unfold analyzeClass, NewClassNode.
    by apply (declaration_clash _ (fun node name => _)).
  - unfold analyzeEnum, NewEnumNode.
    by apply (declaration_clash _ (fun node name => _)).
Qed.


Lemma added_node n q h :
  node_at (added n q h) n
  = mkNode (parent (node_at h n)) (owner (node_at h n))
      (children (node_at h n))
      (<[sValue (sym_at h q) := q]> (symbols (node_at h n))).
Proof. unfold added. by rewrite node_at_set_node_eq, node_at_set_sym. Qed.

(** What a declaration that has entered its name leaves: the node [a], made
    by [mk], carries the name [v]; it is the last child of [root] and has
    the node of [root] as its parent; the new symbol [s] is in the table of
    [root] under [v], with [root] as its scope and the concrete node as its
    node. *)
Definition declared (mk : baseNode -> concrete) (root : NodeRef) (a : addr)
    (s : sym_ptr) (v : string) (h h' : heap) : Prop :=
  concrete_at h' a
  = Some (with_base (mkBase v (Some (Concrete a)))
            (mk (mkBase EmptyString (Some (Concrete a)))))
  ∧ symbols (node_at h' (addr_of root))
    = <[v := s]> (symbols (node_at h (addr_of root)))
  ∧ sym_at h' s
    = mkSymbol v (Some (Generic (addr_of root))) (Some (Concrete a))
  ∧ Children (addr_of root) h'
    = (Children (addr_of root) h ++ [Generic a])%list
  ∧ Parent (addr_of root) h' = Parent (addr_of root) h
  ∧ node_at h' a
    = mkNode (Some (Generic (addr_of root))) (Some (Concrete a)) [] ∅
  ∧ (∀ b, b ≠ a -> b ≠ addr_of root -> node_at h' b = node_at h b)
  ∧ (∀ p, p ≠ s -> sym_at h' p = sym_at h p)
  ∧ (∀ b, b ≠ a -> concrete_at h' b = concrete_at h b).

Lemma declaration_enters (mk : baseNode -> concrete)
    (rest : addr -> Token -> M astate (option error))
    (root : NodeRef) (name : Token) (q : list Token) (h : heap) :
  (∀ b, base_of (mk b) = b) ->
  addr_of root ≠ next_node h ->
  Op name = OpIdentifier ->
  Value name ≠ EmptyString ->
  symbols (node_at h (addr_of root)) !! Value name = None ->
  ∃ h', (let* node := lift (newBaseNode (Some root) mk) in
         let* r := expectOp filename OpIdentifier in
         match r with
         | Failed err => ret (Some err)
         | Got name =>
             let* _ := lift (set_Value node (Value name)) in
             let* s := lift (base_Symbol node) in
             let* _ := lift (AddSymbol (addr_of root) (Some s)) in
             rest node name
         end) (mkA (name :: q) h)
        = rest (next_node h) name (mkA q h')
        ∧ declared mk root (next_node h) (next_sym h) (Value name) h h'.
Proof.
  intros Hmk Hne Hop Hv Hfree.
  destruct (newBaseNode_spec root mk h Hne)
    as (h1 & Hnew & Hnode & Hc & Hch & Hpa & Hs & Hoth & Hcoth & Hsy & _).
  pose proof (newBaseNode_next_sym _ _ _ _ _ Hnew) as Hns.
  set (a := next_node h) in *.
  set (c := mk (mkBase EmptyString (Some (Concrete a)))) in *.
  set (hn := named a (Value name) c h1).
  assert (sym_at hn (next_sym h1) = mkSymbol (Value name) None (bOwner (base_of c)))
    as Hsym by apply named_sym.
  assert (AddSymbol (addr_of root) (Some (next_sym h1)) hn
          = Ok tt (added (addr_of root) (next_sym h1) hn)) as Hadd.
  { apply AddSymbol_ok; rewrite Hsym; cbn [sValue]; [done|].
    unfold hn. by rewrite named_node, Hs. }
  exists (added (addr_of root) (next_sym h1) hn). split.
  - rewrite (bind_Ok_eq _ _ _ _ _ (lift_Ok_eq _ _ _ _ _ Hnew)).
    rewrite (bind_Ok_eq _ _ _ _ _ (expectOp_hit filename _ _ _ _ Hop)).
    rewrite (bind_Ok_eq _ _ _ _ _
               (lift_Ok_eq _ _ _ _ _
                  (set_Value_concrete _ (Value name) _ _ Hc))).
    rewrite (bind_Ok_eq _ _ _ _ _
               (lift_Ok_eq _ _ _ _ _ (base_Symbol_named _ _ _ _))).
    by rewrite (bind_Ok_eq _ _ _ _ _ (lift_Ok_eq _ _ _ _ _ Hadd)).
  - assert (bOwner (base_of c) = Some (Concrete a)) as Hown.
    { unfold c. by rewrite Hmk. }
    unfold declared. rewrite <-Hns. repeat split.
    + unfold concrete_at, added. cbn [set_node set_sym concretes].
      fold (concrete_at hn a). unfold hn. by rewrite named_concrete, Hown.
    + rewrite added_node, Hsym. cbn [symbols sValue]. unfold hn.
      by rewrite named_node, Hs.
    + by rewrite added_sym, Hsym, Hown.
    + unfold Children. rewrite added_node. cbn [children]. unfold hn.
      by rewrite named_node.
    + unfold Parent. rewrite added_node. cbn [parent]. unfold hn.
      by rewrite named_node.
    + rewrite added_node_other by done. unfold hn.
      by rewrite named_node.
    + intros b Hb1 Hb2. rewrite added_node_other by done. unfold hn.
      rewrite named_node. by apply Hoth.
    + intros p Hp. rewrite added_sym_other by done. unfold hn.
      rewrite named_sym_other by done. unfold sym_at. by rewrite Hsy.
    + intros b Hb. unfold concrete_at, added. cbn [set_node set_sym concretes].
      unfold hn, named. cbn [concretes set_concrete].
      rewrite lookup_insert_ne by done. by apply Hcoth.
Qed.

End Declarations.

Lemma redeclaration_panics_witness :
  analyzeClass ascii_fold EmptyString (Generic O)
    (mkA (fst (Tokenize "K { };")) (analyzed_from empty_heap "class K { };"))
  = Panic (PanicExistingSymbol "K")
  ∧ analyzeEnum ascii_fold EmptyString (Generic O)
      (mkA (fst (Tokenize "K { };"))
         (analyzed_from empty_heap "class K { };"))
    = Panic (PanicExistingSymbol "K").
Proof.
  apply (redeclaration_panics ascii_fold EmptyString (Generic O)
           (tok OpIdentifier "K" 1 2)
           (tl (fst (Tokenize "K { };")))
           (analyzed_from empty_heap "class K { };")).
  - by vm_compute.
  - reflexivity.
  - done.
  - vm_compute. by eexists.
Defined.

Section Declared.

Variable hasUnicode : string -> string -> bool.
Variable filename : string.

Lemma getQualifierIdentifier_none q h :
  match q with
  | [] => True
  | t :: _ => Equal hasUnicode openQualifierToken t = false
  end ->
  getQualifierIdentifier hasUnicode filename (mkA q h) = Ok (Got []) (mkA q h).
Proof.
  intros Hq. unfold getQualifierIdentifier.
  by rewrite (bind_Ok_eq _ _ _ _ _ (optionalToken_miss hasUnicode _ _ _ Hq)).
Qed.

(** A scope without a property: the two braces are taken. *)
Lemma analyzeScope_empty root lb rb q h :
  Equal hasUnicode openScopeToken lb = true ->
  Equal hasUnicode closeScopeToken rb = true ->
  analyzeScope hasUnicode filename root (mkA (lb :: rb :: q) h)
  = Ok None (mkA q h).
Proof.
  intros Hlb Hrb. unfold analyzeScope.
  rewrite (bind_Ok_eq _ _ _ _ _ (expectToken_hit hasUnicode filename _ _ _ _ Hlb)).
  by rewrite (bind_Ok_eq _ _ _ _ _ (optionalToken_hit hasUnicode _ _ _ _ Hrb)).
Qed.

(** [analyzeClass] after the name is entered. *)
Definition class_body (root : NodeRef) (node : addr)
  : M astate (option error) :=
  let* rq := getQualifierIdentifier hasUnicode filename in
  match rq with
  | Failed err => ret (Some err)
  | Got qualifiers =>
      let* q :=
        lift (FindNestedSymbol root (tokenStringValues qualifiers)) in
      let* _ := lift (set_class node (fun c => mkClass (cBase c) q)) in
      let* e := analyzeScope hasUnicode filename (Concrete node) in
      match e with
      | Some err => ret (Some err)
      | None =>
          let* r := expectOp filename OpTerminator in
          match r with
          | Failed err => ret (Some err)
          | Got _ => ret None
          end
      end
  end.

(** X15. The declaration of a class of a new name, without a qualifier and
    with an empty body, returns no error and takes its four tokens.  It
    leaves a class node of that name without a qualifier and without
    children, whose embedded node is the last child of the enclosing node,
    and a new symbol of that name in the table of the enclosing node, whose
    scope is the enclosing node and whose node is the class node; the other
    entries of the table are untouched. *)
Theorem class_declaration_enters (root : NodeRef) (name lb rb semi : Token)
    (q : list Token) (h : heap) :
  addr_of root ≠ next_node h ->
  Op name = OpIdentifier ->
  Value name ≠ EmptyString ->
  symbols (node_at h (addr_of root)) !! Value name = None ->
  Equal hasUnicode openQualifierToken lb = false ->
  Equal hasUnicode openScopeToken lb = true ->
  Equal hasUnicode closeScopeToken rb = true ->
  Op semi = OpTerminator ->
  let a := next_node h in
  let s := next_sym h in
  ∃ h', analyzeClass hasUnicode filename root
          (mkA (name :: lb :: rb :: semi :: q) h)
        = Ok None (mkA q h')
        ∧ concrete_at h' a
          = Some (IsClass (mkClass (mkBase (Value name) (Some (Concrete a)))
                             None))
        ∧ symbols (node_at h' (addr_of root))
          = <[Value name := s]> (symbols (node_at h (addr_of root)))
        ∧ sym_at h' s
          = mkSymbol (Value name) (Some (Generic (addr_of root)))
              (Some (Concrete a))
        ∧ Children (addr_of root) h'
          = (Children (addr_of root) h ++ [Generic a])%list
        ∧ Parent a h' = Some (Generic (addr_of root))
        ∧ Children a h' = [].
Proof.
  intros Hne Hop Hv Hfree Hnq Hlb Hrb Hsemi a s.
  destruct (declaration_enters filename (fun b => IsClass (mkClass b None))
              (fun node _ => class_body root node) root name
              (lb :: rb :: semi :: q) h)
    as (h4 & Hrun & Hc & Ht & Hs & Hch & Hpa & Hn & _); try done.
  change (analyzeClass hasUnicode filename root
            (mkA (name :: lb :: rb :: semi :: q) h))
    with ((let* node := lift (newBaseNode (Some root)
                                (fun b => IsClass (mkClass b None))) in
           let* r := expectOp filename OpIdentifier in
           match r with
           | Failed err => ret (Some err)
           | Got name =>
               let* _ := lift (set_Value node (Value name)) in
               let* s := lift (base_Symbol node) in
               let* _ := lift (AddSymbol (addr_of root) (Some s)) in
               class_body root node
           end) (mkA (name :: lb :: rb :: semi :: q) h)).
  rewrite Hrun. clear Hrun. unfold class_body.
  rewrite (bind_Ok_eq _ _ _ _ _ (getQualifierIdentifier_none (lb :: rb :: semi :: q) h4 Hnq)).
  cbn [tokenStringValues map].
  rewrite (bind_Ok_eq _ _ _ _ _
             (lift_Ok_eq (FindNestedSymbol root []) _ h4 None h4 eq_refl)).
  cbn [with_base cBase cQualifier] in Hc.
  assert (set_class (next_node h) (fun c => mkClass (cBase c) None) h4
          = Ok tt (set_concrete (next_node h)
                     (IsClass (mkClass (mkBase (Value name)
                                          (Some (Concrete (next_node h))))
                                 None)) h4)) as Hset.
  { unfold set_class, modify. by rewrite Hc. }
  rewrite (bind_Ok_eq _ _ _ _ _ (lift_Ok_eq _ _ _ _ _ Hset)).
  rewrite (bind_Ok_eq _ _ _ _ _ (analyzeScope_empty _ _ _ _ _ Hlb Hrb)).
  rewrite (bind_Ok_eq _ _ _ _ _ (expectOp_hit filename _ _ _ _ Hsemi)).
  eexists. split; [reflexivity|].
  repeat split; try done.
  - unfold concrete_at. cbn [set_concrete concretes]. apply lookup_insert_eq.
  - change (parent (node_at h4 (next_node h)) = Some (Generic (addr_of root))).
    by rewrite Hn.
  - change (children (node_at h4 (next_node h)) = []). by rewrite Hn.
Qed.

(** [analyzeEnum] after the name is entered. *)
Definition enum_body (root : NodeRef) (node : addr)
  : M astate (option error) :=
  let* rq := getQualifierIdentifier hasUnicode filename in
  match rq with
  | Failed err => ret (Some err)
  | Got qualifiers =>
      let* q :=
        lift (FindNestedSymbol root (tokenStringValues qualifiers)) in
      let* _ := lift (set_enum node (fun e =>
                        mkEnum (eBase e) (eFlags e) q)) in
      let* flag := optionalToken hasUnicode flagsToken in
      let* _ :=
        match flag with
        | Some _ => lift (set_enum node (fun e =>
                            mkEnum (eBase e) true (eQualifier e)))
        | None => ret tt
        end in
      let* e := analyzeScope hasUnicode filename (Concrete node) in
      match e with
      | Some err => ret (Some err)
      | None =>
          let* r := expectOp filename OpTerminator in
          match r with
          | Failed err => ret (Some err)
          | Got _ => ret None
          end
      end
  end.

Lemma Equal_other_Op t1 t2 :
  Op t2 ≠ Op t1 -> Equal hasUnicode t1 t2 = false.
Proof.
  intros Hne. unfold Equal. rewrite bool_decide_eq_false_2; [done|].
  by intros E.
Qed.

Lemma set_enum_at a f e h :
  concrete_at h a = Some (IsEnum e) ->
  set_enum a f h = Ok tt (set_concrete a (IsEnum (f e)) h).
Proof. intros Hc. unfold set_enum, modify. by rewrite Hc. Qed.

Lemma concrete_at_set_concrete a c h :
  concrete_at (set_concrete a c h) a = Some c.
Proof. unfold concrete_at. cbn [set_concrete concretes]. apply lookup_insert_eq. Qed.

(** X16. The declaration of an enumeration of a new name, without a
    qualifier and with an empty body, returns no error; the enumeration it
    leaves is a flags enumeration exactly when the keyword [flags] stands
    between the name and the opening brace.  Its symbol is entered in the
    table of the enclosing node as that of a class is. *)
Theorem enum_declaration_flags (root : NodeRef) (name lb rb semi : Token)
    (flag : option Token) (q : list Token) (h : heap) :
  addr_of root ≠ next_node h ->
  Op name = OpIdentifier ->
  Value name ≠ EmptyString ->
  symbols (node_at h (addr_of root)) !! Value name = None ->
  match flag with
  | Some f => Equal hasUnicode flagsToken f = true
  | None => True
  end ->
  Equal hasUnicode openQualifierToken lb = false ->
  Equal hasUnicode openScopeToken lb = true ->
  Equal hasUnicode closeScopeToken rb = true ->
  Op semi = OpTerminator ->
  let a := next_node h in
  let s := next_sym h in
  ∃ h', analyzeEnum hasUnicode filename root
          (mkA (name :: match flag with
                        | Some f => f :: lb :: rb :: semi :: q
                        | None => lb :: rb :: semi :: q
                        end) h)
        = Ok None (mkA q h')
        ∧ concrete_at h' a
          = Some (IsEnum (mkEnum (mkBase (Value name) (Some (Concrete a)))
                            (bool_decide (is_Some flag)) None))
        ∧ symbols (node_at h' (addr_of root))
          = <[Value name := s]> (symbols (node_at h (addr_of root)))
        ∧ sym_at h' s
          = mkSymbol (Value name) (Some (Generic (addr_of root)))
              (Some (Concrete a)).
Proof.
  intros Hne Hop Hv Hfree Hflag Hnq Hlb Hrb Hsemi a s.
  set (toks := match flag with
               | Some f => f :: lb :: rb :: semi :: q
               | None => lb :: rb :: semi :: q
               end).
  destruct (declaration_enters filename (fun b => IsEnum (mkEnum b false None))
              (fun node _ => enum_body root node) root name toks h)
    as (h4 & Hrun & Hc & Ht & Hs & _); try done.
  change (analyzeEnum hasUnicode filename root (mkA (name :: toks) h))
    with ((let* node := lift (newBaseNode (Some root)
                                (fun b => IsEnum (mkEnum b false None))) in
           let* r := expectOp filename OpIdentifier in
           match r with
           | Failed err => ret (Some err)
           | Got name =>
               let* _ := lift (set_Value node (Value name)) in
               let* s := lift (base_Symbol node) in
               let* _ := lift (AddSymbol (addr_of root) (Some s)) in
               enum_body root node
           end) (mkA (name :: toks) h)).
  rewrite Hrun. clear Hrun. unfold enum_body.
  pose proof (Equal_Op hasUnicode _ _ Hlb) as Hoplb.
  assert (match toks with
          | [] => True
          | t :: _ => Equal hasUnicode openQualifierToken t = false
          end) as Hq.
  { unfold toks. destruct flag as [f|]; [|done].
    apply Equal_other_Op. by rewrite (Equal_Op hasUnicode _ _ Hflag). }
  rewrite (bind_Ok_eq _ _ _ _ _ (getQualifierIdentifier_none toks h4 Hq)).
  cbn [tokenStringValues map].
  rewrite (bind_Ok_eq _ _ _ _ _
             (lift_Ok_eq (FindNestedSymbol root []) _ h4 None h4 eq_refl)).
  cbn [with_base eBase eFlags eQualifier] in Hc.
  rewrite (bind_Ok_eq _ _ _ _ _
             (lift_Ok_eq _ _ _ _ _ (set_enum_at _ _ _ _ Hc))).
  cbn [eBase eFlags].
  set (h5 := set_concrete _ _ h4).
  assert (concrete_at h5 (next_node h)
          = Some (IsEnum (mkEnum (mkBase (Value name)
                                    (Some (Concrete (next_node h))))
                            false None))) as Hc5
    by apply concrete_at_set_concrete.
  unfold toks. destruct flag as [f|].
  - rewrite (bind_Ok_eq _ _ _ _ _ (optionalToken_hit hasUnicode _ _ _ _ Hflag)).
    rewrite (bind_Ok_eq _ _ _ _ _
               (lift_Ok_eq _ _ _ _ _ (set_enum_at _ _ _ _ Hc5))).
    rewrite (bind_Ok_eq _ _ _ _ _ (analyzeScope_empty _ _ _ _ _ Hlb Hrb)).
    rewrite (bind_Ok_eq _ _ _ _ _ (expectOp_hit filename _ _ _ _ Hsemi)).
    eexists. split; [reflexivity|].
    split; [|by split].
    unfold a. rewrite concrete_at_set_concrete. cbn [eBase eQualifier].
    by rewrite bool_decide_eq_true_2.
  - assert (Equal hasUnicode flagsToken lb = false) as Hnf
      by (apply Equal_other_Op; by rewrite Hoplb).
    rewrite (bind_Ok_eq _ _ _ _ _
               (optionalToken_miss hasUnicode flagsToken
                  (lb :: rb :: semi :: q) h5 Hnf)).
    rewrite (bind_Ok_eq _ _ _ _ _ (eq_refl : ret tt _ = Ok tt _)).
    rewrite (bind_Ok_eq _ _ _ _ _ (analyzeScope_empty _ _ _ _ _ Hlb Hrb)).
    rewrite (bind_Ok_eq _ _ _ _ _ (expectOp_hit filename _ _ _ _ Hsemi)).
    eexists. split; [reflexivity|].
    split; [|by split].
    unfold a. rewrite Hc5. rewrite bool_decide_eq_false_2; [done|].
    by intros [? [=]].
Qed.

End Declared.

(** The root of an analysed file without a declaration. *)
Definition empty_root : heap := analyzed_from empty_heap EmptyString.

Lemma class_declaration_enters_witness :
  ∃ h', analyzeClass ascii_fold EmptyString (Generic O)
          (mkA (fst (Tokenize "K { };")) empty_root)
        = Ok None (mkA [] h')
        ∧ symbols (node_at h' O) !! "K" = Some O
        ∧ sNode (sym_at h' O) = Some (Concrete 1%nat)
        ∧ Children O h' = [Generic 1%nat].
Proof.
  destruct (class_declaration_enters ascii_fold EmptyString (Generic O)
              (tok OpIdentifier "K" 1 2) (tok OpOperator "{" 1 4)
              (tok OpOperator "}" 1 6) (tok OpTerminator ";" 1 7) []
              empty_root)
    as (h' & Hrun & _ & Ht & Hs & Hch & _); try by vm_compute.
  exists h'. split; [exact Hrun|]. split; [|split].
  - cbn [addr_of] in Ht. rewrite Ht. apply lookup_insert_eq.
  - change (next_sym empty_root) with O in Hs. by rewrite Hs.
  - cbn [addr_of] in Hch. rewrite Hch. by vm_compute.
Defined.

Lemma enum_declaration_flags_witness :
  ∃ h', analyzeEnum ascii_fold EmptyString (Generic O)
          (mkA (fst (Tokenize "E flags { };")) empty_root)
        = Ok None (mkA [] h')
        ∧ concrete_at h' 1%nat
          = Some (IsEnum (mkEnum (mkBase "E" (Some (Concrete 1%nat))) true
                            None)).
Proof.
  destruct (enum_declaration_flags ascii_fold EmptyString (Generic O)
              (tok OpIdentifier "E" 1 2) (tok OpOperator "{" 1 10)
              (tok OpOperator "}" 1 12) (tok OpTerminator ";" 1 13)
              (Some (tok OpIdentifier "flags" 1 8)) [] empty_root)
    as (h' & Hrun & Hc & _); try by vm_compute.
  exists h'. split; [exact Hrun|]. exact Hc.
Defined.

(** ** The end of a property declaration *)

(** The property [p] marked obsolete, with the reason [reason]. *)
Definition obsoleted (p : PropertyNode) (reason : string) : PropertyNode :=
  mkProperty (pBase p) (pFlags p) (pFlagsOpt p) (pType p) (pDefault p) true
    reason.

Lemma set_property_at a f p h :
  property_at h a = Some p ->
  set_property a f h = Ok tt (set_concrete a (IsProperty (f p)) h).
Proof. intros Hp. unfold set_property, modify. by rewrite Hp. Qed.

Lemma property_at_set_concrete a p h :
  property_at (set_concrete a (IsProperty p) h) a = Some p.
Proof. unfold property_at. by rewrite concrete_at_set_concrete. Qed.

Lemma set_concrete_twice a c c' h :
  set_concrete a c' (set_concrete a c h) = set_concrete a c' h.
Proof.
  unfold set_concrete. cbn [nodes syms concretes next_node next_sym].
  by rewrite insert_insert_eq.
Qed.

Section Obsolete.

Variable hasUnicode : string -> string -> bool.
Variable filename : string.

(** X17. After the terminator of a property declaration and the keyword
    [obsolete], the property is marked obsolete.  If a string follows, it is
    taken as the reason and nothing after it is taken, not even a
    terminator; if a terminator follows, it is taken and the reason stays as
    it was; anything else is left in the queue.  No error is returned in
    any of these cases. *)
Theorem obsolete_forms (node : addr) (p : PropertyNode) (semi obs : Token)
    (q : list Token) (h : heap) :
  property_at h node = Some p ->
  Op semi = OpTerminator ->
  Equal hasUnicode obsoleteToken obs = true ->
  property_tail hasUnicode filename node (mkA (semi :: obs :: q) h)
  = match q with
    | t :: q' =>
        if decide (Op t = OpString)
        then Ok None (mkA q' (set_concrete node
                                (IsProperty (obsoleted p (Value t))) h))
        else if decide (Op t = OpTerminator)
        then Ok None (mkA q' (set_concrete node
                                (IsProperty (obsoleted p (pObsoleteReason p)))
                                h))
        else Ok None (mkA q (set_concrete node
                               (IsProperty (obsoleted p (pObsoleteReason p)))
                               h))
    | [] => Ok None (mkA [] (set_concrete node
                               (IsProperty (obsoleted p (pObsoleteReason p)))
                               h))
    end.
Proof.
  intros Hp Hsemi Hobs. unfold property_tail.
  rewrite (bind_Ok_eq _ _ _ _ _ (expectOp_hit filename _ _ _ _ Hsemi)).
  rewrite (bind_Ok_eq _ _ _ _ _ (optionalToken_hit hasUnicode _ _ _ _ Hobs)).
  rewrite (bind_Ok_eq _ _ _ _ _
             (lift_Ok_eq _ _ _ _ _ (set_property_at _ _ _ _ Hp))).
  fold (obsoleted p (pObsoleteReason p)).
  destruct q as [|t q'].
  - by rewrite (bind_Ok_eq _ _ _ _ _ (optionalOp_miss OpString [] _ I)).
  - destruct (decide (Op t = OpString)) as [Hs|Hs].
    + rewrite (bind_Ok_eq _ _ _ _ _ (optionalOp_hit _ _ _ _ Hs)).
      rewrite (bind_Ok_eq _ _ _ _ _
                 (lift_Ok_eq _ _ _ _ _
                    (set_property_at _ _ _ _
                       (property_at_set_concrete _ _ _)))).
      unfold ret. by rewrite set_concrete_twice.
    + rewrite (bind_Ok_eq _ _ _ _ _
                 (optionalOp_miss OpString (t :: q') _ Hs)).
      destruct (decide (Op t = OpTerminator)) as [Ht|Ht].
      * by rewrite (bind_Ok_eq _ _ _ _ _ (optionalOp_hit _ _ _ _ Ht)).
      * by rewrite (bind_Ok_eq _ _ _ _ _
                      (optionalOp_miss OpTerminator (t :: q') _ Ht)).
Qed.

End Obsolete.

Lemma obsolete_forms_witness :
  property_tail ascii_fold EmptyString 2%nat
    (mkA (tl (tl (fst (Tokenize
            ("uint x; obsolete " ++ String dquote "old" ++ String dquote ";")))))
       (hp (after_head (Concrete 1%nat) unknown_start)))
  = Ok None
      (mkA [tok OpTerminator ";" 1 24]
         (set_concrete 2%nat
            (IsProperty
               (obsoleted
                  (mkProperty (mkBase "x" (Some (Concrete 2%nat))) EmptyString
                     None None [] false EmptyString) "old"))
            (hp (after_head (Concrete 1%nat) unknown_start)))).
Proof.
  apply (obsolete_forms ascii_fold EmptyString 2%nat
           (mkProperty (mkBase "x" (Some (Concrete 2%nat))) EmptyString
              None None [] false EmptyString)
           (tok OpTerminator ";" 1 8) (tok OpIdentifier "obsolete" 1 17)
           [mkToken OpString "string" "old"
              (String dquote "old" ++ String dquote EmptyString) 1 23 None;
            tok OpTerminator ";" 1 24]
           (hp (after_head (Concrete 1%nat) unknown_start))).
  - by vm_compute.
  - reflexivity.
  - reflexivity.
Defined.

(** ** The identifiers of a property declaration *)

Lemma FindSymbol_rec_create_some fuel :
  ∀ n v h r h', FindSymbol_rec fuel n v true h = Ok r h' -> is_Some r.
Proof.
  induction fuel as [|fuel IH]; intros n v h r h'; [done|].
  cbn [FindSymbol_rec]. unfold bind at 1, get.
  destruct (symbols (node_at h n) !! v) as [sym|]; [by intros [= <- _]|].
  intros (up & h1 & Hup & Hrest)%bind_Ok_inv.
  destruct up as [sym|]; [by injection Hrest as <- _|].
  apply bind_Ok_inv in Hrest as (h2 & h3 & _ & Hrest).
  apply bind_Ok_inv in Hrest as (sym & h4 & _ & Hrest).
  by injection Hrest as <- _.
Qed.

Lemma FindSymbol_create_some n v h r h' :
  FindSymbol n v true h = Ok r h' -> is_Some r.
Proof. apply FindSymbol_rec_create_some. Qed.

Lemma property_at_concrete h a p :
  property_at h a = Some p -> concrete_at h a = Some (IsProperty p).
Proof.
  unfold property_at. destruct (concrete_at h a) as [[| |x]|]; try done.
  by intros [= ->].
Qed.

(** The name, the type and the flags word that the identifiers of a
    property declaration stand for: the last is the name, the one before it
    the type, and the first of three the flags word. *)
Definition property_words (ids : list Token)
  : option (string * string * string) :=
  match ids with
  | [n] => Some (Value n, EmptyString, EmptyString)
  | [ty; n] => Some (Value n, Value ty, EmptyString)
  | [fl; ty; n] => Some (Value n, Value ty, Value fl)
  | _ => None
  end.

Section PropertyWords.

Variable hasUnicode : string -> string -> bool.
Variable filename : string.

(** [analyzeProperty] from [node.Symbol()] to [node.Flags = flags]. *)
Definition property_enter (root : NodeRef) (node : addr)
    (typeSymbol flags : string) : M astate (or_error addr) :=
  let* s := lift (base_Symbol node) in
  let* _ := lift (AddSymbol (addr_of root) (Some s)) in
  let* _ :=
    if decide (typeSymbol = EmptyString) then ret tt
    else
      let* ty := lift (FindSymbol (addr_of root) typeSymbol true) in
      lift (set_property node (fun x =>
        mkProperty (pBase x) (pFlags x) (pFlagsOpt x) ty
          (pDefault x) (pObsolete x) (pObsoleteReason x))) in
  let* _ := lift (set_property node (fun x =>
    mkProperty (pBase x) flags (pFlagsOpt x) (pType x) (pDefault x)
      (pObsolete x) (pObsoleteReason x))) in
  ret (Got node).

Lemma property_enter_spec root a ty fl q h p0 r st' :
  property_at h a = Some p0 ->
  property_enter root a ty fl (mkA q h) = Ok r st' ->
  r = Got a ∧ queue st' = q
  ∧ ∃ t, property_at (hp st') a
         = Some (mkProperty (pBase p0) fl (pFlagsOpt p0) t (pDefault p0)
                   (pObsolete p0) (pObsoleteReason p0))
         ∧ (ty = EmptyString -> t = pType p0)
         ∧ (ty ≠ EmptyString -> is_Some t).
Proof.
  intros Hp0 Hrun. unfold property_enter in Hrun.
  assert (Hholds : property_holds a (fun p => p = p0) h) by by exists p0.
  apply bind_Ok_inv in Hrun as (s & st1 & H1 & Hrun).
  apply lift_Ok_inv in H1 as (h1 & H1 & ->). cbn [hp queue] in *.
  apply (hkeeps_base_Symbol _ a (property_holds_concretes_only _ _) _ _ _ H1)
    in Hholds.
  apply bind_Ok_inv in Hrun as ([] & st2 & H2 & Hrun).
  apply lift_Ok_inv in H2 as (h2 & H2 & ->). cbn [hp queue] in *.
  apply (hkeeps_graph_only _ _ (property_holds_concretes_only _ _)
           (AddSymbol_graph_only _ _) _ _ _ H2) in Hholds.
  apply bind_Ok_inv in Hrun as ([] & st3 & H3 & Hrun).
  assert (queue st3 = q
          ∧ ∃ t, property_at (hp st3) a
                 = Some (mkProperty (pBase p0) (pFlags p0) (pFlagsOpt p0) t
                           (pDefault p0) (pObsolete p0) (pObsoleteReason p0))
                 ∧ (ty = EmptyString -> t = pType p0)
                 ∧ (ty ≠ EmptyString -> is_Some t)) as (Hq3 & t & Hp3 & Ht).
  { destruct (decide (ty = EmptyString)) as [E|E].
    - injection H3 as <-. split; [done|]. exists (pType p0).
      destruct Hholds as (p & Hp & ->). cbn [hp]. rewrite Hp.
      split; [by destruct p0|]. by split.
    - apply bind_Ok_inv in H3 as (t & st2' & Hfind & H3).
      apply lift_Ok_inv in Hfind as (h2' & Hfind & ->). cbn [hp queue] in *.
      apply (hkeeps_graph_only _ _ (property_holds_concretes_only _ _)
               (FindSymbol_graph_only _ _ _) _ _ _ Hfind) in Hholds.
      apply lift_Ok_inv in H3 as (h3 & H3 & ->). cbn [hp queue] in *.
      destruct Hholds as (p & Hp & ->).
      rewrite (set_property_at _ _ _ _ Hp) in H3. injection H3 as <-.
      split; [done|]. exists t. rewrite property_at_set_concrete.
      split; [done|]. split; [done|]. intros _.
      by apply FindSymbol_create_some in Hfind. }
  apply bind_Ok_inv in Hrun as ([] & st4 & H4 & Hrun).
  apply lift_Ok_inv in H4 as (h4 & H4 & ->).
  rewrite (set_property_at _ _ _ _ Hp3) in H4. injection H4 as <-.
  injection Hrun as <- <-. cbn [hp queue].
  split; [done|]. split; [done|]. exists t.
  by rewrite property_at_set_concrete.
Qed.

Lemma property_head_steps root t1 q h :
  Op t1 = OpIdentifier ->
  match q with
  | [] => True
  | t :: _ => Equal hasUnicode openQualifierToken t = false
  end ->
  ∃ h0, property_at h0 (next_node h) = Some (fresh_property (next_node h))
    ∧ property_head hasUnicode filename root (mkA (t1 :: q) h)
      = (let* t2 := optionalOp OpIdentifier in
         let* t3 := optionalOp OpIdentifier in
         let* names :=
           match t3, t2 with
           | Some t3, Some t2 => ret (Value t3, Value t2, Value t1)
           | Some t3, None => raise PanicNilDereference
           | None, Some t2 => ret (Value t2, Value t1, EmptyString)
           | None, None => ret (Value t1, EmptyString, EmptyString)
           end in
         let '(nodeValue, typeSymbol, flags) := names in
         let* _ := lift (set_Value (next_node h) nodeValue) in
         let* fo := lift (FindNestedSymbol root []) in
         let* _ := lift (set_property (next_node h) (fun x =>
           mkProperty (pBase x) (pFlags x) fo (pType x) (pDefault x)
             (pObsolete x) (pObsoleteReason x))) in
         property_enter root (next_node h) typeSymbol flags) (mkA q h0).
Proof.
  intros Hop Hq.
  destruct (NewPropertyNode_spec (Some root) h) as (h0 & Hnew & Hfresh & _).
  exists h0. split; [done|]. unfold property_head.
  rewrite (bind_Ok_eq _ _ _ _ _ (lift_Ok_eq _ _ _ _ _ Hnew)).
  rewrite (bind_Ok_eq _ _ _ _ _ (expectOp_hit filename _ _ _ _ Hop)).
  by rewrite (bind_Ok_eq _ _ _ _ _ (getQualifierIdentifier_none _ _ q h0 Hq)).
Qed.

(** The steps between the names and [node.Symbol()], for the names
    [(name, ty, fl)]. *)
Lemma property_named_steps root a name ty fl q h0 r st' :
  property_at h0 a = Some (fresh_property a) ->
  (let* _ := lift (set_Value a name) in
   let* fo := lift (FindNestedSymbol root []) in
   let* _ := lift (set_property a (fun x =>
     mkProperty (pBase x) (pFlags x) fo (pType x) (pDefault x)
       (pObsolete x) (pObsoleteReason x))) in
   property_enter root a ty fl) (mkA q h0) = Ok r st' ->
  r = Got a ∧ queue st' = q
  ∧ ∃ t, property_at (hp st') a
         = Some (mkProperty (mkBase name (Some (Concrete a))) fl None t []
                   false EmptyString)
         ∧ (ty = EmptyString -> t = None)
         ∧ (ty ≠ EmptyString -> is_Some t).
Proof.
  intros Hfresh.
  rewrite (bind_Ok_eq _ _ _ _ _
             (lift_Ok_eq _ _ _ _ _
                (set_Value_concrete _ name _ _
                   (property_at_concrete _ _ _ Hfresh)))).
  cbn [with_base base_of fresh_property pBase bOwner pFlags pFlagsOpt pType
         pDefault pObsolete pObsoleteReason].
  rewrite (bind_Ok_eq _ _ _ _ _
             (lift_Ok_eq (FindNestedSymbol root []) _ _ None _ eq_refl)).
  rewrite (bind_Ok_eq _ _ _ _ _
             (lift_Ok_eq _ _ _ _ _
                (set_property_at _ _ _ _ (property_at_set_concrete _ _ _)))).
  cbn [pBase pFlags pFlagsOpt pType pDefault pObsolete pObsoleteReason].
  intros Hrun.
  by apply (property_enter_spec _ _ _ _ _ _ _ _ _
              (property_at_set_concrete _ _ _)) in Hrun.
Qed.

(** X18. A property declaration without a qualifier is read by the number
    of identifiers it starts with: one is the name; of two, the first is the
    type and the second the name; of three, the first is the flags word, the
    second the type and the third the name.  Whenever the head of the
    declaration returns, it returns the new property node and has taken
    exactly these identifiers; the node carries the name and the flags word,
    no flags qualifier, no default and no obsolete mark, and it has a type
    symbol exactly when a type was written. *)
Theorem property_words_by_count (root : NodeRef) (ids rest : list Token)
    (h : heap) (name ty fl : string) (r : or_error addr) (st' : astate) :
  property_words ids = Some (name, ty, fl) ->
  Forall (fun t => Op t = OpIdentifier) ids ->
  match ids, rest with
  | [_], t :: _ => Equal hasUnicode openQualifierToken t = false
  | _, _ => True
  end ->
  ((length ids < 3)%nat ->
   match rest with [] => True | t :: _ => Op t ≠ OpIdentifier end) ->
  property_head hasUnicode filename root (mkA (ids ++ rest)%list h)
  = Ok r st' ->
  r = Got (next_node h) ∧ queue st' = rest
  ∧ ∃ t, property_at (hp st') (next_node h)
         = Some (mkProperty (mkBase name (Some (Concrete (next_node h)))) fl
                   None t [] false EmptyString)
         ∧ (ty = EmptyString -> t = None)
         ∧ (ty ≠ EmptyString -> is_Some t).
Proof.
  intros Hwords Hids Hnq Hend.
  destruct ids as [|t1 [|t2 [|t3 [|]]]]; try done; cbn [app];
    injection Hwords as <- <- <-.
  - (* the name alone *)
    apply Forall_cons in Hids as [Hop1 _].
    assert (match rest with [] => True | t :: _ => Op t ≠ OpIdentifier end)
      as Hrest by (apply Hend; simpl; lia).
    destruct (property_head_steps root t1 rest h Hop1) as (h0 & Hfresh & ->).
    { by destruct rest. }
    rewrite (bind_Ok_eq _ _ _ _ _ (optionalOp_miss OpIdentifier rest _ Hrest)).
    rewrite (bind_Ok_eq _ _ _ _ _ (optionalOp_miss OpIdentifier rest _ Hrest)).
    rewrite (bind_Ok_eq _ _ _ _ _ (eq_refl : ret _ _ = Ok _ _)).
    by apply property_named_steps.
  - (* a type and the name *)
    apply Forall_cons in Hids as [Hop1 [Hop2 _]%Forall_cons].
    assert (match rest with [] => True | t :: _ => Op t ≠ OpIdentifier end)
      as Hrest by (apply Hend; simpl; lia).
    destruct (property_head_steps root t1 (t2 :: rest) h Hop1)
      as (h0 & Hfresh & ->).
    { apply Equal_other_Op. by rewrite Hop2. }
    rewrite (bind_Ok_eq _ _ _ _ _ (optionalOp_hit _ _ _ _ Hop2)).
    rewrite (bind_Ok_eq _ _ _ _ _ (optionalOp_miss OpIdentifier rest _ Hrest)).
    rewrite (bind_Ok_eq _ _ _ _ _ (eq_refl : ret _ _ = Ok _ _)).
    by apply property_named_steps.
  - (* the flags word, the type and the name *)
    apply Forall_cons in Hids as [Hop1 [Hop2 [Hop3 _]%Forall_cons]%Forall_cons].
    destruct (property_head_steps root t1 (t2 :: t3 :: rest) h Hop1)
      as (h0 & Hfresh & ->).
    { apply Equal_other_Op. by rewrite Hop2. }
    rewrite (bind_Ok_eq _ _ _ _ _ (optionalOp_hit _ _ _ _ Hop2)).
    rewrite (bind_Ok_eq _ _ _ _ _ (optionalOp_hit _ _ _ _ Hop3)).
    rewrite (bind_Ok_eq _ _ _ _ _ (eq_refl : ret _ _ = Ok _ _)).
    by apply property_named_steps.
Qed.

End PropertyWords.

(** The tokens of [const uint C = 1;], and the state after the head of that
    declaration in the class of [root_with_class]. *)
Definition const_tokens : list Token := fst (Tokenize "const uint C = 1;").

Definition const_head : astate :=
  after_head (Concrete 1%nat) (mkA const_tokens root_with_class).

Lemma property_words_by_count_witness :
  property_head ascii_fold EmptyString (Concrete 1%nat)
    (mkA const_tokens root_with_class) = Ok (Got 2%nat) const_head
  ∧ queue const_head = skipn 3 const_tokens
  ∧ ∃ t, property_at (hp const_head) 2%nat
         = Some (mkProperty (mkBase "C" (Some (Concrete 2%nat)))
                   "const" None t [] false EmptyString)
         ∧ is_Some t.
Proof.
  assert (property_head ascii_fold EmptyString (Concrete 1%nat)
            (mkA const_tokens root_with_class) = Ok (Got 2%nat) const_head)
    as Hrun by (vm_compute; reflexivity).
  split; [exact Hrun|].
  destruct (property_words_by_count ascii_fold EmptyString (Concrete 1%nat)
              (firstn 3 const_tokens) (skipn 3 const_tokens) root_with_class
              "C" "uint" "const" (Got 2%nat) const_head)
    as (_ & Hq & t & Hp & _ & Ht).
  - reflexivity.
  - vm_compute. repeat constructor.
  - exact I.
  - vm_compute. lia.
  - exact Hrun.
  - split; [exact Hq|]. exists t. split; [exact Hp|]. by apply Ht.
Defined.

(** ** Qualified names *)

Lemma FindSymbol_resolves h v n d r create :
  resolves h v n d r ->
  (d <= next_node h)%nat ->
  create = false ∨ is_Some r ->
  FindSymbol n v create h = Ok r h.
Proof.
  intros Hres Hd Hc. unfold FindSymbol.
  apply (FindSymbol_rec_resolves h v n d r create Hres Hc). lia.
Qed.

(** The node in which the component after a symbol is looked up: the node
    of the symbol, or its scope when it has no node. *)
Definition next_scope (y : Symbol) : option NodeRef :=
  match sNode y with
  | Some x => Some x
  | None => sScope y
  end.

(** X19. For a name of two components [A::b], the first component is looked
    up from the starting node without creating anything: when no table up
    the parent chain has it, the result is nil and nothing is written.  When
    it is found, the second component is looked up, and created if need be,
    by [FindSymbol] from the node of the symbol found, or from the scope of
    that symbol when it has no node; a symbol with neither makes the call
    panic on a nil node. *)
Theorem FindNestedSymbol_qualified (start : NodeRef) (A b : string)
    (h : heap) (d : nat) (r : option sym_ptr) :
  resolves h A (addr_of start) d r ->
  (d <= next_node h)%nat ->
  FindNestedSymbol start [A; b] h
  = match r with
    | None => Ok None h
    | Some pA =>
        match next_scope (sym_at h pA) with
        | Some nx => FindSymbol (addr_of nx) b true h
        | None => Panic PanicNilDereference
        end
    end.
Proof.
  intros Hres Hd. unfold FindNestedSymbol. cbn [FindNestedSymbol_loop].
  rewrite bool_decide_eq_false_2 by done.
  rewrite (bind_Ok_eq _ _ _ _ _
             (FindSymbol_resolves _ _ _ _ _ false Hres Hd (or_introl eq_refl))).
  destruct r as [pA|]; [|done].
  unfold bind at 1, get. fold (next_scope (sym_at h pA)).
  destruct (next_scope (sym_at h pA)) as [nx|]; [|done].
  rewrite bool_decide_eq_true_2 by done. unfold bind at 1.
  by destruct (FindSymbol (addr_of nx) b true h) as [[p|] h'| |].
Qed.

Lemma FindNestedSymbol_qualified_witness :
  FindNestedSymbol (Generic O) ["K"; "b"]
    (analyzed_from empty_heap "class K { };")
  = FindSymbol 1%nat "b" true (analyzed_from empty_heap "class K { };").
Proof.
  apply (FindNestedSymbol_qualified (Generic O) "K" "b"
           (analyzed_from empty_heap "class K { };") O (Some O)).
  - by apply resolves_here.
  - vm_compute. lia.
Defined.

(** ** [Analyze] at the edges *)

(** The heap in which [NewNode(nil)] has made a root. *)
Definition with_root (h : heap) : heap :=
  mkHeap (<[next_node h := mkNode None None [] ∅]> (nodes h)) (syms h)
    (concretes h) (S (next_node h)) (next_sym h).

Lemma NewNode_root h : NewNode None h = Ok (Generic (next_node h)) (with_root h).
Proof. reflexivity. Qed.

Lemma tokenize_loop_no_error ms :
  ∀ row col q, Forall (fun t => Error t = None) q ->
    Forall (fun t => Error t = None) (fst (tokenize_loop ms row col q)).
Proof.
  induction ms as [|m ms IH]; intros row col q Hq; simpl; [done|].
  destruct (countRunes (m_matched m)) as [[rows cols] [err|]]; simpl; [done|].
  destruct (m_group m); first [by apply IH | apply IH, Forall_app; by split;
    [|repeat constructor]].
Qed.

Section Edges.

Variable hasUnicode : string -> string -> bool.
Variable import_path : string -> string -> string.
Variable read_file : string -> option string.

(** X20. When the lexer gives no token, or fails, nothing is analysed:
    [Analyze] returns a new root, without parent, children or symbols,
    together with the error of the lexer if there is one, and the rest of
    the heap is as it was. *)
Theorem Analyze_without_tokens (depth : nat) (data filename : string)
    (h : heap) :
  fst (Tokenize data) = [] ∨ is_Some (snd (Tokenize data)) ->
  Analyze hasUnicode import_path read_file (S depth)
    (mkAnalyzer (Some data) filename) h
  = Ok (Some (Generic (next_node h)), snd (Tokenize data)) (with_root h).
Proof.
  intros Hcase. cbn [Analyze]. unfold Analyze_body. cbn [a_t a_filename].
  rewrite (bind_Ok_eq _ _ _ _ _ (NewNode_root h)).
  destruct (Tokenize data) as [tokens [err|]]; [done|].
  simpl in Hcase. destruct Hcase as [->|[? [=]]]. reflexivity.
Qed.

(** X21. When the first token of a file is neither a directive nor one of
    the identifiers [class] and [enum], [Analyze] returns the new root and
    the invalid-token error at the position of that token, and analyses
    nothing. *)
Theorem Analyze_invalid_first_token (depth : nat) (data filename : string)
    (t : Token) (q : list Token) (h : heap) :
  Tokenize data = (t :: q, None) ->
  Op t ≠ OpPreprocess ->
  (Op t = OpIdentifier -> Value t ≠ "class" ∧ Value t ≠ "enum") ->
  Analyze hasUnicode import_path read_file (S depth)
    (mkAnalyzer (Some data) filename) h
  = Ok (Some (Generic (next_node h)),
        Some (Errorf filename (Row t) (Col t) "Invalid token" (Raw t)))
      (with_root h).
Proof.
  intros Htok Hpre Hid. cbn [Analyze]. unfold Analyze_body.
  cbn [a_t a_filename]. rewrite (bind_Ok_eq _ _ _ _ _ (NewNode_root h)).
  pose proof (tokenize_loop_no_error (FindAllSubmatch data) 1 1 []
                (Forall_nil_2 _)) as Herr.
  fold (Tokenize data) in Herr. rewrite Htok in *. cbn [fst] in Herr.
  apply Forall_cons in Herr as [Herr _].
  cbn [Analyze_loop length]. unfold bind at 1, Dequeue. cbn [queue hp].
  rewrite Herr. unfold bind at 1, handleToken, handleIdentifierToken.
  destruct (Op t) eqn:Eop; try done.
  destruct (Hid eq_refl) as [Hc He].
  destruct (decide (Value t = "class")); [done|].
  by destruct (decide (Value t = "enum")).
Qed.

End Edges.

Lemma Analyze_without_tokens_witness :
  Analyze ascii_fold flat_path no_files 1
    (mkAnalyzer (Some ("  // nothing" ++ line_feed)) "f.steamd") empty_heap
  = Ok (Some (Generic O), None) (with_root empty_heap).
Proof.
  apply (Analyze_without_tokens ascii_fold flat_path no_files O
           ("  // nothing" ++ line_feed) "f.steamd" empty_heap).
  left. reflexivity.
Defined.

Lemma Analyze_invalid_first_token_witness :
  Analyze ascii_fold flat_path no_files 1
    (mkAnalyzer (Some "Class A { };") "f.steamd") empty_heap
  = Ok (Some (Generic O),
        Some (ErrAt "f.steamd" (Some (1, 6)) "Invalid token" "Class"))
      (with_root empty_heap).
Proof.
  apply (Analyze_invalid_first_token ascii_fold flat_path no_files O
           "Class A { };" "f.steamd" (tok OpIdentifier "Class" 1 6)
           (tl (fst (Tokenize "Class A { };"))) empty_heap).
  - reflexivity.
  - done.
  - intros _. by split.
Defined.

(** ** Importing a file *)

(** The loop of [ImportSymbols] changes no link of the tree. *)
Lemma ImportSymbols_loop_tree n order :
  ∀ h h', ImportSymbols_loop n order h = Ok tt h' ->
    ∀ a, children (node_at h' a) = children (node_at h a)
         ∧ parent (node_at h' a) = parent (node_at h a).
Proof.
  induction order as [|p order IH]; intros h h'.
  - by intros [= <-].
  - rewrite ImportSymbols_loop_step. intros Hrun a.
    destruct (IH _ _ Hrun a) as [-> ->].
    destruct (import_one_cases n p h) as [(_ & _ & ->)|(_ & ->)]; [|done].
    destruct (decide (a = n)) as [->|Hne].
    + by rewrite added_node.
    + by rewrite added_node_other.
Qed.

Section ImportFile.

Variable import_path : string -> string -> string.
Variable read_file : string -> option string.
Variable filename : string.
Variable Analyze_import : Analyzer -> M heap (option NodeRef * option error).

(** X22. When the file named by an import directive is read and analysed
    without error, [importFile] returns no error and takes no token.  The
    children of the root of the imported file follow the children of the
    importing root, in their order, with the importing root as their parent;
    the imported root is left without children; and the importing root
    keeps every symbol it had.  The two roots are different nodes. *)
Theorem importFile_adopts (name data : string) (root importRoot : NodeRef)
    (q : list Token) (h h1 : heap) :
  read_file (import_path filename name) = Some data ->
  Analyze_import (mkAnalyzer (Some data) (import_path filename name)) h
  = Ok (Some importRoot, None) h1 ->
  addr_of root ≠ addr_of importRoot ->
  ∃ h2, importFile import_path read_file filename Analyze_import name root
          (mkA q h)
        = Ok None (mkA q h2)
        ∧ Children (addr_of root) h2
          = (Children (addr_of root) h1 ++ Children (addr_of importRoot) h1)%list
        ∧ Children (addr_of importRoot) h2 = []
        ∧ (∀ c, c ∈ Children (addr_of importRoot) h1 ->
                Parent (addr_of c) h2 = Some (Generic (addr_of root)))
        ∧ (∀ k s, symbols (node_at h1 (addr_of root)) !! k = Some s ->
                  symbols (node_at h2 (addr_of root)) !! k = Some s).
Proof.
  intros Hread Hrun Hne. unfold importFile. rewrite Hread.
  rewrite (bind_Ok_eq _ _ _ _ _ (lift_Ok_eq _ _ _ _ _ Hrun)).
  destruct (AdoptChildren_spec (addr_of root) importRoot h1 Hne)
    as (ha & Hadopt & Hc & Hi & Hp & _ & _ & Hs & _).
  rewrite (bind_Ok_eq _ _ _ _ _ (lift_Ok_eq _ _ _ _ _ Hadopt)).
  destruct (ImportSymbols_loop_spec (addr_of root)
              (Symbols (addr_of importRoot) ha) ha)
    as (h2 & Himp & _ & Hkeep & _).
  assert (ImportSymbols (addr_of root) importRoot ha = Ok tt h2) as Himp'
    by exact Himp.
  rewrite (bind_Ok_eq _ _ _ _ _ (lift_Ok_eq _ _ _ _ _ Himp')).
  exists h2. split; [done|].
  pose proof (ImportSymbols_loop_tree _ _ _ _ Himp) as Htree.
  unfold Children, Parent in *. repeat split.
  - by rewrite (proj1 (Htree _)), Hc.
  - by rewrite (proj1 (Htree _)), Hi.
  - intros c Hin. rewrite (proj2 (Htree _)). by apply Hp.
  - intros k s Hk. apply Hkeep. by rewrite Hs.
Qed.

End ImportFile.

Lemma importFile_adopts_witness :
  ∃ h2, importFile flat_path enums_file EmptyString
          (Analyze ascii_fold flat_path enums_file 1) "enums" (Generic O)
          (mkA [] (analyzed_from empty_heap "class A { };"))
        = Ok None (mkA [] h2)
        ∧ Children O h2 = [Generic 1%nat; Generic 3%nat; Generic 4%nat].
Proof.
  destruct (importFile_adopts flat_path enums_file EmptyString
              (Analyze ascii_fold flat_path enums_file 1) "enums"
              "enum E { }; class K { };" (Generic O) (Generic 2%nat) []
              (analyzed_from empty_heap "class A { };")
              (analyzed_from (analyzed_from empty_heap "class A { };")
                 "enum E { }; class K { };"))
    as (h2 & Hrun & Hc & _).
  - reflexivity.
  - vm_compute. reflexivity.
  - done.
  - exists h2. split; [exact Hrun|]. cbn [addr_of] in Hc. rewrite Hc.
    vm_compute. reflexivity.
Defined.

(** ** [countRunes] on text that is not valid *)

Lemma countRunes_loop_rejects a s :
  is_ascii a = true ->
  s ≠ EmptyString ->
  fst (utf8.DecodeRune s) = utf8.RuneError ->
  ∀ fuel rows cols,
    (String.length (a ++ s) <= fuel)%nat ->
    countRunes_loop fuel (a ++ s) rows cols = (-1, -1, Some ErrInvalidUTF8).
Proof.
  intros Ha Hs Hd. induction a as [|c a IH]; intros fuel rows cols Hfuel.
  - app_simpl. destruct s as [|c s']; [done|].
    destruct fuel as [|fuel]; [simpl in Hfuel; lia|].
    cbn [countRunes_loop]. destruct (utf8.DecodeRune (String c s')) as [r w].
    simpl in Hd. subst r. reflexivity.
  - app_simpl. destruct fuel as [|fuel]; [simpl in Hfuel; lia|].
    cbn [is_ascii all_chars] in Ha. apply andb_true_iff in Ha as [Hc Ha].
    destruct (DecodeRune_ascii c (a ++ s) Hc) as [Hdc Hne].
    cbn [countRunes_loop]. rewrite Hdc. cbn [drop_bytes]. rewrite Hne.
    simpl in Hfuel.
    destruct (byte_val c =? 10); apply (IH Ha); lia.
Qed.

(** X23. [countRunes] fails, with [-1] for the rows and for the columns, on
    every text in which the first thing that is not ASCII decodes to the
    replacement rune: an invalid encoding, and also the valid encoding of
    the character U+FFFD itself. *)
Theorem countRunes_rejects (a s : string) :
  is_ascii a = true ->
  s ≠ EmptyString ->
  fst (utf8.DecodeRune s) = utf8.RuneError ->
  countRunes (a ++ s) = (-1, -1, Some ErrInvalidUTF8).
Proof.
  intros Ha Hs Hd. unfold countRunes.
  by apply countRunes_loop_rejects.
Qed.

(** The UTF-8 encoding of U+FFFD. *)
Definition replacement_char : string :=
  String "239" (String "191" (String "189" EmptyString)).

Lemma countRunes_rejects_witness :
  utf8.DecodeRune replacement_char = (0xFFFD, 3%nat)
  ∧ countRunes ("ab" ++ replacement_char ++ "c")
    = (-1, -1, Some ErrInvalidUTF8).
Proof.
  split; [reflexivity|].
  apply (countRunes_rejects "ab" (replacement_char ++ "c")); reflexivity || done.
Defined.

(** ** A child under two parents *)

(** X24. [AddChild] makes the node the parent of the child and lists the
    child last among its children, but it does not take the child out of the
    list of the parent it had: the child stays listed there too. *)
Theorem AddChild_keeps_old_listing (n p : addr) (c : NodeRef) (h : heap) :
  p ≠ n ->
  c ∈ Children p h ->
  ∃ h', AddChild n c h = Ok tt h'
        ∧ Parent (addr_of c) h' = Some (Generic n)
        ∧ Children n h' = (Children n h ++ [c])%list
        ∧ c ∈ Children p h'.
Proof.
  intros Hne Hin.
  destruct (AddChild_spec n c h) as (h' & Hrun & Hc & Ho & Hp & _).
  exists h'. split; [done|]. unfold Parent, Children in *.
  split; [by rewrite Hp, decide_True|]. split; [done|].
  by rewrite Ho.
Qed.

Lemma AddChild_keeps_old_listing_witness :
  ∃ h', AddChild 2%nat (Generic 1%nat) two_files = Ok tt h'
        ∧ Parent 1%nat h' = Some (Generic 2%nat)
        ∧ Generic 1%nat ∈ Children O h'.
Proof.
  destruct (AddChild_keeps_old_listing 2%nat O (Generic 1%nat) two_files)
    as (h' & Hrun & Hp & _ & Hin).
  - done.
  - vm_compute. by left.
  - by exists h'.
Defined.

(** ** A declaration without a name *)

Section Nameless.

Variable hasUnicode : string -> string -> bool.
Variable filename : string.

(** The error of [expectOp] on a queue that does not start as
    expected. *)
Definition unexpected (q : list Token) : error :=
  match q with
  | [] => Errorf filename (-1) (-1) "EOF" EmptyString
  | t :: _ => Errorf filename (Row t) (Col t) "Unexpected token" (Raw t)
  end.

Lemma expectOp_unexpected op q h :
  match q with [] => True | t :: _ => Op t ≠ op end ->
  expectOp filename op (mkA q h) = Ok (Failed (unexpected q)) (mkA q h).
Proof.
  intros Hq. destruct q as [|t q]; [done|]. by apply expectOp_miss.
Qed.

(** X25. The node of a declaration is made, and put under the enclosing
    node, before the name is read.  When no identifier follows, the
    declaration of a class, of an enumeration or of a property returns the
    error of the missing identifier and takes no token, and the nameless new
    node stays as the last child of the enclosing node; no symbol is
    entered. *)
Theorem nameless_declaration_stays (root : NodeRef) (q : list Token)
    (h : heap) :
  addr_of root ≠ next_node h ->
  match q with [] => True | t :: _ => Op t ≠ OpIdentifier end ->
  ∃ h1 h2 h3,
    analyzeClass hasUnicode filename root (mkA q h)
    = Ok (Some (unexpected q)) (mkA q h1)
    ∧ analyzeEnum hasUnicode filename root (mkA q h)
      = Ok (Some (unexpected q)) (mkA q h2)
    ∧ analyzeProperty hasUnicode filename root (mkA q h)
      = Ok (Some (unexpected q)) (mkA q h3)
    ∧ ∀ h', h' = h1 ∨ h' = h2 ∨ h' = h3 ->
        Children (addr_of root) h'
        = (Children (addr_of root) h ++ [Generic (next_node h)])%list
        ∧ baseNode_Name h' (next_node h) = EmptyString
        ∧ symbols (node_at h' (addr_of root))
          = symbols (node_at h (addr_of root))
        ∧ syms h' = syms h.
Proof.
  intros Hne Hq.
  destruct (newBaseNode_spec root (fun b => IsClass (mkClass b None)) h Hne)
    as (h1 & Hn1 & _ & Hc1 & Hch1 & _ & Hs1 & _ & _ & Hy1 & _).
  destruct (newBaseNode_spec root (fun b => IsEnum (mkEnum b false None)) h
              Hne)
    as (h2 & Hn2 & _ & Hc2 & Hch2 & _ & Hs2 & _ & _ & Hy2 & _).
  destruct (newBaseNode_spec root
              (fun b => IsProperty (mkProperty b EmptyString None None []
                                      false EmptyString)) h Hne)
    as (h3 & Hn3 & _ & Hc3 & Hch3 & _ & Hs3 & _ & _ & Hy3 & _).
  exists h1, h2, h3. repeat split.
  - unfold analyzeClass, NewClassNode.
    rewrite (bind_Ok_eq _ _ _ _ _ (lift_Ok_eq _ _ _ _ _ Hn1)).
    by rewrite (bind_Ok_eq _ _ _ _ _ (expectOp_unexpected _ _ _ Hq)).
  - unfold analyzeEnum, NewEnumNode.
    rewrite (bind_Ok_eq _ _ _ _ _ (lift_Ok_eq _ _ _ _ _ Hn2)).
    by rewrite (bind_Ok_eq _ _ _ _ _ (expectOp_unexpected _ _ _ Hq)).
  - assert (property_head hasUnicode filename root (mkA q h)
            = Ok (Failed (unexpected q)) (mkA q h3)) as Hhead.
    { unfold property_head, NewPropertyNode.
      rewrite (bind_Ok_eq _ _ _ _ _ (lift_Ok_eq _ _ _ _ _ Hn3)).
      by rewrite (bind_Ok_eq _ _ _ _ _ (expectOp_unexpected _ _ _ Hq)). }
    unfold analyzeProperty. by rewrite (bind_Ok_eq _ _ _ _ _ Hhead).
  - by destruct H as [->|[->| ->]].
  - unfold baseNode_Name. by destruct H as [->|[->| ->]];
      first [rewrite Hc1|rewrite Hc2|rewrite Hc3].
  - by destruct H as [->|[->| ->]].
  - by destruct H as [->|[->| ->]].
Qed.

End Nameless.

Lemma nameless_declaration_stays_witness :
  ∃ h1, analyzeClass ascii_fold EmptyString (Generic O)
          (mkA (fst (Tokenize "{ };")) empty_root)
        = Ok (Some (ErrAt EmptyString (Some (1, 2)) "Unexpected token" "{"))
            (mkA (fst (Tokenize "{ };")) h1)
        ∧ Children O h1 = [Generic 1%nat].
Proof.
  destruct (nameless_declaration_stays ascii_fold EmptyString (Generic O)
              (fst (Tokenize "{ };")) empty_root)
    as (h1 & h2 & h3 & Hrun & _ & _ & Hall).
  - by vm_compute.
  - by vm_compute.
  - exists h1. split; [exact Hrun|].
    destruct (Hall h1 (or_introl eq_refl)) as (Hc & _).
    cbn [addr_of] in Hc. rewrite Hc. vm_compute. reflexivity.
Defined.

(** * The order of imports, the failures and the keywords *)

(** ** Importing, and the order of an import and a declaration *)


Section ImportOrder.

Variable hasUnicode : string -> string -> bool.
Variable import_path : string -> string -> string.
Variable read_file : string -> option string.
Variable filename : string.
Variable Analyze_import : Analyzer -> M heap (option NodeRef * option error).


End ImportOrder.




(** ** A default in a namespace that is not known, and the other failures *)

Section Failures.

Variable hasUnicode : string -> string -> bool.
Variable filename : string.


End Failures.




(** ** Where the analyzer matches by token equality *)

Section KeywordUse.

Variable hasUnicode : string -> string -> bool.
Variable import_path : string -> string -> string.
Variable read_file : string -> option string.
Variable filename : string.
Variable Analyze_import : Analyzer -> M heap (option NodeRef * option error).

(** [analyzeEnum] from the scope on. *)
Definition enum_scope (node : addr) : M astate (option error) :=
  let* e := analyzeScope hasUnicode filename (Concrete node) in
  match e with
  | Some err => ret (Some err)
  | None =>
      let* r := expectOp filename OpTerminator in
      match r with
      | Failed err => ret (Some err)
      | Got _ => ret None
      end
  end.

(** [analyzeProperty] once [obsolete] is taken: the property is marked, a
    string is taken as the reason, a terminator is taken otherwise. *)
Definition obsolete_taken (node : addr) (p : PropertyNode) (q : list Token)
    (h : heap) : res astate (option error) :=
  match q with
  | t :: q' =>
      if decide (Op t = OpString)
      then Ok None (mkA q' (set_concrete node
                              (IsProperty (obsoleted p (Value t))) h))
      else if decide (Op t = OpTerminator)
      then Ok None (mkA q' (set_concrete node
                              (IsProperty (obsoleted p (pObsoleteReason p)))
                              h))
      else Ok None (mkA q (set_concrete node
                             (IsProperty (obsoleted p (pObsoleteReason p)))
                             h))
  | [] => Ok None (mkA [] (set_concrete node
                             (IsProperty (obsoleted p (pObsoleteReason p)))
                             h))
  end.

Lemma expectToken_miss t1 t2 q h :
  Equal hasUnicode t1 t2 = false ->
  expectToken hasUnicode filename t1 (mkA (t2 :: q) h)
  = Ok (Failed (Errorf filename (Row t2) (Col t2) "Unexpected token"
                  (Raw t2))) (mkA (t2 :: q) h).
Proof.
  intros E. unfold expectToken, bind, Peek, ret. simpl. by rewrite E.
Qed.

Lemma getQualifierIdentifier_by_Equal lt ts ids gt rest h :
  ns_ident ts ids -> Op gt ≠ OpNamespace ->
  getQualifierIdentifier hasUnicode filename
    (mkA (lt :: ts ++ gt :: rest)%list h)
  = if Equal hasUnicode openQualifierToken lt
    then if Equal hasUnicode closeQualifierToken gt
         then Ok (Got ids) (mkA rest h)
         else Ok (Failed (Errorf filename (Row gt) (Col gt)
                            "Unexpected token" (Raw gt)))
                (mkA (gt :: rest) h)
    else Ok (Got []) (mkA (lt :: ts ++ gt :: rest)%list h).
Proof.
  intros Hns Hgt.
  destruct (Equal hasUnicode openQualifierToken lt) eqn:Hlt.
  - unfold getQualifierIdentifier.
    rewrite (bind_Ok_eq _ _ _ _ _ (optionalToken_hit hasUnicode _ _ _ _ Hlt)).
    rewrite (bind_Ok_eq _ _ _ _ _
               (getNamespacedIdentifier_ns filename _ _ (gt :: rest) h Hns
                  Hgt)).
    destruct (Equal hasUnicode closeQualifierToken gt) eqn:Hc.
    + by rewrite (bind_Ok_eq _ _ _ _ _
                    (expectToken_hit hasUnicode filename _ _ _ _ Hc)).
    + by rewrite (bind_Ok_eq _ _ _ _ _ (expectToken_miss _ _ _ _ Hc)).
  - by apply getQualifierIdentifier_none.
Qed.

Lemma analyzeScope_by_Equal root o q h :
  analyzeScope hasUnicode filename root (mkA (o :: q) h)
  = if Equal hasUnicode openScopeToken o
    then match q with
         | c :: q' =>
             if Equal hasUnicode closeScopeToken c
             then Ok None (mkA q' h)
             else scope_loop hasUnicode filename (S (length q)) root
                    (mkA q h)
         | [] => scope_loop hasUnicode filename 1 root (mkA [] h)
         end
    else Ok (Some (Errorf filename (Row o) (Col o) "Unexpected token"
                     (Raw o))) (mkA (o :: q) h).
Proof.
  unfold analyzeScope.
  destruct (Equal hasUnicode openScopeToken o) eqn:Ho.
  - rewrite (bind_Ok_eq _ _ _ _ _
               (expectToken_hit hasUnicode filename _ _ _ _ Ho)).
    destruct q as [|c q'].
    + by rewrite (bind_Ok_eq _ _ _ _ _
                    (optionalToken_miss hasUnicode closeScopeToken [] h I)).
    + destruct (Equal hasUnicode closeScopeToken c) eqn:Hc.
      * by rewrite (bind_Ok_eq _ _ _ _ _
                      (optionalToken_hit hasUnicode _ _ _ _ Hc)).
      * by rewrite (bind_Ok_eq _ _ _ _ _
                      (optionalToken_miss hasUnicode closeScopeToken
                         (c :: q') h Hc)).
  - by rewrite (bind_Ok_eq _ _ _ _ _ (expectToken_miss _ _ _ _ Ho)).
Qed.

Lemma scope_loop_by_Equal fuel root st c q h :
  analyzeProperty hasUnicode filename root st = Ok None (mkA (c :: q) h) ->
  scope_loop hasUnicode filename (S fuel) root st
  = if Equal hasUnicode closeScopeToken c
    then Ok None (mkA q h)
    else scope_loop hasUnicode filename fuel root (mkA (c :: q) h).
Proof.
  intros Hp. cbn [scope_loop]. rewrite (bind_Ok_eq _ _ _ _ _ Hp).
  destruct (Equal hasUnicode closeScopeToken c) eqn:Hc.
  - by rewrite (bind_Ok_eq _ _ _ _ _
                  (optionalToken_hit hasUnicode _ _ _ _ Hc)).
  - by rewrite (bind_Ok_eq _ _ _ _ _
                  (optionalToken_miss hasUnicode closeScopeToken (c :: q) h
                     Hc)).
Qed.

Lemma property_defaults_by_Equal node t q h :
  property_defaults hasUnicode filename node (mkA (t :: q) h)
  = if Equal hasUnicode assignmentToken t
    then defaults_loop hasUnicode filename (S (length q)) node (mkA q h)
    else Ok None (mkA (t :: q) h).
Proof.
  unfold property_defaults.
  destruct (Equal hasUnicode assignmentToken t) eqn:Ht.
  - by rewrite (bind_Ok_eq _ _ _ _ _
                  (optionalToken_hit hasUnicode _ _ _ _ Ht)).
  - by rewrite (bind_Ok_eq _ _ _ _ _
                  (optionalToken_miss hasUnicode assignmentToken (t :: q) h
                     Ht)).
Qed.

Lemma defaults_loop_by_Equal fuel node ts ids bar q h sym h1 h2 :
  ns_ident ts ids -> Op bar ≠ OpNamespace ->
  FindNestedSymbol (Concrete node) (tokenStringValues ids) h = Ok sym h1 ->
  AddDefault node sym h1 = Ok tt h2 ->
  defaults_loop hasUnicode filename (S fuel) node
    (mkA (ts ++ bar :: q)%list h)
  = if Equal hasUnicode binaryOrToken bar
    then defaults_loop hasUnicode filename fuel node (mkA q h2)
    else Ok None (mkA (bar :: q) h2).
Proof.
  intros Hns Hbar Hfind Hadd. cbn [defaults_loop].
  rewrite (bind_Ok_eq _ _ _ _ _
             (getNamespacedIdentifier_ns filename _ _ (bar :: q) h Hns Hbar)).
  rewrite (bind_Ok_eq _ _ _ _ _ (lift_Ok_eq _ _ _ _ _ Hfind)).
  rewrite (bind_Ok_eq _ _ _ _ _ (lift_Ok_eq _ _ _ _ _ Hadd)).
  destruct (Equal hasUnicode binaryOrToken bar) eqn:Hb.
  - by rewrite (bind_Ok_eq _ _ _ _ _
                  (optionalToken_hit hasUnicode _ _ _ _ Hb)).
  - by rewrite (bind_Ok_eq _ _ _ _ _
                  (optionalToken_miss hasUnicode binaryOrToken (bar :: q) h2
                     Hb)).
Qed.

Lemma property_tail_by_Equal node p semi o q h :
  property_at h node = Some p ->
  Op semi = OpTerminator ->
  property_tail hasUnicode filename node (mkA (semi :: o :: q) h)
  = if Equal hasUnicode obsoleteToken o
    then obsolete_taken node p q h
    else Ok None (mkA (o :: q) h).
Proof.
  intros Hp Hsemi. unfold property_tail.
  rewrite (bind_Ok_eq _ _ _ _ _ (expectOp_hit filename _ _ _ _ Hsemi)).
  destruct (Equal hasUnicode obsoleteToken o) eqn:Hobs.
  - rewrite (bind_Ok_eq _ _ _ _ _
               (optionalToken_hit hasUnicode _ _ _ _ Hobs)).
    rewrite (bind_Ok_eq _ _ _ _ _
               (lift_Ok_eq _ _ _ _ _ (set_property_at _ _ _ _ Hp))).
    fold (obsoleted p (pObsoleteReason p)). unfold obsolete_taken.
    destruct q as [|t q'].
    + by rewrite (bind_Ok_eq _ _ _ _ _ (optionalOp_miss OpString [] _ I)).
    + destruct (decide (Op t = OpString)) as [Hs|Hs].
      * rewrite (bind_Ok_eq _ _ _ _ _ (optionalOp_hit _ _ _ _ Hs)).
        rewrite (bind_Ok_eq _ _ _ _ _
                   (lift_Ok_eq _ _ _ _ _
                      (set_property_at _ _ _ _
                         (property_at_set_concrete _ _ _)))).
        unfold ret. by rewrite set_concrete_twice.
      * rewrite (bind_Ok_eq _ _ _ _ _
                   (optionalOp_miss OpString (t :: q') _ Hs)).
        destruct (decide (Op t = OpTerminator)) as [Ht|Ht].
        -- by rewrite (bind_Ok_eq _ _ _ _ _ (optionalOp_hit _ _ _ _ Ht)).
        -- by rewrite (bind_Ok_eq _ _ _ _ _
                         (optionalOp_miss OpTerminator (t :: q') _ Ht)).
  - by rewrite (bind_Ok_eq _ _ _ _ _
                  (optionalToken_miss hasUnicode obsoleteToken (o :: q) h
                     Hobs)).
Qed.

Lemma analyzeEnum_by_Equal root name f q h :
  addr_of root ≠ next_node h ->
  Op name = OpIdentifier ->
  Value name ≠ EmptyString ->
  symbols (node_at h (addr_of root)) !! Value name = None ->
  Equal hasUnicode openQualifierToken f = false ->
  let a := next_node h in
  let base := mkBase (Value name) (Some (Concrete a)) in
  ∃ h',
    concrete_at h' a = Some (IsEnum (mkEnum base false None))
    ∧ symbols (node_at h' (addr_of root)) !! Value name = Some (next_sym h)
    ∧ analyzeEnum hasUnicode filename root (mkA (name :: f :: q) h)
      = if Equal hasUnicode flagsToken f
        then enum_scope a
               (mkA q (set_concrete a (IsEnum (mkEnum base true None)) h'))
        else enum_scope a (mkA (f :: q) h').
Proof.
  intros Hne Hop Hv Hfree Hnq a base.
  destruct (declaration_enters filename
              (fun b => IsEnum (mkEnum b false None))
              (fun node _ => enum_body hasUnicode filename root node) root
              name (f :: q) h)
    as (h4 & Hrun & Hc & Ht & _); try done.
  cbn [with_base eBase eFlags eQualifier] in Hc.
  exists (set_concrete a (IsEnum (mkEnum base false None)) h4).
  split; [apply concrete_at_set_concrete|]. split.
  { change (node_at (set_concrete a (IsEnum (mkEnum base false None)) h4)
              (addr_of root)) with (node_at h4 (addr_of root)).
    by rewrite Ht, lookup_insert_eq. }
  change (analyzeEnum hasUnicode filename root (mkA (name :: f :: q) h))
    with ((let* node := lift (newBaseNode (Some root)
                                (fun b => IsEnum (mkEnum b false None))) in
           let* r := expectOp filename OpIdentifier in
           match r with
           | Failed err => ret (Some err)
           | Got name =>
               let* _ := lift (set_Value node (Value name)) in
               let* s := lift (base_Symbol node) in
               let* _ := lift (AddSymbol (addr_of root) (Some s)) in
               enum_body hasUnicode filename root node
           end) (mkA (name :: f :: q) h)).
  rewrite Hrun. clear Hrun. unfold enum_body.
  rewrite (bind_Ok_eq _ _ _ _ _
             (getQualifierIdentifier_none hasUnicode filename (f :: q) h4
                Hnq)).
  cbn [tokenStringValues map].
  rewrite (bind_Ok_eq _ _ _ _ _
             (lift_Ok_eq (FindNestedSymbol root []) _ h4 None h4 eq_refl)).
  rewrite (bind_Ok_eq _ _ _ _ _
             (lift_Ok_eq _ _ _ _ _ (set_enum_at _ _ _ _ Hc))).
  cbn [eBase eFlags]. fold a. fold base.
  set (h5 := set_concrete _ _ h4).
  assert (concrete_at h5 a = Some (IsEnum (mkEnum base false None))) as Hc5
    by apply concrete_at_set_concrete.
  destruct (Equal hasUnicode flagsToken f) eqn:Hf.
  - rewrite (bind_Ok_eq _ _ _ _ _
               (optionalToken_hit hasUnicode _ _ _ _ Hf)).
    by rewrite (bind_Ok_eq _ _ _ _ _
                  (lift_Ok_eq _ _ _ _ _ (set_enum_at _ _ _ _ Hc5))).
  - rewrite (bind_Ok_eq _ _ _ _ _
               (optionalToken_miss hasUnicode flagsToken (f :: q) h5 Hf)).
    by rewrite (bind_Ok_eq _ _ _ _ _ (eq_refl : ret tt _ = Ok tt _)).
Qed.

(** C9, as the code has it.  Two tokens are equal when their
    classifications are equal and [bytes.EqualFold] holds of their values,
    which on ASCII values is equality up to the case of letters.
    [optionalToken] and [expectToken] take the next token exactly when it is
    equal in this sense to the one they are given.  The keywords [class] and
    [enum], and the directive [import], are matched by the exact bytes of
    the value.  The rest is matched by token equality, where the analyzer
    meets it: the brackets [<] and [>] of a qualifier, the braces of a
    scope, the closing brace after a property, the sign [=] before the
    defaults and the bar between two defaults, the keyword [obsolete] after
    the terminator of a property, and the keyword [flags] after the name of
    an enumeration.  In each place the token is taken, and what it stands
    for done, exactly when it is equal to the expected token. *)
Theorem keywords_matched_by_equality_or_exact_value
    (t u : Token) (root : NodeRef) (st : astate) :
  (Equal hasUnicode t u = true
   ↔ Op t = Op u ∧ EqualFold hasUnicode (Value t) (Value u) = true)
  ∧ (is_ascii (Value t) = true -> is_ascii (Value u) = true ->
     (EqualFold hasUnicode (Value t) (Value u) = true
      ↔ lower_string (Value t) = lower_string (Value u)))
  ∧ optionalToken hasUnicode t st
    = match queue st with
      | [] => Ok None st
      | t2 :: q =>
          if Equal hasUnicode t t2 then Ok (Some t2) (mkA q (hp st))
          else Ok None st
      end
  ∧ expectToken hasUnicode filename t st
    = match queue st with
      | [] => Ok (Failed (Errorf filename (-1) (-1) "EOF" EmptyString)) st
      | t2 :: q =>
          if Equal hasUnicode t t2 then Ok (Got t2) (mkA q (hp st))
          else Ok (Failed (Errorf filename (Row t2) (Col t2)
                             "Unexpected token" (Raw t2))) st
      end
  ∧ handleIdentifierToken hasUnicode filename t root st
    = (if decide (Value t = "class")
       then analyzeClass hasUnicode filename root st
       else if decide (Value t = "enum")
       then analyzeEnum hasUnicode filename root st
       else Ok (Some (Errorf filename (Row t) (Col t) "Invalid token"
                        (Raw t))) st)
  ∧ handlePreprocessToken import_path read_file filename Analyze_import
      t root st
    = match queue st with
      | [] => Ok (Some (Errorf filename (-1) (-1) "EOF" EmptyString)) st
      | next :: q =>
          if decide (Op next = OpString) then
            if decide (Value t = "import")
            then importFile import_path read_file filename Analyze_import
                   (Value next) root (mkA q (hp st))
            else Ok None (mkA q (hp st))
          else Ok (Some (Errorf filename (Row next) (Col next)
                           "Unexpected token" (Raw next))) st
      end
  ∧ (∀ lt ts ids gt rest h,
       ns_ident ts ids -> Op gt ≠ OpNamespace ->
       getQualifierIdentifier hasUnicode filename
         (mkA (lt :: ts ++ gt :: rest)%list h)
       = if Equal hasUnicode openQualifierToken lt
         then if Equal hasUnicode closeQualifierToken gt
              then Ok (Got ids) (mkA rest h)
              else Ok (Failed (Errorf filename (Row gt) (Col gt)
                                 "Unexpected token" (Raw gt)))
                     (mkA (gt :: rest) h)
         else Ok (Got []) (mkA (lt :: ts ++ gt :: rest)%list h))
  ∧ (∀ o q h,
       analyzeScope hasUnicode filename root (mkA (o :: q) h)
       = if Equal hasUnicode openScopeToken o
         then match q with
              | c :: q' =>
                  if Equal hasUnicode closeScopeToken c
                  then Ok None (mkA q' h)
                  else scope_loop hasUnicode filename (S (length q)) root
                         (mkA q h)
              | [] => scope_loop hasUnicode filename 1 root (mkA [] h)
              end
         else Ok (Some (Errorf filename (Row o) (Col o) "Unexpected token"
                          (Raw o))) (mkA (o :: q) h))
  ∧ (∀ fuel c q h,
       analyzeProperty hasUnicode filename root st = Ok None (mkA (c :: q) h) ->
       scope_loop hasUnicode filename (S fuel) root st
       = if Equal hasUnicode closeScopeToken c
         then Ok None (mkA q h)
         else scope_loop hasUnicode filename fuel root (mkA (c :: q) h))
  ∧ (∀ node a q h,
       property_defaults hasUnicode filename node (mkA (a :: q) h)
       = if Equal hasUnicode assignmentToken a
         then defaults_loop hasUnicode filename (S (length q)) node (mkA q h)
         else Ok None (mkA (a :: q) h))
  ∧ (∀ fuel node ts ids bar q h sym h1 h2,
       ns_ident ts ids -> Op bar ≠ OpNamespace ->
       FindNestedSymbol (Concrete node) (tokenStringValues ids) h
       = Ok sym h1 ->
       AddDefault node sym h1 = Ok tt h2 ->
       defaults_loop hasUnicode filename (S fuel) node
         (mkA (ts ++ bar :: q)%list h)
       = if Equal hasUnicode binaryOrToken bar
         then defaults_loop hasUnicode filename fuel node (mkA q h2)
         else Ok None (mkA (bar :: q) h2))
  ∧ (∀ node p semi o q h,
       property_at h node = Some p ->
       Op semi = OpTerminator ->
       property_tail hasUnicode filename node (mkA (semi :: o :: q) h)
       = if Equal hasUnicode obsoleteToken o
         then obsolete_taken node p q h
         else Ok None (mkA (o :: q) h))
  ∧ (∀ name f q h,
       addr_of root ≠ next_node h ->
       Op name = OpIdentifier ->
       Value name ≠ EmptyString ->
       symbols (node_at h (addr_of root)) !! Value name = None ->
       Equal hasUnicode openQualifierToken f = false ->
       ∃ h',
         concrete_at h' (next_node h)
         = Some (IsEnum (mkEnum (mkBase (Value name)
                                   (Some (Concrete (next_node h))))
                           false None))
         ∧ symbols (node_at h' (addr_of root)) !! Value name
           = Some (next_sym h)
         ∧ analyzeEnum hasUnicode filename root (mkA (name :: f :: q) h)
           = if Equal hasUnicode flagsToken f
             then enum_scope (next_node h)
                    (mkA q (set_concrete (next_node h)
                              (IsEnum (mkEnum (mkBase (Value name)
                                                 (Some (Concrete
                                                          (next_node h))))
                                         true None)) h'))
             else enum_scope (next_node h) (mkA (f :: q) h')).
Proof.
  split; [|split; [|split; [|split; [|split; [|split]]]]].
  - unfold Equal, ValueEqual. rewrite andb_true_iff, bool_decide_eq_true.
    done.
  - intros Ht Hu. rewrite (EqualFold_ascii _ _ _ Ht Hu).
    apply bool_decide_eq_true.
  - destruct st as [[|t2 q] h]; [done|]. cbn [queue hp].
    destruct (Equal hasUnicode t t2) eqn:E.
    + by apply optionalToken_hit.
    + by apply optionalToken_miss.
  - destruct st as [[|t2 q] h]; [done|]. cbn [queue hp].
    destruct (Equal hasUnicode t t2) eqn:E.
    + by apply expectToken_hit.
    + by apply expectToken_miss.
  - unfold handleIdentifierToken.
    by destruct (decide (Value t = "class")), (decide (Value t = "enum")).
  - unfold handlePreprocessToken.
    destruct st as [[|next q] h]; unfold bind at 1.
    + by rewrite expectOp_eof.
    + cbn [queue hp]. destruct (decide (Op next = OpString)) as [E|E].
      * rewrite expectOp_hit by done.
        by destruct (decide (Value t = "import")).
      * by rewrite expectOp_miss.
  - split; [apply getQualifierIdentifier_by_Equal|].
    split; [apply analyzeScope_by_Equal|].
    split; [intros; by apply scope_loop_by_Equal|].
    split; [apply property_defaults_by_Equal|].
    split; [apply defaults_loop_by_Equal|].
    split; [apply property_tail_by_Equal|].
    intros name f q h. apply analyzeEnum_by_Equal.
Qed.

End KeywordUse.

(** * The qualifier of a property *)

(** ** The qualifier of a property, from the property node *)

Lemma FindSymbol_rec_S fuel n v create h :
  FindSymbol_rec (S fuel) n v create h
  = match symbols (node_at h n) !! v with
    | Some sym => Ok (Some sym) h
    | None =>
        match
          match parent (node_at h n) with
          | Some p => FindSymbol_rec fuel (addr_of p) v create h
          | None => Ok None h
          end
        with
        | Ok (Some sym) h' => Ok (Some sym) h'
        | Ok None h' =>
            if create
            then (let* sym := CreateSymbol n v (owner (node_at h' n)) in
                  ret (Some sym)) h'
            else Ok None h'
        | Panic p => Panic p
        | Diverge => Diverge
        end
    end.
Proof.
  cbn [FindSymbol_rec]. unfold bind at 1, get.
  destruct (symbols (node_at h n) !! v); [done|]. unfold bind at 1.
  destruct (parent (node_at h n)) as [p|].
  - destruct (FindSymbol_rec fuel (addr_of p) v create h) as [[sym|] h'| |];
      try done. by destruct create.
  - unfold ret. by destruct create.
Qed.

(** A search that ends is not changed by a greater bound on its depth. *)
Lemma FindSymbol_rec_more fuel :
  ∀ n v create h,
    FindSymbol_rec fuel n v create h ≠ Diverge ->
    FindSymbol_rec (S fuel) n v create h = FindSymbol_rec fuel n v create h.
Proof.
  induction fuel as [|fuel IH]; intros n v create h Hnd; [done|].
  rewrite (FindSymbol_rec_S (S fuel)). rewrite FindSymbol_rec_S in Hnd |- *.
  destruct (symbols (node_at h n) !! v); [done|].
  destruct (parent (node_at h n)) as [p|]; [|done].
  rewrite IH; [done|]. intros E. by rewrite E in Hnd.
Qed.

(** From a node whose table is empty the search is the search from its
    parent. *)
Lemma FindSymbol_rec_fresh_child h n p v create fuel :
  symbols (node_at h n) = ∅ ->
  parent (node_at h n) = Some p ->
  FindSymbol_rec (S fuel) n v create h
  = FindSymbol_rec fuel (addr_of p) v create h.
Proof.
  intros Ht Hp. rewrite FindSymbol_rec_S, Ht, lookup_empty, Hp.
  destruct (FindSymbol_rec fuel (addr_of p) v create h) as [[sym|] h'| |]
    eqn:E; try done.
  destruct create; [|done].
  by apply FindSymbol_rec_create_some in E as [? [=]].
Qed.

Lemma FindNestedSymbol_fresh_child h n p root path s h1 :
  symbols (node_at h n) = ∅ ->
  parent (node_at h n) = Some p ->
  addr_of p = addr_of root ->
  FindNestedSymbol (Concrete n) path h = Ok s h1 ->
  FindNestedSymbol root path h = Ok s h1.
Proof.
  intros Ht Hp Hpr. destruct path as [|v rest]; [done|].
  unfold FindNestedSymbol. cbn [FindNestedSymbol_loop addr_of].
  intros (found & h' & Hf & Hrest)%bind_Ok_inv.
  assert (FindSymbol (addr_of root) v (bool_decide (rest = [])) h
          = Ok found h') as Hroot.
  { unfold FindSymbol in *.
    rewrite (FindSymbol_rec_fresh_child _ _ _ _ _ _ Ht Hp), Hpr in Hf.
    rewrite FindSymbol_rec_more; [done|]. by rewrite Hf. }
  by rewrite (bind_Ok_eq _ _ _ _ _ Hroot).
Qed.

Section QualifierStored.

Variable hasUnicode : string -> string -> bool.
Variable filename : string.

(** [analyzeProperty] from [node.Symbol()] on. *)
Definition property_rest (root : NodeRef) (node : addr)
    (typeSymbol flags : string) : M astate (option error) :=
  let* r := property_enter root node typeSymbol flags in
  match r with
  | Failed err => ret (Some err)
  | Got node =>
      let* e := property_defaults hasUnicode filename node in
      match e with
      | Some err => ret (Some err)
      | None => property_tail hasUnicode filename node
      end
  end.

Lemma keeps_property_rest n s root node ty fl :
  keeps (flagsopt_is n s) (property_rest root node ty fl).
Proof.
  unfold property_rest, property_enter.
  repeat first
    [ apply keeps_property_defaults; intros x ds Hx; exact Hx
    | apply keeps_property_tail; intros x o rs Hx; exact Hx
    | apply keeps_lift;
      first
        [ apply hkeeps_base_Symbol; apply property_holds_concretes_only
        | apply hkeeps_set_property; intros x Hx; exact Hx
        | apply hkeeps_graph_only;
          [ apply property_holds_concretes_only
          | first [apply AddSymbol_graph_only
                  |apply FindSymbol_graph_only] ] ]
    | keeps_step ].
Qed.

(** The steps from the names to the stored qualifier symbol. *)
Lemma property_stored_steps root a name ty fl path q h0 s h1 :
  property_at h0 a = Some (fresh_property a) ->
  FindNestedSymbol root path h0 = Ok s h1 ->
  ∃ h2,
    (let* _ := lift (set_Value a name) in
     let* fo := lift (FindNestedSymbol root path) in
     let* _ := lift (set_property a (fun x =>
       mkProperty (pBase x) (pFlags x) fo (pType x) (pDefault x)
         (pObsolete x) (pObsoleteReason x))) in
     property_enter root a ty fl) (mkA q h0)
    = property_enter root a ty fl (mkA q h2)
    ∧ property_at h2 a
      = Some (mkProperty (mkBase name (Some (Concrete a))) EmptyString s None
                [] false EmptyString)
    ∧ nodes h2 = nodes h1 ∧ syms h2 = syms h1.
Proof.
  intros Hfresh Hfind.
  rewrite (bind_Ok_eq _ _ _ _ _
             (lift_Ok_eq _ _ _ _ _
                (set_Value_concrete _ name _ _
                   (property_at_concrete _ _ _ Hfresh)))).
  cbn [with_base base_of fresh_property pBase bOwner pFlags pFlagsOpt pType
         pDefault pObsolete pObsoleteReason].
  match goal with
  | |- context [set_concrete a ?c h0] =>
      change (set_concrete a c h0)
        with (with_concretes (<[a := c]> (concretes h0)) h0)
  end.
  rewrite (bind_Ok_eq _ _ _ _ _
             (eq_trans (lift_graph_only _ _ _ _
                          (FindNestedSymbol_graph_only root path))
                 (f_equal (fun r => match r with
                                    | Ok x h' => Ok x (mkA q (with_concretes _ h'))
                                    | Panic p => Panic p
                                    | Diverge => Diverge
                                    end) Hfind))).
  match goal with
  | |- context [mkA q (with_concretes ?cs h1)] =>
      assert (property_at (with_concretes cs h1) a
              = Some (mkProperty (mkBase name (Some (Concrete a))) EmptyString
                        None None [] false EmptyString)) as Hp1
        by (unfold property_at, concrete_at; cbn [with_concretes concretes];
            by rewrite lookup_insert_eq)
  end.
  rewrite (bind_Ok_eq _ _ _ _ _
             (lift_Ok_eq _ _ _ _ _ (set_property_at a _ _ _ Hp1))).
  eexists. split; [reflexivity|].
  split; [apply property_at_set_concrete|by split].
Qed.

(** The head of a declaration with a qualifier, up to the names. *)
Lemma property_head_qualified root t1 lt ts ids gt rest h h0 :
  NewPropertyNode (Some root) h = Ok (next_node h) h0 ->
  Op t1 = OpIdentifier ->
  Equal hasUnicode openQualifierToken lt = true ->
  ns_ident ts ids ->
  Equal hasUnicode closeQualifierToken gt = true ->
  property_head hasUnicode filename root
    (mkA (t1 :: lt :: ts ++ gt :: rest)%list h)
  = (let* t2 := optionalOp OpIdentifier in
     let* t3 := optionalOp OpIdentifier in
     let* names :=
       match t3, t2 with
       | Some t3, Some t2 => ret (Value t3, Value t2, Value t1)
       | Some t3, None => raise PanicNilDereference
       | None, Some t2 => ret (Value t2, Value t1, EmptyString)
       | None, None => ret (Value t1, EmptyString, EmptyString)
       end in
     let '(nodeValue, typeSymbol, flags) := names in
     let* _ := lift (set_Value (next_node h) nodeValue) in
     let* fo := lift (FindNestedSymbol root (tokenStringValues ids)) in
     let* _ := lift (set_property (next_node h) (fun x =>
       mkProperty (pBase x) (pFlags x) fo (pType x) (pDefault x)
         (pObsolete x) (pObsoleteReason x))) in
     property_enter root (next_node h) typeSymbol flags) (mkA rest h0).
Proof.
  intros Hnew Hop Hlt Hns Hgt. unfold property_head.
  rewrite (bind_Ok_eq _ _ _ _ _ (lift_Ok_eq _ _ _ _ _ Hnew)).
  rewrite (bind_Ok_eq _ _ _ _ _ (expectOp_hit filename _ _ _ _ Hop)).
  by rewrite (bind_Ok_eq _ _ _ _ _
                (getQualifierIdentifier_qualified hasUnicode filename _ _ _ _
                   _ _ Hlt Hns Hgt)).
Qed.

Lemma analyzeProperty_rest root st n ty fl st2 :
  property_head hasUnicode filename root st
  = property_enter root n ty fl st2 ->
  analyzeProperty hasUnicode filename root st = property_rest root n ty fl st2.
Proof.
  intros H. unfold analyzeProperty, property_rest, bind at 1 3.
  by rewrite H.
Qed.

(** C4.  In a property declaration that carries a qualifier
    [< NamespacedIdentifier >] after its first identifier, the qualifier is
    resolved against the property node itself: whenever [FindNestedSymbol]
    called on the new property node, in the heap as it stands once that node
    is made, returns a symbol (or nil), the call that [analyzeProperty]
    makes, which is on the enclosing scope, returns the same in the same
    heap, since the new node has no symbol of its own and the enclosing
    scope as its parent.  [analyzeProperty] then goes on with that symbol
    stored as the flags-qualifier symbol of the property, which nothing that
    follows in the declaration changes.  A plain qualifier that no table on
    the way up holds yet, as the name of a sibling declared later, does not
    fail: it resolves to a new symbol in the table of the topmost
    ancestor. *)
Theorem qualifier_resolved_from_property_node
    (root : NodeRef) (h h0 : heap) (t1 lt : Token) (ts ids : list Token)
    (gt : Token) (rest : list Token) (s : option sym_ptr) (h1 : heap) :
  addr_of root ≠ next_node h ->
  NewPropertyNode (Some root) h = Ok (next_node h) h0 ->
  Op t1 = OpIdentifier ->
  Equal hasUnicode openQualifierToken lt = true ->
  ns_ident ts ids ->
  Equal hasUnicode closeQualifierToken gt = true ->
  FindNestedSymbol (Concrete (next_node h)) (tokenStringValues ids) h0
  = Ok s h1 ->
  let n := next_node h in
  let st := mkA (t1 :: lt :: ts ++ gt :: rest)%list h in
  FindNestedSymbol root (tokenStringValues ids) h0 = Ok s h1
  ∧ (∃ name ty fl q' h2,
       analyzeProperty hasUnicode filename root st
       = property_rest root n ty fl (mkA q' h2)
       ∧ property_at h2 n
         = Some (mkProperty (mkBase name (Some (Concrete n))) EmptyString s
                   None [] false EmptyString)
       ∧ nodes h2 = nodes h1 ∧ syms h2 = syms h1)
  ∧ (∀ e st', analyzeProperty hasUnicode filename root st = Ok e st' ->
              flagsopt_is n s (hp st'))
  ∧ (∀ q top d,
       ids = [q] -> Value q ≠ EmptyString ->
       exhausts h0 (Value q) n top d ->
       (d <= next_node h0)%nat ->
       s = Some (next_sym h0)
       ∧ symbols (node_at h1 top) !! Value q = Some (next_sym h0)
       ∧ sym_at h1 (next_sym h0)
         = mkSymbol (Value q) (Some (Generic top)) (owner (node_at h0 top))).
Proof.
  intros Hne Hnew Hop Hlt Hns Hgt Hnode n st.
  destruct (newBaseNode_spec root
              (fun b => IsProperty (mkProperty b EmptyString None None []
                                      false EmptyString)) h Hne)
    as (h0' & Hnew' & Hn & Hc & _).
  assert (h0' = h0) as -> by (unfold NewPropertyNode in Hnew; congruence).
  assert (property_at h0 n = Some (fresh_property n)) as Hfresh
    by (unfold property_at, n; by rewrite Hc).
  assert (FindNestedSymbol root (tokenStringValues ids) h0 = Ok s h1)
    as Hroot.
  { apply (FindNestedSymbol_fresh_child h0 n (Generic (addr_of root)));
      [by unfold n; rewrite Hn|by unfold n; rewrite Hn|done|done]. }
  assert (∃ name ty fl q' h2,
            analyzeProperty hasUnicode filename root st
            = property_rest root n ty fl (mkA q' h2)
            ∧ property_at h2 n
              = Some (mkProperty (mkBase name (Some (Concrete n))) EmptyString
                        s None [] false EmptyString)
            ∧ nodes h2 = nodes h1 ∧ syms h2 = syms h1) as Hstored.
  { pose proof (property_head_qualified root t1 lt ts ids gt rest h h0 Hnew
                  Hop Hlt Hns Hgt) as Hhead.
    assert (Hcase :
      (∃ t2 t3 q', rest = t2 :: t3 :: q' ∧ Op t2 = OpIdentifier
                   ∧ Op t3 = OpIdentifier)
      ∨ (∃ t2 q', rest = t2 :: q' ∧ Op t2 = OpIdentifier
                  ∧ match q' with [] => True | t :: _ => Op t ≠ OpIdentifier end)
      ∨ match rest with [] => True | t :: _ => Op t ≠ OpIdentifier end).
    { destruct rest as [|t2 q']; [by right; right|].
      destruct (decide (Op t2 = OpIdentifier)) as [E2|E2]; [|by right; right].
      destruct q' as [|t3 q'']; [right; left; by exists t2, []|].
      destruct (decide (Op t3 = OpIdentifier)) as [E3|E3].
      - left. by exists t2, t3, q''.
      - right; left. by exists t2, (t3 :: q''). }
    destruct Hcase as [(t2 & t3 & q' & -> & E2 & E3)
                      |[(t2 & q' & -> & E2 & E3)|E2]].
    - rewrite (bind_Ok_eq _ _ _ _ _ (optionalOp_hit _ _ _ _ E2)) in Hhead.
      rewrite (bind_Ok_eq _ _ _ _ _ (optionalOp_hit _ _ _ _ E3)) in Hhead.
      rewrite (bind_Ok_eq _ _ _ _ _ (eq_refl : ret _ _ = Ok _ _)) in Hhead.
      destruct (property_stored_steps root n (Value t3) (Value t2) (Value t1)
                  _ q' h0 s h1 Hfresh Hroot) as (h2 & Hrun & Hp & Hnodes).
      exists (Value t3), (Value t2), (Value t1), q', h2.
      split; [|done]. apply analyzeProperty_rest. subst st.
      rewrite Hhead. exact Hrun.
    - rewrite (bind_Ok_eq _ _ _ _ _ (optionalOp_hit _ _ _ _ E2)) in Hhead.
      rewrite (bind_Ok_eq _ _ _ _ _ (optionalOp_miss OpIdentifier q' _ E3))
        in Hhead.
      rewrite (bind_Ok_eq _ _ _ _ _ (eq_refl : ret _ _ = Ok _ _)) in Hhead.
      destruct (property_stored_steps root n (Value t2) (Value t1) EmptyString
                  _ q' h0 s h1 Hfresh Hroot) as (h2 & Hrun & Hp & Hnodes).
      exists (Value t2), (Value t1), EmptyString, q', h2.
      split; [|done]. apply analyzeProperty_rest. subst st.
      rewrite Hhead. exact Hrun.
    - rewrite (bind_Ok_eq _ _ _ _ _ (optionalOp_miss OpIdentifier rest _ E2))
        in Hhead.
      rewrite (bind_Ok_eq _ _ _ _ _ (optionalOp_miss OpIdentifier rest _ E2))
        in Hhead.
      rewrite (bind_Ok_eq _ _ _ _ _ (eq_refl : ret _ _ = Ok _ _)) in Hhead.
      destruct (property_stored_steps root n (Value t1) EmptyString
                  EmptyString _ rest h0 s h1 Hfresh Hroot)
        as (h2 & Hrun & Hp & Hnodes).
      exists (Value t1), EmptyString, EmptyString, rest, h2.
      split; [|done]. apply analyzeProperty_rest. subst st.
      rewrite Hhead. exact Hrun. }
  split; [done|]. split; [done|]. split.
  - intros e st' Hrun.
    destruct Hstored as (name & ty & fl & q' & h2 & Heq & Hp & _).
    rewrite Heq in Hrun.
    apply (keeps_property_rest n s _ _ _ _ _ _ _ Hrun).
    eexists. by split.
  - intros q top d -> Hv Hex Hd.
    destruct (FindSymbol_create_exhausted h0 (Value q) n top d Hex Hd Hv)
      as (hc & Hcreate & Htab & Hsym & _).
    unfold FindNestedSymbol in Hnode.
    cbn [tokenStringValues map FindNestedSymbol_loop addr_of] in Hnode.
    rewrite bool_decide_eq_true_2 in Hnode by done.
    rewrite (bind_Ok_eq _ _ _ _ _ Hcreate) in Hnode.
    unfold bind, get, ret in Hnode. by injection Hnode as <- <-.
Qed.

End QualifierStored.

(** The heap of [qualified_start] once the property node, at 2, is made,
    and once the qualifier [b] is resolved from that node. *)
Definition qualified_node : heap :=
  match NewPropertyNode (Some (Concrete 1%nat)) root_with_class with
  | Ok _ h => h
  | _ => root_with_class
  end.

Definition qualified_found : heap :=
  match FindNestedSymbol (Concrete 2%nat) ["b"] qualified_node with
  | Ok _ h => h
  | _ => qualified_node
  end.

Lemma qualifier_resolved_from_property_node_witness :
  FindNestedSymbol (Concrete 2%nat) ["b"] qualified_node
  = Ok (Some O) qualified_found
  ∧ FindNestedSymbol (Concrete 1%nat) ["b"] qualified_node
    = Ok (Some O) qualified_found
  ∧ flagsopt_is 2%nat (Some O) (hp qualified_done)
  ∧ symbols (node_at qualified_found O) !! "b" = Some O.
Proof.
  assert (FindNestedSymbol (Concrete 2%nat) ["b"] qualified_node
          = Ok (Some O) qualified_found) as Hnode
    by (vm_compute; reflexivity).
  destruct (qualifier_resolved_from_property_node ascii_fold EmptyString
              (Concrete 1%nat) root_with_class qualified_node
              (tok OpIdentifier "a" 1 2) (tok OpOperator "<" 1 3)
              [tok OpIdentifier "b" 1 4] [tok OpIdentifier "b" 1 4]
              (tok OpOperator ">" 1 5)
              [tok OpIdentifier "x" 1 7; tok OpTerminator ";" 1 8]
              (Some O) qualified_found)
    as (Hroot & _ & Hkept & Hforward).
  - vm_compute. lia.
  - vm_compute. reflexivity.
  - reflexivity.
  - reflexivity.
  - apply ns_plain. reflexivity.
  - reflexivity.
  - exact Hnode.
  - split; [exact Hnode|]. split; [exact Hroot|]. split.
    + apply (Hkept None qualified_done). vm_compute. reflexivity.
    + destruct (Hforward (tok OpIdentifier "b" 1 4) O 2%nat eq_refl)
        as (_ & Htab & _); [discriminate| |vm_compute; lia|exact Htab].
      apply (exhausts_up _ _ 2%nat (Generic 1%nat) O 1%nat);
        [reflexivity|reflexivity|].
      apply (exhausts_up _ _ 1%nat (Generic O) O O);
        [reflexivity|reflexivity|].
      apply exhausts_top; reflexivity.
Defined.
